(** * Workload leveling and capacity projection of the api-chantiers planner

    A shallow embedding of [src/time-utils.js], [src/planning-logic.js] and
    the margin / tension / badge passes of [renderGrid] in
    [src/planning-display.js], with the properties stated in the
    specification proved (or refuted) on the embedded code.

    Conventions of the embedding.
    - A JavaScript [Date] is its time value: a [Z] of milliseconds since
      1970-01-01T00:00Z.  The host's local time zone is a fixed offset [tz]
      (minutes east of UTC); the getters that the source calls without
      [UTC] in their name read the local fields.
    - The globals [weeks], [data] and [chantiers] are passed explicitly.
    - A JavaScript object used as a dictionary keyed by week key is a
      [gmap string _]; the job store and the availability store are kept in
      [Object.values] / [Object.keys] order as lists, and an array of object
      references ([chantierList]) is a list of positions in the job store.
    - Minutes are integers ([Z]); the hour quantities of the projection,
      which the source obtains by dividing by 60, are exact rationals ([Q]). *)

From Stdlib Require Import Ascii String ZArith QArith Qround Lia.
From stdpp Require Import base tactics option list numbers strings pretty gmap fin_maps.

Close Scope Q_scope.
Local Open Scope Z_scope.

(* ===================================================================== *)
(** ** ECMAScript date arithmetic used by the sources                     *)
(* ===================================================================== *)

Module JSDate.

Definition msPerMinute : Z := 60000.
Definition msPerHour : Z := 3600000.
Definition msPerDay : Z := 86400000.

(** [Day(t)] and [TimeWithinDay(t)] of ECMA-262. *)
Definition Day (t : Z) : Z := t / msPerDay.
Definition TimeWithinDay (t : Z) : Z := t mod msPerDay.

(** [WeekDay(t)]: 0 is Sunday; 1970-01-01 was a Thursday. *)
Definition WeekDay (t : Z) : Z := (Day t + 4) mod 7.

Definition DayFromYear (y : Z) : Z :=
  365 * (y - 1970) + (y - 1969) / 4 - (y - 1901) / 100 + (y - 1601) / 400.

Definition InLeapYear (y : Z) : bool :=
  ((y mod 4 =? 0) && negb (y mod 100 =? 0)) || (y mod 400 =? 0).

(** Days of the year that precede month [mn] (0 = January). *)
Definition daysBeforeMonth (leap : bool) (mn : Z) : Z :=
  let l := if leap then 1 else 0 in
  match mn with
  | 0 => 0 | 1 => 31 | 2 => 59 + l | 3 => 90 + l | 4 => 120 + l
  | 5 => 151 + l | 6 => 181 + l | 7 => 212 + l | 8 => 243 + l
  | 9 => 273 + l | 10 => 304 + l | _ => 334 + l
  end.

(** [MakeDay(year, month, date)]: months and dates out of range carry. *)
Definition MakeDay (year month date : Z) : Z :=
  let ym := year + month / 12 in
  let mn := month mod 12 in
  DayFromYear ym + daysBeforeMonth (InLeapYear ym) mn + date - 1.

(** Civil fields of a day number: (year, month 0..11, day of month). *)
Definition civil (day : Z) : Z * Z * Z :=
  let z := day + 719468 in
  let era := z / 146097 in
  let doe := z - era * 146097 in
  let yoe := (doe - doe / 1460 + doe / 36524 - doe / 146096) / 365 in
  let doy := doe - (365 * yoe + yoe / 4 - yoe / 100) in
  let mp := (5 * doy + 2) / 153 in
  let d := doy - (153 * mp + 2) / 5 + 1 in
  let m := if mp <? 10 then mp + 2 else mp - 10 in
  let y := yoe + era * 400 in
  (if m <=? 1 then y + 1 else y, m, d).

Definition YearFromTime (t : Z) : Z := (civil (Day t)).1.1.
Definition MonthFromTime (t : Z) : Z := (civil (Day t)).1.2.
Definition DateFromTime (t : Z) : Z := (civil (Day t)).2.

(** [Date.UTC(y, m, d, h, mi)]; a year in 0..99 means 1900 + year. *)
Definition fullYear (y : Z) : Z :=
  if (0 <=? y) && (y <=? 99) then 1900 + y else y.

Definition UTC (y m d h mi : Z) : Z :=
  MakeDay (fullYear y) m d * msPerDay + h * msPerHour + mi * msPerMinute.

Definition getUTCFullYear (t : Z) : Z := YearFromTime t.
Definition getUTCMonth (t : Z) : Z := MonthFromTime t.
Definition getUTCDate (t : Z) : Z := DateFromTime t.
Definition getUTCDay (t : Z) : Z := WeekDay t.

(** [d.setUTCDate(dt)]: same month and time of day, day of month [dt]. *)
Definition setUTCDate (t dt : Z) : Z :=
  MakeDay (YearFromTime t) (MonthFromTime t) dt * msPerDay + TimeWithinDay t.

Section Local.
(** Offset of local time from UTC, in minutes. *)
Variable tz : Z.

Definition LocalTime (t : Z) : Z := t + tz * msPerMinute.
Definition UTCofLocal (t : Z) : Z := t - tz * msPerMinute.

Definition getFullYear (t : Z) : Z := YearFromTime (LocalTime t).
Definition getMonth (t : Z) : Z := MonthFromTime (LocalTime t).
Definition getDate (t : Z) : Z := DateFromTime (LocalTime t).
Definition getHours (t : Z) : Z := TimeWithinDay (LocalTime t) / msPerHour.
Definition getMinutes (t : Z) : Z :=
  (TimeWithinDay (LocalTime t) / msPerMinute) mod 60.

(** [new Date(year, monthIndex, day)]: local midnight. *)
Definition newDateLocal (y m d : Z) : Z :=
  UTCofLocal (MakeDay (fullYear y) m d * msPerDay).
End Local.

End JSDate.

(* ===================================================================== *)
(** ** [src/time-utils.js]                                                *)
(* ===================================================================== *)

Record Week := mkWeek {
  w_id : string;      (* id: `S${w}/${y}` *)
  w_label : string;   (* label: "dd/mm - dd/mm" *)
  w_start : Z;        (* start: Monday, UTC midnight *)
  w_end : Z           (* end: start + 6 days *)
}.

(** [String(n).padStart(2, '0')] *)
Definition padStart2 (s : string) : string :=
  match String.length s with
  | O => "00" +:+ s
  | S O => "0" +:+ s
  | _ => s
  end.

Definition pad2 (n : Z) : string := padStart2 (pretty n).

Section TimeUtils.
Variable tz : Z.

(** [Date.prototype.getWeek]: ISO week number of the local calendar day. *)
Definition getWeek (this : Z) : Z :=
  let d := JSDate.UTC (JSDate.getFullYear tz this) (JSDate.getMonth tz this)
                      (JSDate.getDate tz this) 0 0 in
  let day := if JSDate.getUTCDay d =? 0 then 7 else JSDate.getUTCDay d in
  let d := JSDate.setUTCDate d (JSDate.getUTCDate d + 4 - day) in
  let n := (d - JSDate.UTC (JSDate.getUTCFullYear d) 0 1 0 0) / JSDate.msPerDay in
  (* Math.ceil((n + 1) / 7) *)
  - ((- (n + 1)) / 7).

Definition getISOWeeksInYear (y : Z) : Z :=
  let d := JSDate.UTC y 11 31 0 0 in
  let w := getWeek d in
  if w =? 1 then 52 else w.

Definition getDateOfISOWeek (w y : Z) : Z :=
  let d := JSDate.UTC y 0 (1 + (w - 1) * 7) 0 0 in
  let day := if JSDate.getUTCDay d =? 0 then 7 else JSDate.getUTCDay d in
  JSDate.setUTCDate d
    (JSDate.getUTCDate d + (1 - day + (if day <=? 4 then 0 else 7))).

(** The body of the generation loop for week [w] of year [y]. *)
Definition makeWeek (y w : Z) : Week :=
  let s := getDateOfISOWeek w y in
  let e := JSDate.setUTCDate s (JSDate.getUTCDate s + 6) in
  {| w_id := "S" +:+ pretty w +:+ "/" +:+ pretty y;
     w_label := pad2 (JSDate.getUTCDate s) +:+ "/" +:+ pad2 (JSDate.getUTCMonth s + 1)
                +:+ " - " +:+
                pad2 (JSDate.getUTCDate e) +:+ "/" +:+ pad2 (JSDate.getUTCMonth e + 1);
     w_start := s;
     w_end := e |}.

(** [for (let y = 2024; y <= 2028; y++) for (let w = 1; w <= tot; w++) ...] *)
Definition weeksOfYear (y : Z) : list Week :=
  makeWeek y <$> seqZ 1 (getISOWeeksInYear y).

Definition weeks : list Week :=
  concat (weeksOfYear <$> seqZ 2024 5).

(** The week key computed wherever the sources index by week:
    [`${w.start.getFullYear()}-W${String(w.start.getWeek()).padStart(2,'0')}-1`] *)
Definition weekKey (w : Week) : string :=
  pretty (JSDate.getFullYear tz (w_start w)) +:+ "-W" +:+
  pad2 (getWeek (w_start w)) +:+ "-1".

End TimeUtils.

(* ===================================================================== *)
(** ** Stores                                                             *)
(* ===================================================================== *)

(** A stored availability: [{ minutes, updatedAt }], or a bare number in
    legacy records. *)
Inductive Stored :=
| StoredObject (minutes : Z) (updatedAt : string)
| StoredNumber (n : Z).

(** [data]: resource name -> (week key -> stored availability), in
    [Object.keys] order. *)
Definition Data := list (string * gmap string Stored).

(** [data[name]] *)
Fixpoint dataGet (data : Data) (name : string) : option (gmap string Stored) :=
  match data with
  | [] => None
  | (n, a) :: rest => if decide (n = name) then Some a else dataGet rest name
  end.

(** A job record.  [planification] may be absent (imported jobs have
    none); [ChargeRestante] and [tempsRestant] are the two fields that
    [repartitionAutomatique] sets or deletes beside [planification]. *)
Record Chantier := mkChantier {
  ch_id : string;
  label : string;
  status : string;
  prepTime : Z;
  endDate : string;
  preparateur : option string;
  planification : option (gmap string Z);
  ChargeRestante : option Z;
  tempsRestant : option Z
}.

Definition set_planification (p : option (gmap string Z)) (ch : Chantier) : Chantier :=
  mkChantier (ch_id ch) (label ch) (status ch) (prepTime ch) (endDate ch)
             (preparateur ch) p (ChargeRestante ch) (tempsRestant ch).

Definition set_ChargeRestante (v : option Z) (ch : Chantier) : Chantier :=
  mkChantier (ch_id ch) (label ch) (status ch) (prepTime ch) (endDate ch)
             (preparateur ch) (planification ch) v (tempsRestant ch).

Definition set_tempsRestant (v : option Z) (ch : Chantier) : Chantier :=
  mkChantier (ch_id ch) (label ch) (status ch) (prepTime ch) (endDate ch)
             (preparateur ch) (planification ch) (ChargeRestante ch) v.

(** [['Nouveau', 'Prépa. en cours'].includes(ch.status)] *)
Definition isActive (ch : Chantier) : bool :=
  bool_decide (status ch = "Nouveau" ∨ status ch = "Prépa. en cours").

(** [ch.planification || {}] *)
Definition planifOf (ch : Chantier) : gmap string Z :=
  default ∅ (planification ch).

(** [c.planification[key] || 0] *)
Definition getPlan (ch : Chantier) (key : string) : Z :=
  default 0 (planifOf ch !! key).

(** [Object.values(m).reduce((sum, v) => sum + v, 0)] *)
Definition sumValues (m : gmap string Z) : Z :=
  map_fold (λ _ v sum, sum + v) 0 m.

(* ===================================================================== *)
(** ** [parseDateFR] and the deadline comparator                          *)
(* ===================================================================== *)

(** [str.split('/')] *)
Fixpoint splitSlash (s : string) : list string :=
  match s with
  | EmptyString => [EmptyString]
  | String c rest =>
      if Ascii.eqb c "/"%char then EmptyString :: splitSlash rest
      else match splitSlash rest with
           | [] => [String c EmptyString]
           | hd :: tl => String c hd :: tl
           end
  end.

Definition digitValue (c : ascii) : option Z :=
  let n := Z.of_N (Ascii.N_of_ascii c) in
  if (48 <=? n) && (n <=? 57) then Some (n - 48) else None.

Fixpoint digitsValue (acc : Z) (s : string) : option Z :=
  match s with
  | EmptyString => Some acc
  | String c rest =>
      match digitValue c with
      | Some d => digitsValue (10 * acc + d) rest
      | None => None
      end
  end.

(** [Number(s)] on the strings the planner stores: a run of decimal digits
    (the empty string is 0).  Anything else is [NaN], here [None]. *)
Definition Number (s : string) : option Z := digitsValue 0 s.

Section Deadlines.
Variable tz : Z.

(** [parseDateFR(str)]: [None] is an invalid date. *)
Definition parseDateFR (str : string) : option Z :=
  match Number <$> splitSlash str with
  | Some day :: Some month :: Some year :: _ =>
      Some (JSDate.newDateLocal tz year (month - 1) day)
  | _ => None
  end.

(** [(a, b) => parseDateFR(a.endDate) - parseDateFR(b.endDate)] *)
Definition compareEndDate (a b : Chantier) : option Z :=
  ta ← parseDateFR (endDate a); tb ← parseDateFR (endDate b); Some (ta - tb).
End Deadlines.

(** [Array.prototype.sort] with a comparator: stable; a [NaN] result of the
    comparator counts as 0. *)
Section StableSort.
Context {A : Type} (cmp : A → A → option Z).

Definition comesAfter (x y : A) : bool :=
  match cmp x y with Some v => 0 <? v | None => false end.

Fixpoint insertSorted (x : A) (l : list A) : list A :=
  match l with
  | [] => [x]
  | y :: l' => if comesAfter x y then y :: insertSorted x l' else x :: l
  end.

Definition stableSort (l : list A) : list A := foldr insertSorted [] l.
End StableSort.

(* ===================================================================== *)
(** ** [src/planning-logic.js]                                            *)
(* ===================================================================== *)

(** The two ways [repartitionAutomatique] returns: after the warning that
    the current week was not found, or at the end of its body. *)
Inductive Outcome := NoCurrentWeek | Completed.

(** The globals the function reads and writes. *)
Record State := mkState {
  chantiers : list Chantier;   (* Object.values(chantiers) *)
  data : Data
}.

(** [stored ? (typeof stored === 'object' ? stored.minutes : stored) : 0];
    a stored number 0 is falsy and also yields 0. *)
Definition storedMinutes (stored : option Stored) : Z :=
  match stored with
  | Some (StoredObject minutes _) => minutes
  | Some (StoredNumber n) => n
  | None => 0
  end.

(** [ch.planification[key] = (ch.planification[key] || 0) + toPlan] *)
Definition addPlan (key : string) (toPlan : Z) (ch : Chantier) : Chantier :=
  set_planification (Some (<[key := getPlan ch key + toPlan]> (planifOf ch))) ch.

(** [c.planification[key] || 0] through the reference [c]. *)
Definition getPlanAt (st : list Chantier) (c : nat) (key : string) : Z :=
  match st !! c with Some ch => getPlan ch key | None => 0 end.

Section PlanningLogic.
Variable tz : Z.
Variable weeks : list Week.

(** [weeks.forEach((w, idx) => { weekMap[key] = { week: w, idx } })]:
    a later week with the same key overwrites an earlier one. *)
Fixpoint weekMapFrom (idx : nat) (ws : list Week)
         (weekMap : gmap string (Week * nat)) : gmap string (Week * nat) :=
  match ws with
  | [] => weekMap
  | w :: ws' => weekMapFrom (S idx) ws' (<[weekKey tz w := (w, idx)]> weekMap)
  end.

Definition weekMap : gmap string (Week * nat) := weekMapFrom 0 weeks ∅.

(** [nowUTC] and [nowFixed]: the local wall clock read as UTC, moved back
    one day on a Sunday. *)
Definition nowFixed (now : Z) : Z :=
  let nowUTC := JSDate.UTC (JSDate.getFullYear tz now) (JSDate.getMonth tz now)
                           (JSDate.getDate tz now) (JSDate.getHours tz now)
                           (JSDate.getMinutes tz now) in
  if JSDate.getUTCDay nowUTC =? 0
  then JSDate.setUTCDate nowUTC (JSDate.getUTCDate nowUTC - 1)
  else nowUTC.

(** [weeks.findIndex(w => w.start <= nowFixed && w.end >= nowFixed)];
    [None] is -1. *)
Definition currentWeekIdx (now : Z) : option nat :=
  fst <$> list_find (λ w, w_start w ≤ nowFixed now ∧ nowFixed now ≤ w_end w) weeks.

Section Pass.
Variable currentWeekIdx : nat.

(** [weekMap[key] && weekMap[key].idx >= currentWeekIdx] *)
Definition isFutureKey (key : string) : bool :=
  match weekMap !! key with
  | Some (_, idx) => bool_decide (currentWeekIdx ≤ idx)%nat
  | None => false
  end.

(** [weekMap[key] && weekMap[key].idx < currentWeekIdx] *)
Definition isPastKey (key : string) : bool :=
  match weekMap !! key with
  | Some (_, idx) => bool_decide (idx < currentWeekIdx)%nat
  | None => false
  end.

(** Step 4.5: deprogramming of a job that is not active. *)
Definition deprogram (ch : Chantier) : Chantier :=
  if negb (isActive ch) then
    match planification ch with
    | Some p =>
        set_planification
          (Some (filter (λ kv, isFutureKey kv.1 = false) p)) ch
    | None => ch
    end
  else ch.

(** [dispoParSemaine], filled for every key of [weekMap]. *)
Definition dispoParSemaine (data : Data) (name : string) : gmap string Z :=
  map_imap (λ key _, Some (storedMinutes (dataGet data name ≫= (.!! key)))) weekMap.

(** [ch.preparateur === name && active] *)
Definition isSelected (name : string) (ch : Chantier) : bool :=
  bool_decide (preparateur ch = Some name) && isActive ch.

Definition selectedAt (st : list Chantier) (name : string) (i : nat) : bool :=
  match st !! i with Some ch => isSelected name ch | None => false end.

Definition compareAt (st : list Chantier) (a b : nat) : option Z :=
  match st !! a, st !! b with
  | Some ca, Some cb => compareEndDate tz ca cb
  | _, _ => None
  end.

(** [chantierList]: references to the selected jobs, earliest deadline
    first. *)
Definition chantierList (st : list Chantier) (name : string) : list nat :=
  stableSort (compareAt st)
    (filter (λ i, selectedAt st name i = true) (seq 0 (length st))).

(** First [chantierList.forEach]: keep the past part of the plan. *)
Definition resetJob (ch : Chantier) : Chantier :=
  let oldPlanif := planifOf ch in
  let pastPlanif := filter (λ kv, isPastKey kv.1 = true) oldPlanif in
  let done := sumValues pastPlanif in
  set_ChargeRestante (Some (Z.max 0 (prepTime ch - done)))
    (set_planification (Some pastPlanif) ch).

Definition resetAll (L : list nat) (st : list Chantier) : list Chantier :=
  foldl (λ st i, alter resetJob i st) st L.

(** Body of [planWeeks.forEach(w => ...)] for the job at reference [i];
    the accumulator is the job store and [remainingToPlan]. *)
Definition planWeek (dispo_map : gmap string Z) (L : list nat) (i : nat)
           (acc : list Chantier * Z) (w : Week) : list Chantier * Z :=
  let '(st, remainingToPlan) := acc in
  if remainingToPlan <=? 0 then acc
  else
    let key := weekKey tz w in
    let dispo := default 0 (dispo_map !! key) in
    let already := foldl (λ s c, s + getPlanAt st c key) 0 L in
    let free := Z.max 0 (dispo - already) in
    let toPlan := Z.min remainingToPlan free in
    if 0 <? toPlan
    then (alter (addPlan key toPlan) i st, remainingToPlan - toPlan)
    else acc.

(** Body of the second [chantierList.forEach(ch => ...)]. *)
Definition planJob (dispo_map : gmap string Z) (L : list nat)
           (st : list Chantier) (i : nat) : list Chantier :=
  match st !! i with
  | Some ch =>
      let remainingToPlan := prepTime ch - sumValues (planifOf ch) in
      (foldl (planWeek dispo_map L i) (st, remainingToPlan)
             (drop currentWeekIdx weeks)).1
  | None => st
  end.

Definition planAll (dispo_map : gmap string Z) (L : list nat)
           (st : list Chantier) : list Chantier :=
  foldl (planJob dispo_map L) st L.

(** Body of [Object.keys(data).forEach((name) => ...)]. *)
Definition processResource (data : Data) (st : list Chantier)
           (name : string) : list Chantier :=
  let L := chantierList st name in
  match L with
  | [] => st
  | _ => planAll (dispoParSemaine data name) L (resetAll L st)
  end.
End Pass.

(** The whole function, for the value [now] of [new Date()].  The source
    also computes [currentWeekKey], which nothing reads afterwards. *)
Definition repartitionAutomatique (now : Z) (s : State) : Outcome * State :=
  match currentWeekIdx now with
  | None => (NoCurrentWeek, s)
  | Some cur =>
      let st1 := deprogram cur <$> chantiers s in
      let st2 := foldl (processResource cur (data s)) st1 (fst <$> data s) in
      let st3 := set_tempsRestant None <$> st2 in
      (Completed, mkState st3 (data s))
  end.

End PlanningLogic.

(* ===================================================================== *)
(** ** [src/planning-display.js]: margins, tensions and badges            *)
(* ===================================================================== *)

(** [k.split('-W')] *)
Fixpoint splitDashW (s : string) : list string :=
  match s with
  | EmptyString => [EmptyString]
  | String c rest =>
      match rest with
      | String c' rest' =>
          if Ascii.eqb c "-"%char && Ascii.eqb c' "W"%char
          then EmptyString :: splitDashW rest'
          else match splitDashW rest with
               | [] => [String c EmptyString]
               | hd :: tl => String c hd :: tl
               end
      | EmptyString => [String c EmptyString]
      end
  end.

Fixpoint leadingDigits (s : string) : string :=
  match s with
  | EmptyString => EmptyString
  | String c rest =>
      match digitValue c with
      | Some _ => String c (leadingDigits rest)
      | None => EmptyString
      end
  end.

(** [parseInt(s)] on the pieces of a week key: the value of the leading
    decimal digits, [NaN] ([None]) when there is none or [s] is undefined. *)
Definition parseInt (s : option string) : option Z :=
  match leadingDigits <$> s with
  | Some (String c ds) => digitsValue 0 (String c ds)
  | _ => None
  end.

Definition isDigits (n : nat) (s : string) : bool :=
  bool_decide (String.length s = n) && bool_decide (is_Some (digitsValue 0 s)).

(** [new Date(`${y}-${m}-${d}`)] on the date-only ISO form, which is read
    as UTC midnight.  Every other shape is left to the implementation by
    ECMA-262; it is an invalid date here. *)
Definition newDateISO (y m d : string) : option Z :=
  if isDigits 4 y && isDigits 2 m && isDigits 2 d then
    yy ← Number y; mm ← Number m; dd ← Number d;
    if (1 <=? mm) && (mm <=? 12) && (1 <=? dd) &&
       (JSDate.MakeDay yy mm 1 - JSDate.MakeDay yy (mm - 1) 1 >=? dd)
    then Some (JSDate.MakeDay yy (mm - 1) dd * JSDate.msPerDay)
    else None
  else None.

(** [a / b] on numbers, as an exact rational in lowest terms. *)
Definition divQ (a b : Z) : Q := Qred (inject_Z a / inject_Z b)%Q.

Definition Qltb (a b : Q) : bool :=
  match (a ?= b)%Q with Lt => true | _ => false end.

(** [Math.round(x * 2) / 2]; [Math.round] takes ties upward. *)
Definition roundHalf (x : Q) : Q :=
  Qred (inject_Z (Qfloor (x * 2 + (1 # 2))%Q) / 2)%Q.

(** A number that may still be the [Infinity] a minimum starts from. *)
Inductive Num := Fin (q : Q) | Infinity.

(** The [badge] property: not yet written, [null], or a number. *)
Inductive Badge := BadgeUndefined | BadgeNull | BadgeValue (q : Q).

(** A record of [margesGlobales[name]]; [Tdisp] is absent until the second
    pass writes it. *)
Record Calc := mkCalc {
  dispo : Q;
  C : Q;
  CA : Q;
  M : Q;
  Tdisp : option Num;
  badge : Badge
}.

Definition set_Tdisp (v : Num) (c : Calc) : Calc :=
  mkCalc (dispo c) (C c) (CA c) (M c) (Some v) (badge c).

Definition set_badge (b : Badge) (c : Calc) : Calc :=
  mkCalc (dispo c) (C c) (CA c) (M c) (Tdisp c) b.

Section PlanningDisplay.
Variable tz : Z.
Variable weeks : list Week.

(** [nowId], from the page-load value of [now]. *)
Definition nowId (now : Z) : string :=
  "S" +:+ pretty (getWeek tz now) +:+ "/" +:+ pretty (JSDate.getFullYear tz now).

(** [weeks.findIndex(w => w.id === nowId)] *)
Definition currentIndex (now : Z) : option nat :=
  fst <$> list_find (λ w, w_id w = nowId now) weeks.

Section Margins.
Variables (currentWeekNumber currentYear : Z).

(** [Object.keys(ch.planification).some(k => ...)] *)
Definition plannedThisOrLater (ch : Chantier) : bool :=
  match planification ch with
  | Some p =>
      existsb (λ k,
        let parts := splitDashW k in
        match parseInt (parts !! 0%nat), parseInt (parts !! 1%nat) with
        | Some y, Some w =>
            (currentYear <? y) || ((y =? currentYear) && (currentWeekNumber <=? w))
        | _, _ => false
        end) (map_to_list p).*1
  | None => false
  end.

(** The condition under which [ch.prepTime] is added to the charge of
    week [w]. *)
Definition countsFor (w : Week) (ch : Chantier) : bool :=
  match splitSlash (endDate ch) with
  | d :: m :: y :: _ =>
      match newDateISO y m d with
      | Some dateEch =>
          let echWeek := getWeek tz dateEch in
          let echYear := JSDate.getFullYear tz dateEch in
          let isCurrent :=
            (getWeek tz (w_start w) =? currentWeekNumber) &&
            (JSDate.getFullYear tz (w_start w) =? currentYear) in
          let isPastEcheance :=
            (echYear <? currentYear) ||
            ((echYear =? currentYear) && (echWeek <? currentWeekNumber)) in
          ((echWeek =? getWeek tz (w_start w)) &&
           (echYear =? JSDate.getFullYear tz (w_start w)))
          || (isCurrent && isPastEcheance && plannedThisOrLater ch)
      | None => false
      end
  | _ => false
  end.

(** [chargeEcheance] of week [w] for resource [name], in minutes. *)
Definition chargeEcheance (chantiers : list Chantier) (name : string)
           (w : Week) : Z :=
  foldl (λ charge ch,
           if isSelected name ch && countsFor w ch
           then charge + prepTime ch else charge)
        0 chantiers.

(** [mins] of the projection: [stored.minutes || 0] for an object, the
    number itself for a number. *)
Definition storedMins (stored : option Stored) : Z :=
  match stored with
  | Some (StoredObject minutes _) => minutes
  | Some (StoredNumber n) => n
  | None => 0
  end.

(** Body of the first loop: one week of the margin cascade. *)
Definition margeStep (chantiers : list Chantier) (name : string)
           (avail : gmap string Stored)
           (acc : gmap string Calc * Q) (w : Week) : gmap string Calc * Q :=
  let '(marges, margePrec) := acc in
  let key := weekKey tz w in
  let dispoH := divQ (storedMins (avail !! key)) 60 in
  let c := divQ (chargeEcheance chantiers name w) 60 in
  let ca := Qred (dispoH + margePrec)%Q in
  let m := Qred (ca - c)%Q in
  (<[key := mkCalc dispoH c ca m None BadgeUndefined]> marges, m).
End Margins.

(** [keys]: the week keys from the current index on. *)
Definition projectedKeys (currentIndex : nat) : list string :=
  weekKey tz <$> drop currentIndex weeks.

(** First pass for one resource; [None] is the [TypeError] raised when
    [weeks[currentIndex]] or [data[name]] is undefined. *)
Definition margesPass (s : State) (currentIndex : nat) (name : string)
  : option (gmap string Calc) :=
  currentWeek ← weeks !! currentIndex;
  avail ← dataGet (data s) name;
  let currentWeekNumber := getWeek tz (w_start currentWeek) in
  let currentYear := JSDate.getFullYear tz (w_start currentWeek) in
  Some (foldl (margeStep currentWeekNumber currentYear (chantiers s) name avail)
              (∅, 0%Q) (drop currentIndex weeks)).1.

(** The inner [for] of the second pass: the minimum of [M] over
    [keys[idx .. min(idx + 16, keys.length) - 1]]; [None] is the
    [TypeError] of reading [M] of a missing record. *)
Definition minStep (marges : gmap string Calc) (keys : list string)
           (acc : option Num) (j : nat) : option Num :=
  minM ← acc;
  key ← keys !! j;
  calc ← marges !! key;
  let m := M calc in
  Some (match minM with
        | Infinity => Fin m
        | Fin q => if Qltb m q then Fin m else minM
        end).

Definition windowMin (marges : gmap string Calc) (keys : list string)
           (idx : nat) : option Num :=
  foldl (minStep marges keys) (Some Infinity)
        (seq idx (Nat.min (idx + 16) (length keys) - idx)).

(** Body of [keys.forEach((weekKey, idx) => ...)] of the second pass. *)
Definition tdispStep (keys : list string)
           (acc : option (gmap string Calc)) (idx : nat)
  : option (gmap string Calc) :=
  marges ← acc;
  weekKey ← keys !! idx;
  minM ← windowMin marges keys idx;
  _ ← marges !! weekKey;
  Some (alter (set_Tdisp minM) weekKey marges).

Definition tdispPass (keys : list string) (marges : gmap string Calc)
  : option (gmap string Calc) :=
  foldl (tdispStep keys) (Some marges) (seq 0 (length keys)).

(** Body of the third pass for one record: the badge and the next
    [lastTdisp] ([None] is [null]).  The result is [None] when [Tdisp] is
    not a finite number, which the second pass never leaves behind. *)
Definition badgeOf (calc : Calc) (lastTdisp : option Q) : option (Badge * option Q) :=
  if Qltb 0%Q (dispo calc) then
    match Tdisp calc with
    | Some (Fin raw) =>
        let badge :=
          match lastTdisp with
          | None => BadgeValue (roundHalf raw)
          | Some last =>
              if negb (Qeq_bool raw last) then
                let diff := if Qltb 0%Q last then Qred (raw - last)%Q else raw in
                BadgeValue (roundHalf diff)
              else BadgeNull
          end in
        Some (badge, Some raw)
    | _ => None
    end
  else Some (BadgeNull, lastTdisp).

Definition badgeStep (acc : option (gmap string Calc * option Q)) (weekKey : string)
  : option (gmap string Calc * option Q) :=
  '(marges, lastTdisp) ← acc;
  calc ← marges !! weekKey;
  '(badge, lastTdisp') ← badgeOf calc lastTdisp;
  Some (alter (set_badge badge) weekKey marges, lastTdisp').

Definition badgePass (keys : list string) (marges : gmap string Calc)
  : option (gmap string Calc) :=
  fst <$> foldl badgeStep (Some (marges, None)) keys.

(** [margesGlobales[name]] after the three passes. *)
Definition margesGlobales (s : State) (currentIndex : nat) (name : string)
  : option (gmap string Calc) :=
  marges ← margesPass s currentIndex name;
  marges ← tdispPass (projectedKeys currentIndex) marges;
  badgePass (projectedKeys currentIndex) marges.

End PlanningDisplay.

(* ===================================================================== *)
(** ** Vocabulary of the properties                                       *)
(* ===================================================================== *)

Fixpoint sumZ (l : list Z) : Z :=
  match l with [] => 0 | x :: l' => x + sumZ l' end.

(** Availability of a resource for a week key, in minutes, as
    [repartitionAutomatique] reads it. *)
Definition availability (data : Data) (name key : string) : Z :=
  storedMinutes (dataGet data name ≫= (.!! key)).

(** Minutes that the active jobs of a resource hold at a week key. *)
Definition allocated (st : list Chantier) (name key : string) : Z :=
  sumZ ((λ ch, getPlan ch key) <$> filter (λ ch, isSelected name ch = true) st).

(** The week keys from the current week to the end of the calendar, each
    once. *)
Definition futureKeys (tz : Z) (weeks : list Week) (cur : nat) : list string :=
  remove_dups (weekKey tz <$> drop cur weeks).

(** Sum of the entries of a job's plan at the weeks from the current one
    on, and at the weeks before it. *)
Definition futureSum (tz : Z) (weeks : list Week) (cur : nat) (ch : Chantier) : Z :=
  sumValues (filter (λ kv, isFutureKey tz weeks cur kv.1 = true) (planifOf ch)).

Definition pastSum (tz : Z) (weeks : list Week) (cur : nat) (ch : Chantier) : Z :=
  sumValues (filter (λ kv, isPastKey tz weeks cur kv.1 = true) (planifOf ch)).

(** What the past entries leave of [prepTime], never less than nothing. *)
Definition remainder (tz : Z) (weeks : list Week) (cur : nat) (ch : Chantier) : Z :=
  Z.max 0 (prepTime ch - pastSum tz weeks cur ch).

(** Capacity of a resource, from the current week to the end of the
    calendar, that its other active jobs leave free for the job [ch]. *)
Definition freeCapacity (tz : Z) (weeks : list Week) (cur : nat) (data : Data)
           (st : list Chantier) (name : string) (ch : Chantier) : Z :=
  sumZ ((λ key, Z.max 0 (availability data name key
                         - (allocated st name key - getPlan ch key)))
        <$> futureKeys tz weeks cur).

(** The fields no step of the reallocation writes. *)
Definition sameFixed (a b : Chantier) : Prop :=
  ch_id a = ch_id b ∧ label a = label b ∧ status a = status b ∧
  prepTime a = prepTime b ∧ endDate a = endDate b ∧ preparateur a = preparateur b.

(** Same record up to the plan and [ChargeRestante]. *)
Definition sameOwner (a b : Chantier) : Prop :=
  sameFixed a b ∧ tempsRestant a = tempsRestant b.

(** What planning may do to a record: add minutes at future keys. *)
Definition planEvolves (tz : Z) (weeks : list Week) (cur : nat) (a b : Chantier) : Prop :=
  sameFixed a b ∧ ChargeRestante a = ChargeRestante b ∧
  tempsRestant a = tempsRestant b ∧
  (∀ k, isFutureKey tz weeks cur k = false → planifOf b !! k = planifOf a !! k) ∧
  (∀ k, getPlan a k ≤ getPlan b k) ∧
  (is_Some (planification a) → is_Some (planification b)).

(** [already] of the source, for the references [L], the store [st] and the
    key [k]. *)
Definition total (L : list nat) (st : list Chantier) (k : string) : Z :=
  foldl (λ s c, s + getPlanAt st c k) 0 L.

(** No future week holds more than its availability (or than nothing,
    when the availability is negative). *)
Definition withinCapacity (tz : Z) (weeks : list Week) (cur : nat)
           (dispo_map : gmap string Z) (L : list nat) (st : list Chantier) : Prop :=
  ∀ k, isFutureKey tz weeks cur k = true →
       total L st k ≤ Z.max 0 (default 0 (dispo_map !! k)).

(** Every week of the walk is used up. *)
Definition saturated (tz : Z) (dispo_map : gmap string Z) (L : list nat)
           (ws : list Week) (st : list Chantier) : Prop :=
  ∀ w, w ∈ ws → default 0 (dispo_map !! weekKey tz w) ≤ total L st (weekKey tz w).

(** What the planning of one job leaves behind. *)
Definition jobPlanned (tz : Z) (weeks : list Week) (cur : nat)
           (dispo_map : gmap string Z) (L : list nat)
           (st' : list Chantier) (ch ch' : Chantier) : Prop :=
  let r0 := prepTime ch - sumValues (planifOf ch) in
  ∃ rf, futureSum tz weeks cur ch' + rf = futureSum tz weeks cur ch + r0 ∧ rf ≤ r0 ∧
        (r0 ≤ 0 → rf = r0) ∧ (0 < r0 → 0 ≤ rf) ∧
        (0 < rf → saturated tz dispo_map L (drop cur weeks) st').

(** [st'] is [st] changed by [g] on the jobs of [L]. *)
Definition related (g : Chantier → Chantier) (L : list nat)
           (st st' : list Chantier) : Prop :=
  length st = length st' ∧ ∀ i, i ∈ L → st' !! i = g <$> st !! i.

(** Stores that agree on the plans of the jobs of [L]. *)
Definition samePlanOn (L : list nat) (st st' : list Chantier) : Prop :=
  Forall2 sameFixed st st' ∧
  ∀ i, i ∈ L → planification <$> st' !! i = planification <$> st !! i.

(** The state of the jobs of [name] once its pass is over. *)
Definition resourceOK (tz : Z) (weeks : list Week) (cur : nat) (data : Data)
           (name : string) (st : list Chantier) : Prop :=
  let L := chantierList tz st name in
  let d := dispoParSemaine tz weeks data name in
  withinCapacity tz weeks cur d L st ∧
  ∀ i ch, i ∈ L → st !! i = Some ch →
    (∀ k, isFutureKey tz weeks cur k = true → 0 ≤ getPlan ch k) ∧
    futureSum tz weeks cur ch ≤ remainder tz weeks cur ch ∧
    (futureSum tz weeks cur ch < remainder tz weeks cur ch →
     saturated tz d L (drop cur weeks) st).

(** The body of a run that found the current week. *)
Definition runBody (tz : Z) (weeks : list Week) (cur : nat) (data : Data)
           (st : list Chantier) : list Chantier :=
  set_tempsRestant None
    <$> foldl (processResource tz weeks cur data) (deprogram tz weeks cur <$> st)
              (fst <$> data).

(** The four margin fields of a record. *)
Definition margins (c : Calc) : Q * Q * Q * Q := (dispo c, C c, CA c, M c).

(** [r] is at most the number [q]. *)
Definition numLeQ (r : Num) (q : Q) : Prop :=
  match r with Fin t => (t <= q)%Q | Infinity => False end.

(** [r] is at most [acc], where [Infinity] is above every number. *)
Definition numLe (r acc : Num) : Prop :=
  match acc with Infinity => True | Fin q => numLeQ r q end.

(** [t] is the least [M] of the weeks [k .. k + 15] that the calendar
    holds: below each of them, and one of them. *)
Definition windowMinimum (marges : gmap string Calc) (keys : list string)
           (k : nat) (t : Q) : Prop :=
  (∀ j kj cj, (k ≤ j < k + 16)%nat → keys !! j = Some kj →
              marges !! kj = Some cj → (t <= M cj)%Q) ∧
  (∃ j kj cj, (k ≤ j < k + 16)%nat ∧ keys !! j = Some kj ∧
              marges !! kj = Some cj ∧ t = M cj).

(** ISO 8601, in the words of the specification: a week belongs to the
    year that contains its Thursday, and week 1 is the week that contains
    the year's first Thursday. *)
Definition isoThursday (t : Z) : Z :=
  let fromMonday := (JSDate.WeekDay t + 6) mod 7 in
  JSDate.Day t + 3 - fromMonday.

Definition isoWeekOf (t : Z) : Z * Z :=
  let year := (JSDate.civil (isoThursday t)).1.1 in
  (year, (isoThursday t - JSDate.DayFromYear year) / 7 + 1).

(** A year has 53 ISO weeks when it starts on a Thursday, or on a
    Wednesday and is a leap year; 52 otherwise. *)
Definition isoWeeksOf (y : Z) : Z :=
  let jan1 := JSDate.WeekDay (JSDate.DayFromYear y * JSDate.msPerDay) in
  if (jan1 =? 4) || ((jan1 =? 3) && JSDate.InLeapYear y) then 53 else 52.

(** The weeks a calendar of the years 2024 to 2028 must hold, in order:
    identifier, then ISO year and week number. *)
Definition expectedWeeks : list (string * (Z * Z)) :=
  concat ((λ y, (λ n, ("S" +:+ pretty n +:+ "/" +:+ pretty y, (y, n)))
                <$> seqZ 1 (isoWeeksOf y)) <$> seqZ 2024 5).

(** The properties of the calendar that are checked by evaluation. *)
Definition calendarChecked (ws : list Week) : Prop :=
  (λ w, (w_id w, isoWeekOf (w_start w))) <$> ws = expectedWeeks ∧
  Forall (λ w, JSDate.getUTCDay (w_start w) = 1 ∧ JSDate.TimeWithinDay (w_start w) = 0) ws ∧
  Forall (λ w, w_end w = w_start w + 6 * JSDate.msPerDay) ws ∧
  Forall (λ p, w_start p.2 = w_end p.1 + JSDate.msPerDay) (zip ws (drop 1 ws)).

(* --------------------------------------------------------------------- *)
(** *** A worked planning                                                 *)

(** Wednesday 5 March 2025, 10:30 in a host at UTC+1: week 10 of 2025,
    index 61 of the calendar. *)
Definition hostOffset : Z := 60.
Definition anchor : Z := JSDate.UTC 2025 2 5 9 30.
Definition calendar : list Week := weeks hostOffset.

Definition week10 : string := "2025-W10-1".
Definition week11 : string := "2025-W11-1".
Definition week12 : string := "2025-W12-1".

(** Resource "A": 2400 minutes in each of the three weeks from the current
    one, in both stored shapes. *)
Definition availabilityA : Data :=
  [("A", <[week10 := StoredObject 2400 "2025-03-01T08:00:00.000Z"]>
           (<[week11 := StoredObject 2400 "2025-03-01T08:00:00.000Z"]>
              (<[week12 := StoredNumber 2400]> ∅)))].

Definition bigJob (deadline : string) (plan : option (gmap string Z)) : Chantier :=
  mkChantier "CH-1" "Poste source" "Nouveau" 5000 deadline (Some "A") plan None None.


Definition smallJob : Chantier :=
  mkChantier "CH-2" "Depart HTA" "Prépa. en cours" 3000 "12/03/2025" (Some "A")
    (Some (<["2025-W08-1" := 120]> (<[week12 := 45]> ∅))) None (Some 7).

Definition smallJobPlanned : Chantier :=
  mkChantier "CH-2" "Depart HTA" "Prépa. en cours" 3000 "12/03/2025" (Some "A")
    (Some (<["2025-W08-1" := 120]> (<[week10 := 2400]> (<[week11 := 480]> ∅))))
    (Some 2880) None.

Definition cancelledJob : Chantier :=
  mkChantier "CH-3" "Transfo" "Annulé" 600 "02/04/2025" (Some "A")
    (Some (<["2025-W08-1" := 60]> (<[week11 := 300]> ∅))) None None.

Definition threeJobs : State :=
  mkState [bigJob "19/03/2025" None; smallJob; cancelledJob] availabilityA.

(** A week without availability between two weeks that have some, and a
    heavy deadline sixteen weeks ahead. *)
Definition idleWeekState : State :=
  mkState
    [mkChantier "CH-9" "Ligne" "Nouveau" 6000 "25/06/2025" (Some "A") None None None]
    [("A", <[week10 := StoredObject 600 "2025-03-01T08:00:00.000Z"]>
             (<[week12 := StoredNumber 600]> ∅))].

(* ===================================================================== *)
(** ** Strings of the forms and of the job store                          *)
(* ===================================================================== *)

(** A JavaScript string is kept as the bytes of its UTF-8 encoding; the
    operations below cut a string only where a character starts. *)

Definition charCode (c : ascii) : Z := Z.of_N (Ascii.N_of_ascii c).

(** The white space and line terminators of ECMA-262, which [trim] strips
    and [\s] matches: U+0009 to U+000D, U+0020, U+00A0, U+1680, U+2000 to
    U+200A, U+2028, U+2029, U+202F, U+205F, U+3000 and U+FEFF, each as
    the bytes of its encoding. *)
Definition whiteSpaces : list (list Z) :=
  [ [9]; [10]; [11]; [12]; [13]; [32]; [194; 160]; [225; 154; 128];
    [226; 128; 128]; [226; 128; 129]; [226; 128; 130]; [226; 128; 131];
    [226; 128; 132]; [226; 128; 133]; [226; 128; 134]; [226; 128; 135];
    [226; 128; 136]; [226; 128; 137]; [226; 128; 138];
    [226; 128; 168]; [226; 128; 169]; [226; 128; 175]; [226; 129; 159];
    [227; 128; 128]; [239; 187; 191] ].

(** [s] without the leading bytes [p], when it starts with them. *)
Fixpoint stripBytes (p : list Z) (s : string) : option string :=
  match p, s with
  | [], _ => Some s
  | b :: p', String c r => if charCode c =? b then stripBytes p' r else None
  | _ :: _, EmptyString => None
  end.

(** What follows the first character of [s], when that character is white
    space. *)
Definition skipSpace (s : string) : option string :=
  foldr (λ p found, match stripBytes p s with Some r => Some r | None => found end)
        None whiteSpaces.

Fixpoint trimStartFrom (n : nat) (s : string) : string :=
  match n with
  | O => s
  | S n' => match skipSpace s with Some r => trimStartFrom n' r | None => s end
  end.

Definition trimStart (s : string) : string := trimStartFrom (String.length s) s.

Fixpoint trimEnd (s : string) : string :=
  match s with
  | EmptyString => EmptyString
  | String c r =>
      if bool_decide (trimStart s = EmptyString) then EmptyString
      else String c (trimEnd r)
  end.

(** [s.trim()] *)
Definition trim (s : string) : string := trimEnd (trimStart s).







(* ===================================================================== *)
(** ** Objects used as dictionaries, and the globals of [src/main.js]     *)
(* ===================================================================== *)

(** An object whose key order matters is the list of its entries in
    [Object.keys] order: the keys that are array indices first, in
    ascending order, then the other keys in the order of their creation. *)

(** The array index that a key is: a canonical decimal numeral below
    2^32 - 1. *)
Definition arrayIndex (k : string) : option Z :=
  match k with
  | EmptyString => None
  | String c r =>
      if (charCode c =? 48) && negb (bool_decide (r = EmptyString)) then None
      else
        match digitsValue 0 k with
        | Some n => if n <? 4294967295 then Some n else None
        | None => None
        end
  end.

Section Objects.
Context {V : Type}.

(** [o[k]] *)
Fixpoint objGet (o : list (string * V)) (k : string) : option V :=
  match o with
  | [] => None
  | (k', v) :: rest => if decide (k' = k) then Some v else objGet rest k
  end.

(** [o[k] = v] when [o] has the key [k]: the entry keeps its place. *)
Fixpoint objReplace (k : string) (v : V) (o : list (string * V)) : list (string * V) :=
  match o with
  | [] => []
  | (k', v') :: rest =>
      if decide (k' = k) then (k, v) :: rest else (k', v') :: objReplace k v rest
  end.

(** [o[k] = v] for a new key that is the array index [n]. *)
Fixpoint objInsertIndex (n : Z) (k : string) (v : V) (o : list (string * V))
  : list (string * V) :=
  match o with
  | [] => [(k, v)]
  | (k', v') :: rest =>
      match arrayIndex k' with
      | Some n' =>
          if n' <? n then (k', v') :: objInsertIndex n k v rest
          else (k, v) :: o
      | None => (k, v) :: o
      end
  end.

(** [o[k] = v] *)
Definition objSet (k : string) (v : V) (o : list (string * V)) : list (string * V) :=
  match objGet o k with
  | Some _ => objReplace k v o
  | None =>
      match arrayIndex k with
      | Some n => objInsertIndex n k v o
      | None => o ++ [(k, v)]
      end
  end.

(** [delete o[k]] *)
Definition objDelete (k : string) (o : list (string * V)) : list (string * V) :=
  filter (λ kv, kv.1 ≠ k) o.
End Objects.

(** The names of the properties that every object inherits from
    [Object.prototype].  On an object that has no property of its own
    under such a name, [o[k]] reads the inherited value: a function, or
    the prototype itself for [__proto__], all of which count as true in a
    condition. *)
Definition inheritedNames : list string :=
  ["constructor"; "__defineGetter__"; "__defineSetter__"; "hasOwnProperty";
   "__lookupGetter__"; "__lookupSetter__"; "isPrototypeOf"; "propertyIsEnumerable";
   "toString"; "valueOf"; "__proto__"; "toLocaleString"].

Definition inherited (k : string) : bool := bool_decide (k ∈ inheritedNames).

(** [data], [preparateursMeta] and [chantiers] of [src/main.js]; the job
    store with its keys. *)
Record Globals := mkGlobals {
  g_data : Data;
  g_preparateursMeta : list (string * string);
  g_chantiers : list (string * Chantier)
}.

Definition set_g_data (d : Data) (g : Globals) : Globals :=
  mkGlobals d (g_preparateursMeta g) (g_chantiers g).

Definition set_g_chantiers (c : list (string * Chantier)) (g : Globals) : Globals :=
  mkGlobals (g_data g) (g_preparateursMeta g) c.

(** A call of [repartitionAutomatique()] on the globals: the job objects
    are written in place, under their keys. *)
Definition reallocate (tz : Z) (weeks : list Week) (now : Z) (g : Globals) : Globals :=
  let s := mkState (g_chantiers g).*2 (g_data g) in
  let s' := (repartitionAutomatique tz weeks now s).2 in
  mkGlobals (data s') (g_preparateursMeta g) (zip (g_chantiers g).*1 (chantiers s')).

(* ===================================================================== *)
(** ** [src/availability.js]                                              *)
(* ===================================================================== *)

(** The handler of the button "Enregistrer", after [JSON.parse] has
    accepted the text.  [parsed] is the list of the entries of the parsed
    object, of the shape that the form asks for: NNI -> (week key ->
    minutes).  [nowIso] is [new Date().toISOString()]. *)

(** [Object.entries(weeksMap).forEach(([weekKey, minutes]) => ...)] *)
Definition saveWeeks (nowIso : string) (weeksMap : list (string * Z))
           (record : gmap string Stored) : gmap string Stored :=
  foldl (λ r wm, <[wm.1 := StoredObject wm.2 nowIso]> r) record weeksMap.

(** Body of [names.forEach(name => ...)] *)
Definition saveName (nowIso : string) (weeksMap : list (string * Z))
           (data : Data) (name : string) : Data :=
  let data := match dataGet data name with
              | Some _ => data
              | None => objSet name ∅ data
              end in
  match dataGet data name with
  | Some record => objSet name (saveWeeks nowIso weeksMap record) data
  | None => data
  end.

(** [Object.keys(preparateursMeta).filter(n => preparateursMeta[n] === nni)] *)
Definition namesOfNNI (meta : list (string * string)) (nni : string) : list string :=
  filter (λ n, objGet meta n = Some nni) meta.*1.

(** Body of [Object.entries(parsed).forEach(([nni, weeksMap]) => ...)] *)
Definition saveEntry (nowIso : string) (meta : list (string * string))
           (data : Data) (entry : string * list (string * Z)) : Data :=
  foldl (saveName nowIso entry.2) data (namesOfNNI meta entry.1).

Definition saveAvailability (nowIso : string)
           (parsed : list (string * list (string * Z))) (g : Globals) : Globals :=
  set_g_data (foldl (saveEntry nowIso (g_preparateursMeta g)) (g_data g) parsed) g.

(* ===================================================================== *)
(** ** [src/chantiers.js]                                                 *)
(* ===================================================================== *)




(** The import of [openBulkChantiersInterface]. *)
Section BulkImport.
Variable raw : list string.     (* ta.value.split(/\r?\n/) *)
Variable prep : string.





End BulkImport.

(** [preparateursMeta[prep]] read as a condition: the NNI of [prep] when
    it is not empty, or what the table inherits under the name [prep]. *)
Definition knownNNI (meta : list (string * string)) (prep : string) : bool :=
  match objGet meta prep with
  | Some (String _ _) => true
  | Some EmptyString => false
  | None => inherited prep
  end.


(* ===================================================================== *)
(** ** [src/calendar.js] and the navigation globals of [src/time-utils.js] *)
(* ===================================================================== *)

Definition WINDOW_SIZE : Z := 10.

(** [selectedWeek] at page load: [weeks.findIndex(w => w.id === nowId)],
    or 0 when that is negative. *)
Definition selectedWeekInit (tz : Z) (weeks : list Week) (now : Z) : nat :=
  default 0%nat (currentIndex tz weeks now).

(** [selectWeek(wk)]: the next value of [selectedWeek]. *)
Definition selectWeek (weeks : list Week) (wk : Week) (selectedWeek : nat) : nat :=
  match list_find (λ w, w_id w = w_id wk) weeks with
  | Some (idx, _) => idx
  | None => selectedWeek
  end.

(** [s.substring(1)]: [s] without its first UTF-16 code unit.  A character
    outside the basic plane loses only its first half, which leaves a
    string that is not a numeral either way. *)
Definition substring1 (s : string) : string :=
  match s with
  | EmptyString => EmptyString
  | String c r =>
      let b := charCode c in
      if (192 <=? b) && (b <? 224) then
        match r with String _ r' => r' | EmptyString => EmptyString end
      else if (224 <=? b) && (b <? 240) then
        match r with
        | String _ (String _ r') => r'
        | _ => EmptyString
        end
      else r
  end.

(** The text of a button of the navigation bar:
    [`S${+w.id.split('/')[0].substring(1)}`] *)
Definition navText (id : string) : string :=
  "S" +:+ match Number (substring1 (default EmptyString (head (splitSlash id)))) with
          | Some num => pretty num
          | None => "NaN"
          end.

Record NavButton := mkNavButton {
  nb_text : string;     (* textContent *)
  nb_active : bool;     (* classList.contains('active') *)
  nb_week : Week        (* the week that a click selects *)
}.

(** [start] of [renderNav]. *)
Definition navStart (weeks : list Week) (selectedWeek : nat) : nat :=
  let half := WINDOW_SIZE / 2 in
  Z.to_nat (Z.max 0 (Z.min (Z.of_nat (length weeks) - WINDOW_SIZE)
                            (Z.of_nat selectedWeek - half))).

(** The week buttons that [renderNav] draws. *)
Definition renderNav (weeks : list Week) (selectedWeek : nat) : list NavButton :=
  let start := navStart weeks selectedWeek in
  imap (λ i w, mkNavButton (navText (w_id w))
                           (bool_decide ((start + i)%nat = selectedWeek)) w)
       (take (Z.to_nat WINDOW_SIZE) (drop start weeks)).

(** The buttons '<' and '>' of the calendar: the next [(calYear, calMonth)]. *)
Definition previousMonth (cal : Z * Z) : Z * Z :=
  if cal.2 =? 0 then (cal.1 - 1, 11) else (cal.1, cal.2 - 1).

Definition nextMonth (cal : Z * Z) : Z * Z :=
  if cal.2 =? 11 then (cal.1 + 1, 0) else (cal.1, cal.2 + 1).



Section Calendar.
Variable tz : Z.
Variable weeks : list Week.
Variable now : Z.       (* [now] of the page load *)


End Calendar.

(* ===================================================================== *)
(** ** [src/planning-display.js]: the cells of the grid                   *)
(* ===================================================================== *)

(** A number that a division may have made infinite or [NaN].  (The sign
    of a zero is not kept.) *)
Inductive JSNumber := JSFinite (q : Q) | JSPlusInfinity | JSMinusInfinity | JSNaN.

(** [a / b] *)
Definition jsDiv (a b : Q) : JSNumber :=
  if Qeq_bool b 0 then
    if Qltb 0 a then JSPlusInfinity
    else if Qltb a 0 then JSMinusInfinity
    else JSNaN
  else JSFinite (Qred (a / b)).

(** [x * 100] *)
Definition jsTimes100 (x : JSNumber) : JSNumber :=
  match x with
  | JSFinite q => JSFinite (Qred (q * 100))
  | other => other
  end.

(** [s.split('-')] *)
Fixpoint splitDash (s : string) : list string :=
  match s with
  | EmptyString => [EmptyString]
  | String c rest =>
      if charCode c =? 45 then EmptyString :: splitDash rest
      else match splitDash rest with
           | [] => [String c EmptyString]
           | hd :: tl => String c hd :: tl
           end
  end.

(** [parts.join('-')] *)
Fixpoint joinDash (parts : list string) : string :=
  match parts with
  | [] => EmptyString
  | [p] => p
  | p :: rest => p +:+ "-" +:+ joinDash rest
  end.

(** [new Date(s)] on the date-only forms of the date-time string format,
    [YYYY], [YYYY-MM] and [YYYY-MM-DD], which are read as UTC.  No deadline
    of the planner has a time of day, and ECMA-262 leaves every other
    string to the implementation: all of these are an invalid date here. *)
Definition newDateOfString (s : string) : option Z :=
  match splitDash s with
  | [y] => newDateISO y "01" "01"
  | [y; m] => newDateISO y m "01"
  | [y; m; d] => newDateISO y m d
  | _ => None
  end.

Record Segment := mkSegment {
  seg_id : string;
  seg_text : string;
  seg_hours : Q;
  seg_endDate : string;
  seg_endDateObj : option Z
}.

Inductive SegmentColor := Late | SameWeek | OnTime.

Record Drawn := mkDrawn {
  dr_segment : Segment;
  dr_leftPct : JSNumber;     (* style.left, in percent *)
  dr_widthPct : JSNumber;    (* style.width, in percent *)
  dr_color : SegmentColor
}.

Record Cell := mkCell {
  cell_dispoH : Q;
  cell_barWidth : Z;         (* Math.round(ratio * 100), in percent *)
  cell_badge : option Q;     (* the badge drawn, if any *)
  cell_segments : list Drawn
}.

Section Cells.
Variable tz : Z.

(** [planned]: the jobs of [name] that hold minutes in the week, by
    deadline. *)
Definition planned (chantiers : list Chantier) (name weekKey : string) : list Segment :=
  stableSort (λ a b, ta ← seg_endDateObj a; tb ← seg_endDateObj b; Some (ta - tb))
    ((λ ch, mkSegment (ch_id ch) (label ch) (divQ (getPlan ch weekKey) 60) (endDate ch)
                      (newDateOfString (joinDash (reverse (splitSlash (endDate ch))))))
     <$> filter (λ ch, preparateur ch = Some name ∧ is_Some (planification ch)
                       ∧ 0 < getPlan ch weekKey) chantiers).

(** The colour of a segment drawn in week [w]. *)
Definition segmentColor (w : Week) (seg : Segment) : SegmentColor :=
  match seg_endDateObj seg with
  | Some e =>
      let echWeek := getWeek tz e in
      let echYear := JSDate.getFullYear tz e in
      let year := JSDate.getFullYear tz (w_start w) in
      let week := getWeek tz (w_start w) in
      if (echYear <? year) || ((year =? echYear) && (echWeek <? week)) then Late
      else if (year =? echYear) && (week =? echWeek) then SameWeek
      else OnTime
  | None => OnTime
  end.

(** Body of [planned.forEach(seg => ...)]; the accumulator holds the
    segments drawn so far and [cum]. *)
Definition drawSegment (w : Week) (dispoH : Q) (acc : list Drawn * Q) (seg : Segment)
  : list Drawn * Q :=
  let '(drawn, cum) := acc in
  (drawn ++ [mkDrawn seg (jsTimes100 (jsDiv cum dispoH))
                     (jsTimes100 (jsDiv (seg_hours seg) dispoH))
                     (segmentColor w seg)],
   Qred (cum + seg_hours seg)).

Definition drawSegments (w : Week) (dispoH : Q) (segs : list Segment) : list Drawn :=
  (foldl (drawSegment w dispoH) ([], 0%Q) segs).1.

(** [dispoH] of a cell: that of the projection when the week has a record
    there, the stored minutes otherwise. *)
Definition cellDispoH (marges : gmap string Calc) (avail : gmap string Stored)
           (weekKey : string) : Q :=
  match marges !! weekKey with
  | Some calc => dispo calc
  | None => divQ (storedMins (avail !! weekKey)) 60
  end.

(** [Math.round(ratio * 100)] for [ratio = Math.max(0, Math.min(1, mins / 2400))] *)
Definition barWidth (dispoH : Q) : Z :=
  let mins := (dispoH * 60)%Q in
  let x := (mins / 2400)%Q in
  let least := if Qltb 1 x then 1%Q else x in
  let ratio := if Qltb least 0 then 0%Q else least in
  Qfloor (ratio * 100 + (1 # 2))%Q.

(** The badge that the cell shows: none when the property is [null] or
    undefined. *)
Definition badgeShown (calc : option Calc) : option Q :=
  match badge <$> calc with
  | Some (BadgeValue v) => Some v
  | _ => None
  end.

(** The cell of resource [name] for week [w]. *)
Definition renderCell (chantiers : list Chantier) (name : string)
           (marges : gmap string Calc) (avail : gmap string Stored) (w : Week) : Cell :=
  let weekKey := weekKey tz w in
  let dispoH := cellDispoH marges avail weekKey in
  mkCell dispoH (barWidth dispoH) (badgeShown (marges !! weekKey))
         (drawSegments w dispoH (planned chantiers name weekKey)).
End Cells.

(** [preparateursToShow], for the value of the global [filteredResources]
    ([None] is [null]). *)
Definition preparateursToShow (data : Data) (filteredResources : option (list string))
  : list string :=
  match filteredResources with
  | Some (r :: rs) => filter (λ name, name ∈ r :: rs) data.*1
  | _ => data.*1
  end.

(** The rows of [renderGrid()]: [None] is the [TypeError] of a projection
    that cannot be computed.  [now] is the page-load date of [nowId];
    [VISIBLE] is [visibleWeeksCount]. *)
Definition renderGrid (tz : Z) (weeks : list Week) (now : Z)
           (selectedWeek VISIBLE : nat) (filteredResources : option (list string))
           (s : State) : option (list (string * list Cell)) :=
  let slice := take VISIBLE (drop selectedWeek weeks) in
  currentIndex ← currentIndex tz weeks now;
  _ ← weeks !! currentIndex;
  margesGlobales ← mapM (λ name, pair name <$> margesGlobales tz weeks s currentIndex name)
                        (data s).*1;
  mapM (λ name,
          marges ← objGet margesGlobales name;
          avail ← dataGet (data s) name;
          Some (name, renderCell tz (chantiers s) name marges avail <$> slice))
       (preparateursToShow (data s) filteredResources).

(** What [renderAll()] reads beside the stores: the page-load date [now]
    of [nowId], [selectedWeek], [visibleWeeksCount] and
    [filteredResources]. *)
Record View := mkView {
  v_now : Z;
  v_selectedWeek : nat;
  v_visibleWeeksCount : nat;
  v_filteredResources : option (list string)
}.

(** How a call ends: it returns, or it stops at a [TypeError]. *)
Inductive Ending := Returned | Threw.

(** [renderAll()] of [src/main.js], in the page of the application, where
    the elements [week-nav], [schedule-grid] and [grid-header] exist:
    [renderNav()], which throws nothing, then [renderGrid()], which stops
    at [currentWeek.start] when [nowId] is the identifier of no week.  It
    writes no global.  The handlers that write a global after it are given
    below with the way they end; in the others, what follows it touches
    the document only. *)
Definition renderAll (tz : Z) (weeks : list Week) (v : View) (g : Globals) : Ending :=
  match renderGrid tz weeks (v_now v) (v_selectedWeek v) (v_visibleWeeksCount v)
                   (v_filteredResources v) (mkState (g_chantiers g).*2 (g_data g)) with
  | Some _ => Returned
  | None => Threw
  end.

(* ===================================================================== *)
(** ** The resources module of [src/unnamed/part_000]                     *)
(* ===================================================================== *)

(** [editPreparateur(p)]: the next value of [editingPrep]. *)
Definition editPreparateur (p : string) : option string := Some p.

(** [addPreparateur()], for the values of the fields [prepName] and
    [prepNNI]: the globals and [editingPrep] afterwards, and how the call
    ends.  An empty [editingPrep] is falsy.  [renderAll()] runs once the
    stores are written; when it returns, [managePreparateurs()] draws the
    list again and its [hideAddForm()] resets [editingPrep]; when it
    throws, [editingPrep] stays.  In the mode that adds, [data[name]] also
    reads what the store inherits.  The result is [None] where the stores
    leave what the model holds: the renamed resource has no availability
    record of its own (the store would get the value read under the old
    name, undefined or inherited), or the new name is [__proto__] (the
    assignment would set the prototype of the store). *)
Definition addPreparateur (tz : Z) (weeks : list Week) (v : View)
           (prepName prepNNI : string) (editingPrep : option string) (g : Globals)
  : option (Globals * option string * Ending) :=
  let name := trim prepName in
  let nni := trim prepNNI in
  let finish (g' : Globals) :=
    match renderAll tz weeks v g' with
    | Returned => Some (g', None, Returned)
    | Threw => Some (g', editingPrep, Threw)
    end in
  if bool_decide (name = EmptyString ∨ nni = EmptyString)
  then Some (g, editingPrep, Returned)
  else
    match editingPrep with
    | Some (String c r) =>
        let old := String c r in
        match dataGet (g_data g) old with
        | Some oldData =>
            if bool_decide (name = "__proto__") then None
            else finish (mkGlobals
                           (objSet name oldData (objDelete old (g_data g)))
                           (objSet name nni (objDelete old (g_preparateursMeta g)))
                           (g_chantiers g))
        | None => None
        end
    | _ =>
        if bool_decide (is_Some (dataGet (g_data g) name)) || inherited name
        then Some (g, editingPrep, Returned)
        else finish (mkGlobals (objSet name ∅ (g_data g))
                               (objSet name nni (g_preparateursMeta g))
                               (g_chantiers g))
    end.

(** [removePreparateur(p)], for the answer [confirmed] of the dialog: the
    two deletions, [renderAll()], then [managePreparateurs()], which resets
    [editingPrep]. *)
Definition removePreparateur (tz : Z) (weeks : list Week) (v : View)
           (p : string) (confirmed : bool) (editingPrep : option string) (g : Globals)
  : Globals * option string * Ending :=
  if confirmed then
    let g' := mkGlobals (objDelete p (g_data g)) (objDelete p (g_preparateursMeta g))
                        (g_chantiers g) in
    match renderAll tz weeks v g' with
    | Returned => (g', None, Returned)
    | Threw => (g', editingPrep, Threw)
    end
  else (g, editingPrep, Returned).

(* ===================================================================== *)
(** ** [src/planning-display.js]: the creation of a job and its simulation *)
(* ===================================================================== *)

Definition set_preparateur (v : option string) (ch : Chantier) : Chantier :=
  mkChantier (ch_id ch) (label ch) (status ch) (prepTime ch) (endDate ch)
             v (planification ch) (ChargeRestante ch) (tempsRestant ch).

(** The globals of the module.  The property [_simulOriginalPrep], which
    only this module reads, is kept beside the job store: the jobs that
    have it, with its value.  The value is a job's [preparateur], where
    [None] is [null]: the job objects that the application builds all have
    the property. *)
Record Creation := mkCreation {
  chantierEnAttenteAffectation : option string;
  simulationMode : bool;
  simulOriginalPrep : list (string * option string)
}.

(** [x || null] on a resource name. *)
Definition orNull (x : option string) : option string :=
  match x with
  | Some (String c r) => Some (String c r)
  | _ => None
  end.

Section Simulation.
Variables (tz : Z) (weeks : list Week) (now : Z).

(** [chantiers[id].preparateur = v] *)
Definition assign (id : string) (v : option string) (g : Globals) : Globals :=
  match objGet (g_chantiers g) id with
  | Some ch => set_g_chantiers (objSet id (set_preparateur v ch) (g_chantiers g)) g
  | None => g
  end.

(** [simulateOver(e)], for [txt = e.target.textContent.trim()]. *)
Definition simulateOver (txt : string) (c : Creation) (g : Globals) : Creation * Globals :=
  if negb (simulationMode c) then (c, g)
  else
    match chantierEnAttenteAffectation c with
    | Some (String a r) =>
        let id := String a r in
        match objGet (g_chantiers g) id with
        | Some ch =>
            if negb (knownNNI (g_preparateursMeta g) txt) then (c, g)
            else
              let c := match objGet (simulOriginalPrep c) id with
                       | Some _ => c
                       | None =>
                           mkCreation (chantierEnAttenteAffectation c) (simulationMode c)
                             (objSet id (preparateur ch) (simulOriginalPrep c))
                       end in
              (c, reallocate tz weeks now (assign id (Some txt) g))
        | None => (c, g)
        end
    | _ => (c, g)
    end.

(** [simulateOut(e)] *)
Definition simulateOut (c : Creation) (g : Globals) : Creation * Globals :=
  if negb (simulationMode c) then (c, g)
  else
    match chantierEnAttenteAffectation c with
    | Some (String a r) =>
        let id := String a r in
        match objGet (g_chantiers g) id with
        | Some ch =>
            let original := default None (objGet (simulOriginalPrep c) id) in
            (mkCreation (chantierEnAttenteAffectation c) (simulationMode c)
                        (objDelete id (simulOriginalPrep c)),
             reallocate tz weeks now (assign id (orNull original) g))
        | None => (c, g)
        end
    | _ => (c, g)
    end.

End Simulation.

(** The values of the form of the sidebar when a button reads them:
    [inputID.value.trim()], [inputLabel.value.trim()], [selectStatus.value],
    [Math.round(parseFloat(inputTime.value) * 60)] (the buttons are enabled
    only when the number field holds a number) and [inputDate.value]. *)
Record Form := mkForm {
  f_id : string;
  f_label : string;
  f_status : string;
  f_prepTime : Z;
  f_date : string
}.

(** [`${D}/${M}/${Y}`] for [const [Y, M, D] = date.split('-')]; a part that
    is missing prints as [undefined]. *)
Definition formEndDate (date : string) : string :=
  let part (i : nat) := default "undefined" (splitDash date !! i) in
  part 2%nat +:+ "/" +:+ part 1%nat +:+ "/" +:+ part 0%nat.


(** [if (!chantiers[id]) chantiers[id] = { preparateur: null }], then the
    five assignments of the form's values. *)
Definition formJob (f : Form) (old : option Chantier) : Chantier :=
  match old with
  | Some ch =>
      mkChantier (f_id f) (f_label f) (f_status f) (f_prepTime f) (formEndDate (f_date f))
                 (preparateur ch) (planification ch) (ChargeRestante ch) (tempsRestant ch)
  | None =>
      mkChantier (f_id f) (f_label f) (f_status f) (f_prepTime f) (formEndDate (f_date f))
                 None None None None
  end.

(** The handler of the button "Simulation"; [clicked] is
    [btnSimulation.classList.contains('clicked')].  The listeners of the
    document are [simulateOver] and [simulateOut]. *)
Definition btnSimulationClick (clicked : bool) (f : Form) (c : Creation) (g : Globals)
  : Creation * Globals :=
  let id := f_id f in
  let ch := formJob f (objGet (g_chantiers g) id) in
  let g := set_g_chantiers (objSet id ch (g_chantiers g)) g in
  if negb clicked then
    (mkCreation (Some id) true (objSet id (preparateur ch) (simulOriginalPrep c)), g)
  else
    match objGet (simulOriginalPrep c) id with
    | Some original =>
        (mkCreation None false (objDelete id (simulOriginalPrep c)),
         assign id (orNull original) g)
    | None => (mkCreation None false (simulOriginalPrep c), g)
    end.

(** What happens while a simulation is on: the pointer enters an element
    whose trimmed text is [txt], or leaves an element. *)
Inductive PointerEvent := MouseOver (txt : string) | MouseOut.

Definition pointerEvent (tz : Z) (weeks : list Week) (now : Z)
           (cg : Creation * Globals) (e : PointerEvent) : Creation * Globals :=
  match e with
  | MouseOver txt => simulateOver tz weeks now txt cg.1 cg.2
  | MouseOut => simulateOut tz weeks now cg.1 cg.2
  end.

(* ===================================================================== *)
(** ** Vocabulary of the further properties                               *)
(* ===================================================================== *)

(** The run files an allocation entry by its key: [weekMap] gives a key the
    position of the last week of the calendar that has it, and the key is
    past when that position is before the current week.  The three
    relations below speak of keys, for any list of weeks. *)

(** [b] is [a] with the same identity and the same entries under the keys
    that are past. *)
Definition keepsPastKeys (tz : Z) (weeks : list Week) (cur : nat) (a b : Chantier) : Prop :=
  sameFixed a b ∧
  ∀ k, isPastKey tz weeks cur k = true → planifOf b !! k = planifOf a !! k.

(** [ch'] has no entry under a key that [weekMap] places at the current
    week or after it, and the entries of [ch] under the keys that are
    past. *)
Definition deprogrammedKeys (tz : Z) (weeks : list Week) (cur : nat) (ch ch' : Chantier)
  : Prop :=
  ∀ key w idx, weekMap tz weeks !! key = Some (w, idx) →
    ((cur ≤ idx)%nat → planifOf ch' !! key = None) ∧
    ((idx < cur)%nat → planifOf ch' !! key = planifOf ch !! key).

(** The same in terms of the weeks of the generated calendar.  In a host at
    or east of UTC, week 1 of 2024 (position 0) and week 1 of 2025
    (position 52, Monday 30 December 2024) have the same key,
    [2024-W01-1], and an entry under it counts for the later week.  So the
    weeks before the current week [cur] whose entries a run leaves alone
    are all the weeks before [cur], but for the week at position 0 in a
    host at or east of UTC while [cur] is not after position 52. *)
Definition beforeCurrent (tz : Z) (cur k : nat) : Prop :=
  (k < cur)%nat ∧ (tz < 0 ∨ (0 < k)%nat ∨ (52 < cur)%nat).


(** [ch'] has no entry under the key of a week from the current one on; it
    has the entries of [ch] under the keys of the weeks that
    [beforeCurrent] holds of; and in a host at or east of UTC, while the
    current week is not after position 52, it has no entry under the key
    of the week at position 0 either, also when that week is before the
    current one. *)
Definition deprogrammed (tz : Z) (cur : nat) (ch ch' : Chantier) : Prop :=
  (∀ k w, weeks tz !! k = Some w → (cur ≤ k)%nat →
          planifOf ch' !! weekKey tz w = None) ∧
  (∀ k w, weeks tz !! k = Some w → beforeCurrent tz cur k →
          planifOf ch' !! weekKey tz w = planifOf ch !! weekKey tz w) ∧
  (0 ≤ tz → (cur ≤ 52)%nat → ∀ w, weeks tz !! 0%nat = Some w →
          planifOf ch' !! weekKey tz w = None).







(** The job has the values of the form. *)
Definition formFields (f : Form) (ch : Chantier) : Prop :=
  ch_id ch = f_id f ∧ label ch = f_label f ∧ status ch = f_status f ∧
  prepTime ch = f_prepTime f ∧ endDate ch = formEndDate (f_date f).

(** A simulation of the job of the form [f] is on: the job is in the
    store, and [Q] holds of the resource that the job gets back when the
    pointer leaves (the value kept in [_simulOriginalPrep], or the job's
    own when none is kept). *)
Definition simulating (Q : option string → Prop) (f : Form) (cg : Creation * Globals)
  : Prop :=
  simulationMode cg.1 = true ∧ chantierEnAttenteAffectation cg.1 = Some (f_id f) ∧
  NoDup (g_chantiers cg.2).*1 ∧
  ∃ ch, objGet (g_chantiers cg.2) (f_id f) = Some ch ∧ formFields f ch ∧
        match objGet (simulOriginalPrep cg.1) (f_id f) with
        | Some o => Q (orNull o)
        | None => Q (preparateur ch)
        end.

(** From [g] to [g'], the availabilities and the resources are the same,
    the jobs other than [id] keep their identity and their entries under
    the keys that are past, and none appears. *)
Definition othersKeptKeys (tz : Z) (weeks : list Week) (cur : nat) (id : string)
           (g g' : Globals) : Prop :=
  g_data g' = g_data g ∧ g_preparateursMeta g' = g_preparateursMeta g ∧
  (∀ k c0, k ≠ id → objGet (g_chantiers g) k = Some c0 →
     ∃ c', objGet (g_chantiers g') k = Some c' ∧ keepsPastKeys tz weeks cur c0 c') ∧
  (∀ k, k ≠ id → objGet (g_chantiers g) k = None → objGet (g_chantiers g') k = None).


(* --------------------------------------------------------------------- *)
(** *** The worked planning, as the globals of the page                   *)

(** The three jobs under their keys, the availabilities of resource "A",
    and the NNI of "A". *)
Definition workedGlobals : Globals :=
  mkGlobals availabilityA [("A", "H12345")]
    [("CH-1", bigJob "19/03/2025" None); ("CH-2", smallJob); ("CH-3", cancelledJob)].

(** A job in progress of a resource "B" that has no availabilities. *)
Definition orphanJob : Chantier :=
  mkChantier "CH-4" "Liaison" "Nouveau" 900 "02/04/2025" (Some "B")
    (Some (<[week11 := 300]> ∅)) (Some 900) None.




Definition knownJobForm : Form := mkForm "CH-2" "Depart HTA" "Nouveau" 3000 "2025-03-12".
Definition creationIdle : Creation := mkCreation None false [].

(** Monday 30 December 2024, 10:00 in the host: ISO week 1 of 2025. *)
Definition newYearMonday : Z := JSDate.UTC 2024 11 30 9 0.

(** The page as it was loaded at the anchor: week 10 of 2025 selected, ten
    weeks visible, no filter on the resources. *)
Definition pageView : View := mkView anchor 61 10 None.

(** The page loaded on Friday 1 January 2027, 10:00 in the host: a day of
    ISO week 53 of 2026, for which [nowId] is [S53/2027]. *)
Definition newYearView : View := mkView (JSDate.UTC 2027 0 1 9 0) 0 10 None.

(* --------------------------------------------------------------------- *)
(** *** Week 1 of 2024 and week 1 of 2025                                 *)

(** Wednesday 6 March 2024, 10:30 in the host at UTC+1: week 10 of 2024,
    position 9 of the calendar. *)
Definition march2024 : Z := JSDate.UTC 2024 2 6 9 30.

(** A cancelled job with 100 minutes done in week 1 of 2024 and 60 in week
    5 of 2024. *)
Definition doneInJanuary : Chantier :=
  mkChantier "CH-5" "Poste HTA" "Annulé" 600 "02/04/2024" (Some "A")
    (Some (<["2024-W01-1" := 100]> (<["2024-W05-1" := 60]> ∅))) None None.

(** The page loaded on Tuesday 2 January 2024, 10:00 in the host: week 1 of
    2024, position 0 of the calendar.  Resource "A" has 600 minutes in week
    21 of 2024 and no job. *)
Definition january2024 : Z := JSDate.UTC 2024 0 2 9 0.

Definition availableInMay : State :=
  mkState [] [("A", <["2024-W21-1" := StoredObject 600 "2024-01-02T09:00:00.000Z"]> ∅)].

(** A segment drawn inside the bar of its cell: it starts at or after the
    left end, it has a width, and it ends at or before the right end. *)
Definition fitsInBar (d : Drawn) : Prop :=
  ∃ l wd, dr_leftPct d = JSFinite l ∧ dr_widthPct d = JSFinite wd ∧
          (0 <= l)%Q ∧ (0 < wd)%Q ∧ (l + wd <= 100)%Q.

(* ===================================================================== *)
(** ** The calendar                                                       *)
(* ===================================================================== *)

Lemma Day_LocalTime tz t :
  (JSDate.msPerDay | t) → -1440 < tz < 1440 →
  JSDate.Day (JSDate.LocalTime tz t)
  = JSDate.Day (JSDate.LocalTime (if tz <? 0 then -1 else 0) t).
Proof.
  intros [k ->] Htz. unfold JSDate.Day, JSDate.LocalTime, JSDate.msPerDay, JSDate.msPerMinute.
  rewrite !Z.div_add_l by lia.
  destruct (tz <? 0) eqn:E.
  - apply Z.ltb_lt in E. f_equal.
    transitivity (-1); [|done].
    symmetry. apply (Z.div_unique _ _ (-1) (tz * 60000 + 86400000)); lia.
  - apply Z.ltb_ge in E. f_equal. rewrite Z.div_small by lia. done.
Qed.

Lemma getWeek_tz tz t :
  (JSDate.msPerDay | t) → -1440 < tz < 1440 →
  getWeek tz t = getWeek (if tz <? 0 then -1 else 0) t.
Proof.
  intros Ht Htz. unfold getWeek, JSDate.getFullYear, JSDate.getMonth, JSDate.getDate,
    JSDate.YearFromTime, JSDate.MonthFromTime, JSDate.DateFromTime.
  by rewrite (Day_LocalTime tz t Ht Htz).
Qed.

Lemma weeks_tz tz :
  -1440 < tz < 1440 → weeks tz = weeks (if tz <? 0 then -1 else 0).
Proof.
  intros Htz. unfold weeks. f_equal. apply list_fmap_ext. intros _ y _.
  unfold weeksOfYear, getISOWeeksInYear. rewrite (getWeek_tz tz); [done| |done].
  unfold JSDate.UTC. exists (JSDate.MakeDay (JSDate.fullYear y) 11 31). lia.
Qed.

Lemma ascending_of_contiguous (ws : list Week) :
  Forall (λ w, w_end w = w_start w + 6 * JSDate.msPerDay) ws →
  (∀ i w w', ws !! i = Some w → ws !! S i = Some w' →
             w_start w' = w_end w + JSDate.msPerDay) →
  ∀ i j w w', (i < j)%nat → ws !! i = Some w → ws !! j = Some w' →
              w_start w < w_start w'.
Proof.
  intros Hend Hnext i j. induction j as [|j IH]; intros w w' Hij Hw Hw'; [lia|].
  destruct (lookup_lt_is_Some_2 ws j) as [wj Hwj].
  { apply lookup_lt_Some in Hw'. lia. }
  pose proof (Hnext j wj w' Hwj Hw') as Hstep.
  pose proof (proj1 (Forall_forall _ _) Hend wj (list_elem_of_lookup_2 _ _ _ Hwj)) as Hj.
  unfold JSDate.msPerDay in *.
  destruct (decide (i = j)) as [->|Hne].
  - assert (wj = w) as -> by congruence. lia.
  - assert (w_start w < w_start wj) by (apply IH; [lia|done|done]). lia.
Qed.

Lemma contiguous_lookup (ws : list Week) :
  Forall (λ p, w_start p.2 = w_end p.1 + JSDate.msPerDay) (zip ws (drop 1 ws)) →
  ∀ i w w', ws !! i = Some w → ws !! S i = Some w' →
            w_start w' = w_end w + JSDate.msPerDay.
Proof.
  intros Hzip i w w' Hw Hw'.
  apply (proj1 (Forall_forall _ _) Hzip (w, w')).
  apply list_elem_of_lookup. exists i.
  apply lookup_zip_with_Some. exists w, w'. split; [done|]. split; [done|].
  by rewrite lookup_drop.
Qed.

Lemma calendarChecked_utc : calendarChecked (weeks 0).
Proof.
  split_and!.
  - vm_compute. reflexivity.
  - apply (bool_decide_unpack _). vm_compute. exact I.
  - apply (bool_decide_unpack _). vm_compute. exact I.
  - apply (bool_decide_unpack _). vm_compute. exact I.
Qed.

Lemma calendarChecked_west : calendarChecked (weeks (-1)).
Proof.
  split_and!.
  - vm_compute. reflexivity.
  - apply (bool_decide_unpack _). vm_compute. exact I.
  - apply (bool_decide_unpack _). vm_compute. exact I.
  - apply (bool_decide_unpack _). vm_compute. exact I.
Qed.

(** C9 (calendar).  Whatever the host's offset from UTC (less than a day),
    the generated calendar holds, for each year from 2024 to 2028 and each
    ISO week number of that year, one week, in order, whose start is the
    Monday (UTC midnight) of that ISO week; each week ends six days after
    its start; each week starts the day after the previous one ends, also
    from one year to the next; and the weeks are in ascending order. *)
Theorem calendar_well_formed tz :
  -1440 < tz < 1440 →
  (λ w, (w_id w, isoWeekOf (w_start w))) <$> weeks tz = expectedWeeks ∧
  Forall (λ w, JSDate.getUTCDay (w_start w) = 1 ∧
               JSDate.TimeWithinDay (w_start w) = 0) (weeks tz) ∧
  Forall (λ w, w_end w = w_start w + 6 * JSDate.msPerDay) (weeks tz) ∧
  (∀ i w w', weeks tz !! i = Some w → weeks tz !! S i = Some w' →
             w_start w' = w_end w + JSDate.msPerDay) ∧
  (∀ i j w w', (i < j)%nat → weeks tz !! i = Some w → weeks tz !! j = Some w' →
               w_start w < w_start w').
Proof.
  intros Htz. rewrite (weeks_tz tz Htz).
  assert (Hc : calendarChecked (weeks (if tz <? 0 then -1 else 0))).
  { destruct (tz <? 0); [apply calendarChecked_west|apply calendarChecked_utc]. }
  destruct Hc as (Hexp & Hmon & Hend & Hzip).
  pose proof (contiguous_lookup _ Hzip) as Hnext.
  split_and!; try done.
  by apply ascending_of_contiguous.
Qed.

Lemma calendar_well_formed_witness :
  (λ w, (w_id w, isoWeekOf (w_start w))) <$> weeks 60 = expectedWeeks ∧
  Forall (λ w, JSDate.getUTCDay (w_start w) = 1 ∧
               JSDate.TimeWithinDay (w_start w) = 0) (weeks 60) ∧
  Forall (λ w, w_end w = w_start w + 6 * JSDate.msPerDay) (weeks 60) ∧
  (∀ i w w', weeks 60 !! i = Some w → weeks 60 !! S i = Some w' →
             w_start w' = w_end w + JSDate.msPerDay) ∧
  (∀ i j w w', (i < j)%nat → weeks 60 !! i = Some w → weeks 60 !! j = Some w' →
               w_start w < w_start w').
Proof. apply (calendar_well_formed 60). lia. Defined.

(** The week keys: two weeks share a key only in a host at or east of UTC,
    where week 1 of 2025 (Monday 30 December 2024) gets the key of week 1
    of 2024. *)
Lemma weekKey_collision :
  weekKey 0 <$> weeks 0 !! 0%nat = Some "2024-W01-1" ∧
  weekKey 0 <$> weeks 0 !! 52%nat = Some "2024-W01-1" ∧
  snd <$> weekMap 0 (weeks 0) !! "2024-W01-1" = Some 52%nat.
Proof. split_and!; vm_compute; reflexivity. Qed.

Lemma weekKey_tz tz w :
  (JSDate.msPerDay | w_start w) → -1440 < tz < 1440 →
  weekKey tz w = weekKey (if tz <? 0 then -1 else 0) w.
Proof.
  intros Hw Htz. unfold weekKey. rewrite (getWeek_tz tz) by done.
  unfold JSDate.getFullYear, JSDate.YearFromTime.
  by rewrite (Day_LocalTime tz _ Hw Htz).
Qed.

Lemma weekKeys_distinct_utc : NoDup (drop 1 (weekKey 0 <$> weeks 0)).
Proof. apply (bool_decide_unpack _). vm_compute. exact I. Qed.

Lemma weekKeys_distinct_west : NoDup (drop 1 (weekKey (-1) <$> weeks (-1))).
Proof. apply (bool_decide_unpack _). vm_compute. exact I. Qed.

(** From the second week of the calendar on, the projected keys are
    pairwise distinct. *)
Lemma projectedKeys_NoDup tz cur :
  -1440 < tz < 1440 → (1 ≤ cur)%nat → NoDup (projectedKeys tz (weeks tz) cur).
Proof.
  intros Htz Hcur. unfold projectedKeys.
  rewrite (weeks_tz tz Htz).
  set (tz' := if tz <? 0 then -1 else 0).
  assert (Hkeys : weekKey tz <$> drop cur (weeks tz') = weekKey tz' <$> drop cur (weeks tz')).
  { apply list_fmap_ext. intros i w Hw. apply weekKey_tz; [|done].
    apply list_elem_of_lookup_2, subseteq_drop in Hw.
    assert (Hc : calendarChecked (weeks tz')).
    { unfold tz'. destruct (tz <? 0); [apply calendarChecked_west|apply calendarChecked_utc]. }
    destruct Hc as (_ & Hmon & _).
    destruct (proj1 (Forall_forall _ _) Hmon w Hw) as [_ Hmid].
    unfold JSDate.TimeWithinDay in Hmid. by apply Z.mod_divide. }
  rewrite Hkeys.
  replace cur with (1 + (cur - 1))%nat by lia. rewrite <- drop_drop, !fmap_drop.
  eapply sublist_NoDup; [|apply sublist_drop].
  unfold tz'. destruct (tz <? 0); [apply weekKeys_distinct_west|apply weekKeys_distinct_utc].
Qed.

(* ===================================================================== *)
(** ** Sums of minutes                                                    *)
(* ===================================================================== *)

Lemma sumZ_app l k : sumZ (l ++ k) = sumZ l + sumZ k.
Proof. induction l as [|x l IH]; simpl; lia. Qed.

Lemma sumZ_perm l k : l ≡ₚ k → sumZ l = sumZ k.
Proof. induction 1; simpl; lia. Qed.

Lemma foldl_add_sumZ {A} (g : A → Z) (l : list A) (a : Z) :
  foldl (λ s c, s + g c) a l = a + sumZ (g <$> l).
Proof.
  revert a. induction l as [|x l IH]; intros a; csimpl; [lia|].
  rewrite IH. lia.
Qed.

Lemma sumZ_zero {A} (g : A → Z) (l : list A) :
  (∀ c, c ∈ l → g c = 0) → sumZ (g <$> l) = 0.
Proof.
  induction l as [|c l IH]; intros Hz; csimpl; [done|].
  rewrite Hz by left. rewrite IH; [done|].
  intros c' Hc'. apply Hz. by right.
Qed.

Lemma sumValues_empty : sumValues ∅ = 0.
Proof. unfold sumValues. by rewrite map_fold_empty. Qed.

Lemma sumValues_insert_fresh (m : gmap string Z) k v :
  m !! k = None → sumValues (<[k:=v]> m) = sumValues m + v.
Proof.
  intros Hk. unfold sumValues.
  rewrite map_fold_insert_L; [done| |done].
  intros; lia.
Qed.

Lemma sumValues_delete (m : gmap string Z) k :
  sumValues (delete k m) = sumValues m - default 0 (m !! k).
Proof.
  destruct (m !! k) as [v|] eqn:Hk; simpl.
  - rewrite <- (insert_delete_id m k v Hk) at 2.
    rewrite sumValues_insert_fresh by apply lookup_delete_eq. lia.
  - rewrite delete_id by done. lia.
Qed.

Lemma sumValues_insert (m : gmap string Z) k v :
  sumValues (<[k:=v]> m) = sumValues m - default 0 (m !! k) + v.
Proof.
  rewrite <- insert_delete_eq.
  rewrite sumValues_insert_fresh by apply lookup_delete_eq.
  rewrite sumValues_delete. lia.
Qed.

(** Sum over the entries selected by a predicate on keys, as a sum over a
    duplicate-free list of those keys. *)
Lemma sumValues_filter_keys (P : string → bool) (ks : list string) (m : gmap string Z) :
  NoDup ks → (∀ k, P k = true ↔ k ∈ ks) →
  sumValues (filter (λ kv, P kv.1 = true) m) = sumZ ((λ k, default 0 (m !! k)) <$> ks).
Proof.
  intros Hnd HP. induction m as [|i x m Hi _ IH] using map_first_key_ind.
  - rewrite map_filter_empty, sumValues_empty.
    clear. induction ks as [|k ks IH]; csimpl; [done|].
    rewrite lookup_empty. simpl. lia.
  - assert (Hsum : sumZ ((λ k, default 0 (<[i:=x]> m !! k)) <$> ks)
                   = sumZ ((λ k, default 0 (m !! k)) <$> ks)
                     + (if P i then x else 0)).
    { destruct (P i) eqn:HPi.
      - apply HP in HPi. clear IH HP.
        induction Hnd as [|k ks Hk Hnd IH]; [by apply elem_of_nil in HPi|].
        csimpl. destruct (decide (k = i)) as [->|Hne].
        + rewrite lookup_insert_eq, Hi. simpl.
          assert (Hrest : sumZ ((λ k, default 0 (<[i:=x]> m !! k)) <$> ks)
                          = sumZ ((λ k, default 0 (m !! k)) <$> ks)).
          { f_equal. apply list_fmap_ext. intros j k Hjk.
            rewrite lookup_insert_ne; [done|].
            intros ->. apply Hk. by eapply list_elem_of_lookup_2. }
          rewrite Hrest. lia.
        + rewrite lookup_insert_ne by done.
          apply elem_of_cons in HPi as [?|HPi]; [congruence|].
          rewrite IH by done. lia.
      - assert (i ∉ ks) as Hni by (rewrite <- HP; congruence).
        rewrite Z.add_0_r. f_equal. apply list_fmap_ext. intros j k Hjk.
        rewrite lookup_insert_ne; [done|].
        intros ->. apply Hni. by eapply list_elem_of_lookup_2. }
    rewrite Hsum, <- IH.
    destruct (P i) eqn:HPi.
    + rewrite map_filter_insert_True by done.
      rewrite sumValues_insert_fresh; [done|].
      by rewrite map_lookup_filter, Hi.
    + rewrite map_filter_insert_not by (simpl; intros; congruence).
      lia.
Qed.

(* --------------------------------------------------------------------- *)
(** *** [weekMap]                                                         *)

Section WeekMapFacts.
Variable tz : Z.

Lemma weekMapFrom_keeps ws idx m k w0 j0 b :
  m !! k = Some (w0, j0) → (b ≤ j0)%nat → (b ≤ idx)%nat →
  ∃ w' j, weekMapFrom tz idx ws m !! k = Some (w', j) ∧ (b ≤ j)%nat.
Proof.
  revert idx m w0 j0. induction ws as [|w ws IH]; intros idx m w0 j0 Hk Hb Hidx; simpl.
  - eauto.
  - destruct (decide (weekKey tz w = k)) as [<-|Hne].
    + eapply IH; [apply lookup_insert_eq| |]; lia.
    + eapply IH; [by rewrite lookup_insert_ne| |]; [done|lia].
Qed.

Lemma weekMapFrom_later ws idx m i w :
  ws !! i = Some w →
  ∃ w' j, weekMapFrom tz idx ws m !! weekKey tz w = Some (w', j) ∧ (idx + i ≤ j)%nat.
Proof.
  revert idx m i. induction ws as [|w0 ws IH]; intros idx m i Hi; [done|].
  destruct i as [|i]; simpl in *.
  - injection Hi as ->.
    eapply weekMapFrom_keeps; [apply lookup_insert_eq| |]; lia.
  - destruct (IH (S idx) (<[weekKey tz w0:=(w0, idx)]> m) i Hi) as (w' & j & ? & ?).
    exists w', j. split; [done|lia].
Qed.

Lemma weekMapFrom_inv ws idx m k w j :
  weekMapFrom tz idx ws m !! k = Some (w, j) →
  m !! k = Some (w, j) ∨
  ((idx ≤ j)%nat ∧ ws !! (j - idx)%nat = Some w ∧ weekKey tz w = k).
Proof.
  revert idx m. induction ws as [|w0 ws IH]; intros idx m Hk; simpl in *; [by left|].
  apply IH in Hk as [Hk|(Hle & Hw & Hkey)].
  - destruct (decide (weekKey tz w0 = k)) as [<-|Hne].
    + rewrite lookup_insert_eq in Hk. injection Hk as <- <-.
      right. by rewrite Nat.sub_diag.
    + rewrite lookup_insert_ne in Hk by done. by left.
  - right. split; [lia|]. split; [|done].
    replace (j - idx)%nat with (S (j - S idx)) by lia. done.
Qed.

Variable weeks : list Week.

Lemma weekMap_later i w :
  weeks !! i = Some w →
  ∃ w' j, weekMap tz weeks !! weekKey tz w = Some (w', j) ∧ (i ≤ j)%nat.
Proof. intros Hi. by apply (weekMapFrom_later weeks 0 ∅) in Hi. Qed.

Lemma weekMap_inv k w j :
  weekMap tz weeks !! k = Some (w, j) → weeks !! j = Some w ∧ weekKey tz w = k.
Proof.
  intros Hk. apply weekMapFrom_inv in Hk as [Hk|(_ & Hw & Hkey)]; [done|].
  by rewrite Nat.sub_0_r in Hw.
Qed.

Variable cur : nat.

Lemma isPastKey_not_future k : isPastKey tz weeks cur k = true → isFutureKey tz weeks cur k = false.
Proof.
  unfold isPastKey, isFutureKey. destruct (weekMap tz weeks !! k) as [[w j]|]; [|done].
  intros Hp%bool_decide_eq_true. apply bool_decide_eq_false. lia.
Qed.

Lemma isFutureKey_not_past k : isFutureKey tz weeks cur k = true → isPastKey tz weeks cur k = false.
Proof.
  unfold isPastKey, isFutureKey. destruct (weekMap tz weeks !! k) as [[w j]|]; [|done].
  intros Hp%bool_decide_eq_true. apply bool_decide_eq_false. lia.
Qed.

(** The future keys are exactly the keys of [planWeeks]. *)
Lemma isFutureKey_planWeeks k :
  isFutureKey tz weeks cur k = true ↔ k ∈ weekKey tz <$> drop cur weeks.
Proof.
  unfold isFutureKey. split.
  - destruct (weekMap tz weeks !! k) as [[w j]|] eqn:Hk; [|done].
    intros Hj%bool_decide_eq_true. apply weekMap_inv in Hk as [Hw <-].
    apply list_elem_of_fmap. exists w. split; [done|].
    apply list_elem_of_lookup. exists (j - cur)%nat.
    rewrite lookup_drop. by replace (cur + (j - cur))%nat with j by lia.
  - intros (w & -> & Hw)%list_elem_of_fmap.
    apply list_elem_of_lookup in Hw as [i Hi]. rewrite lookup_drop in Hi.
    apply weekMap_later in Hi as (w' & j & -> & Hj).
    apply bool_decide_eq_true. lia.
Qed.
End WeekMapFacts.

(* --------------------------------------------------------------------- *)
(** *** The stable sort                                                   *)

Section SortFacts.
Context {A : Type}.

Lemma insertSorted_perm (cmp : A → A → option Z) x l :
  insertSorted cmp x l ≡ₚ x :: l.
Proof.
  induction l as [|y l IH]; simpl; [done|].
  destruct (comesAfter cmp x y); [|done].
  rewrite IH. apply Permutation_swap.
Qed.

Lemma stableSort_perm (cmp : A → A → option Z) l : stableSort cmp l ≡ₚ l.
Proof.
  induction l as [|x l IH]; simpl; [done|].
  by rewrite insertSorted_perm, IH.
Qed.

Lemma insertSorted_ext (cmp cmp' : A → A → option Z) x l :
  (∀ a b, cmp a b = cmp' a b) → insertSorted cmp x l = insertSorted cmp' x l.
Proof.
  intros Hc. induction l as [|y l IH]; simpl; [done|].
  unfold comesAfter. rewrite Hc, IH. done.
Qed.

Lemma stableSort_ext (cmp cmp' : A → A → option Z) l :
  (∀ a b, cmp a b = cmp' a b) → stableSort cmp l = stableSort cmp' l.
Proof.
  intros Hc. induction l as [|x l IH]; simpl; [done|].
  rewrite IH. by apply insertSorted_ext.
Qed.
End SortFacts.

(* --------------------------------------------------------------------- *)
(** *** Records: what the passes keep                                     *)

Global Instance sameFixed_equiv : Equivalence sameFixed.
Proof.
  split.
  - by intros a.
  - intros a b (?&?&?&?&?&?). by repeat split.
  - intros a b c (?&?&?&?&?&?) (?&?&?&?&?&?). repeat split; congruence.
Qed.

Lemma chantier_eq (a b : Chantier) :
  sameFixed a b → planification a = planification b →
  ChargeRestante a = ChargeRestante b → tempsRestant a = tempsRestant b → a = b.
Proof.
  destruct a, b. intros (?&?&?&?&?&?) ? ? ?. simpl in *. by subst.
Qed.

Lemma isActive_fixed a b : sameFixed a b → isActive a = isActive b.
Proof. intros (_&_&Hs&_). unfold isActive. by rewrite Hs. Qed.

Lemma isSelected_fixed name a b : sameFixed a b → isSelected name a = isSelected name b.
Proof.
  intros H. unfold isSelected. rewrite (isActive_fixed a b H).
  destruct H as (_&_&_&_&_&->). done.
Qed.

Lemma Forall2_alter_self {A} (R : relation A) `{!Reflexive R} (f : A → A) i (l : list A) :
  (∀ x, l !! i = Some x → R x (f x)) → Forall2 R l (alter f i l).
Proof.
  intros Hf. apply Forall2_alter_r; [by apply Forall_Forall2_diag, Forall_forall|].
  intros x y Hx Hy _. assert (x = y) as <- by congruence. by apply Hf.
Qed.

Lemma foldl_rel {A B} (R : relation A) `{!PreOrder R} (f : A → B → A) (l : list B) (a : A) :
  (∀ a x, x ∈ l → R a (f a x)) → R a (foldl f a l).
Proof.
  revert a. induction l as [|x l IH]; intros a Hf; simpl; [done|].
  etrans; [apply (Hf a x); left|].
  apply IH. intros a' y Hy. apply Hf. by right.
Qed.

Lemma foldl_inv {A B} (P : A → Prop) (f : A → B → A) (l : list B) (a : A) :
  P a → (∀ a x, x ∈ l → P a → P (f a x)) → P (foldl f a l).
Proof.
  revert a. induction l as [|x l IH]; intros a Ha Hf; simpl; [done|].
  apply IH; [apply Hf; [left|done]|].
  intros a' y Hy. apply Hf. by right.
Qed.

Global Instance Forall2_preorder {A} (R : relation A) `{!PreOrder R} : PreOrder (Forall2 R).
Proof. split; apply _. Qed.

(* --------------------------------------------------------------------- *)
(** *** The selection of a resource's jobs                                *)

Section SelectionFacts.
Variable tz : Z.

Lemma chantierList_ext st st' name :
  Forall2 sameFixed st st' → chantierList tz st name = chantierList tz st' name.
Proof.
  intros HF. unfold chantierList.
  assert (Hsel : ∀ i, selectedAt st name i = selectedAt st' name i).
  { intros i. unfold selectedAt.
    destruct (st !! i) as [a|] eqn:Ha.
    - destruct (Forall2_lookup_l _ _ _ _ _ HF Ha) as (b & -> & Hab).
      by apply isSelected_fixed.
    - apply lookup_ge_None in Ha. rewrite (Forall2_length _ _ _ HF) in Ha.
      apply lookup_ge_None in Ha. by rewrite Ha. }
  assert (Hcmp : ∀ a b, compareAt tz st a b = compareAt tz st' a b).
  { intros a b. unfold compareAt.
    assert (Hend : ∀ i, endDate <$> st !! i = endDate <$> st' !! i).
    { intros i. destruct (st !! i) as [x|] eqn:Hx.
      - destruct (Forall2_lookup_l _ _ _ _ _ HF Hx) as (y & -> & Hxy).
        simpl. f_equal. apply Hxy.
      - apply lookup_ge_None in Hx. rewrite (Forall2_length _ _ _ HF) in Hx.
        apply lookup_ge_None in Hx. by rewrite Hx. }
    pose proof (Hend a) as Ha. pose proof (Hend b) as Hb.
    destruct (st !! a) as [x|], (st' !! a) as [x'|], (st !! b) as [y|], (st' !! b) as [y'|];
      simpl in *; try done.
    injection Ha as Ha. injection Hb as Hb.
    unfold compareEndDate. by rewrite Ha, Hb. }
  rewrite (Forall2_length _ _ _ HF).
  rewrite (stableSort_ext _ _ _ Hcmp). f_equal.
  apply list_filter_iff. intros i. by rewrite Hsel.
Qed.

Lemma chantierList_NoDup st name : NoDup (chantierList tz st name).
Proof.
  unfold chantierList. rewrite stableSort_perm.
  apply NoDup_filter, NoDup_seq.
Qed.

Lemma elem_of_chantierList st name i :
  i ∈ chantierList tz st name ↔ selectedAt st name i = true.
Proof.
  unfold chantierList. rewrite stableSort_perm, list_elem_of_filter, elem_of_seq.
  split; [tauto|]. intros Hs. split; [done|].
  unfold selectedAt in Hs. destruct (st !! i) eqn:Hi; [|done].
  apply lookup_lt_Some in Hi. lia.
Qed.

Lemma chantierList_lookup st name i :
  i ∈ chantierList tz st name →
  ∃ ch, st !! i = Some ch ∧ isSelected name ch = true.
Proof.
  rewrite elem_of_chantierList. unfold selectedAt.
  destruct (st !! i) as [ch|]; [eauto|done].
Qed.

Lemma chantierList_disjoint st n m i :
  n ≠ m → i ∈ chantierList tz st n → i ∈ chantierList tz st m → False.
Proof.
  intros Hnm (ch & Hi & Hn)%chantierList_lookup (ch' & Hi' & Hm)%chantierList_lookup.
  assert (ch' = ch) as -> by congruence.
  unfold isSelected in *.
  apply andb_true_iff in Hn as [Hn%bool_decide_eq_true _].
  apply andb_true_iff in Hm as [Hm%bool_decide_eq_true _]. congruence.
Qed.
End SelectionFacts.

(* --------------------------------------------------------------------- *)
(** *** The planning walk                                                 *)

Section PlanFacts.
Variables (tz : Z) (weeks : list Week) (cur : nat).

Local Abbreviation fut := (isFutureKey tz weeks cur).
Local Abbreviation past := (isPastKey tz weeks cur).

Global Instance planEvolves_preorder : PreOrder (planEvolves tz weeks cur).
Proof.
  split.
  - intros a. repeat split; done.
  - intros a b c (F1&C1&T1&K1&G1&S1) (F2&C2&T2&K2&G2&S2).
    split; [by etrans|]. split; [congruence|]. split; [congruence|].
    split; [|split].
    + intros k Hk. by rewrite K2, K1.
    + intros k. specialize (G1 k). specialize (G2 k). lia.
    + auto.
Qed.

Lemma planifOf_addPlan key t ch :
  planifOf (addPlan key t ch) = <[key := getPlan ch key + t]> (planifOf ch).
Proof. done. Qed.

Lemma getPlan_addPlan key t ch k :
  getPlan (addPlan key t ch) k = if decide (k = key) then getPlan ch key + t else getPlan ch k.
Proof.
  unfold getPlan at 1. rewrite planifOf_addPlan.
  destruct (decide (k = key)) as [->|Hne].
  - by rewrite lookup_insert_eq.
  - by rewrite lookup_insert_ne.
Qed.

Lemma addPlan_evolves key t ch :
  fut key = true → 0 ≤ t → planEvolves tz weeks cur ch (addPlan key t ch).
Proof.
  intros Hkey Ht. split; [done|]. split; [done|]. split; [done|].
  split; [|split].
  - intros k Hk. rewrite planifOf_addPlan, lookup_insert_ne; [done|]. congruence.
  - intros k. rewrite getPlan_addPlan. destruct (decide (k = key)) as [->|]; lia.
  - intros _. by eexists.
Qed.

Lemma futureSum_addPlan key t ch :
  fut key = true → futureSum tz weeks cur (addPlan key t ch) = futureSum tz weeks cur ch + t.
Proof.
  intros Hkey. unfold futureSum. rewrite planifOf_addPlan.
  rewrite map_filter_insert_True by done.
  rewrite sumValues_insert. rewrite map_lookup_filter.
  unfold getPlan. destruct (planifOf ch !! key) as [v|]; simpl.
  - rewrite option_guard_True by done. simpl. lia.
  - lia.
Qed.

Lemma planEvolves_pastPart a b :
  planEvolves tz weeks cur a b →
  filter (λ kv, past kv.1 = true) (planifOf b) = filter (λ kv, past kv.1 = true) (planifOf a).
Proof.
  intros (_&_&_&K&_). apply map_eq. intros k.
  rewrite !map_lookup_filter.
  destruct (past k) eqn:Hp.
  - rewrite K by by apply isPastKey_not_future. done.
  - destruct (planifOf b !! k), (planifOf a !! k); simpl;
      rewrite ?option_guard_False by (simpl; congruence); done.
Qed.

Variable dispo_map : gmap string Z.
Variable L : list nat.
Hypothesis L_NoDup : NoDup L.

Lemma total_sumZ st k : total L st k = sumZ ((λ c, getPlanAt st c k) <$> L).
Proof. unfold total. rewrite foldl_add_sumZ. lia. Qed.

Lemma total_alter f i st ch k :
  i ∈ L → st !! i = Some ch →
  total L (alter f i st) k = total L st k + (getPlan (f ch) k - getPlan ch k).
Proof.
  intros Hi Hch. rewrite !total_sumZ. clear dispo_map.
  induction L_NoDup as [|c l Hc Hnd IH]; [by apply elem_of_nil in Hi|].
  csimpl. destruct (decide (c = i)) as [->|Hne].
  - assert (Hrest : (λ c, getPlanAt (alter f i st) c k) <$> l = (λ c, getPlanAt st c k) <$> l).
    { apply list_fmap_ext. intros j c Hj. unfold getPlanAt.
      rewrite list_lookup_alter_ne; [done|].
      intros ->. apply Hc. by eapply list_elem_of_lookup_2. }
    rewrite Hrest. unfold getPlanAt at 1 3.
    rewrite list_lookup_alter_eq, Hch. simpl. lia.
  - apply elem_of_cons in Hi as [?|Hi]; [congruence|].
    rewrite IH by done. unfold getPlanAt at 1 3.
    rewrite list_lookup_alter_ne by done. lia.
Qed.

Lemma total_mono st st' k :
  Forall2 (planEvolves tz weeks cur) st st' → total L st k ≤ total L st' k.
Proof.
  intros HF. rewrite !total_sumZ. clear L_NoDup.
  induction L as [|c l IH]; csimpl; [done|].
  assert (getPlanAt st c k ≤ getPlanAt st' c k); [|lia].
  unfold getPlanAt. destruct (st !! c) as [a|] eqn:Ha.
  - destruct (Forall2_lookup_l _ _ _ _ _ HF Ha) as (b & -> & Hab).
    apply Hab.
  - apply lookup_ge_None in Ha. rewrite (Forall2_length _ _ _ HF) in Ha.
    apply lookup_ge_None in Ha. by rewrite Ha.
Qed.

(** The two ways a week of the walk ends: nothing is planned, or a
    positive [toPlan] is added to the job at [i]. *)
Lemma planWeek_cases i st r w :
  let key := weekKey tz w in
  let dispo := default 0 (dispo_map !! key) in
  (planWeek tz dispo_map L i (st, r) w = (st, r) ∧
   (r ≤ 0 ∨ dispo ≤ total L st key))
  ∨ (∃ t, 0 < t ∧ t ≤ r ∧ t ≤ dispo - total L st key ∧
          (t = r ∨ t = dispo - total L st key) ∧
          planWeek tz dispo_map L i (st, r) w = (alter (addPlan key t) i st, r - t)).
Proof.
  intros key dispo. unfold planWeek. fold key. fold (total L st key). fold dispo.
  destruct (r <=? 0) eqn:Hr.
  - left. split; [done|]. left. lia.
  - apply Z.leb_gt in Hr.
    destruct (0 <? Z.min r (Z.max 0 (dispo - total L st key))) eqn:Ht.
    + right. apply Z.ltb_lt in Ht.
      exists (Z.min r (Z.max 0 (dispo - total L st key))).
      split_and!; [done|lia|lia|lia|done].
    + left. apply Z.ltb_ge in Ht. split; [done|]. right. lia.
Qed.

Lemma walk_spec i ws :
  Forall (λ w, fut (weekKey tz w) = true) ws → i ∈ L →
  ∀ st r ch, st !! i = Some ch →
  ∃ st' r' ch',
    foldl (planWeek tz dispo_map L i) (st, r) ws = (st', r') ∧
    Forall2 (planEvolves tz weeks cur) st st' ∧
    (∀ j, j ≠ i → st' !! j = st !! j) ∧
    st' !! i = Some ch' ∧
    r' ≤ r ∧ (r ≤ 0 → r' = r) ∧ (0 < r → 0 ≤ r') ∧
    futureSum tz weeks cur ch' + r' = futureSum tz weeks cur ch + r ∧
    (withinCapacity tz weeks cur dispo_map L st → withinCapacity tz weeks cur dispo_map L st') ∧
    (0 < r' → saturated tz dispo_map L ws st').
Proof.
  intros Hws Hi. induction Hws as [|w ws Hw Hws IH]; intros st r ch Hch.
  - exists st, r, ch. simpl. split_and!; try done; try lia.
    intros _ w Hw. by apply elem_of_nil in Hw.
  - cbn [foldl].
    destruct (planWeek_cases i st r w) as [[-> Hnone]|(t & Ht0 & Htr & Htfree & Hteq & ->)].
    + destruct (IH st r ch Hch) as (st' & r' & ch' & Hfold & Hev & Hfr & Hch' & Hle & Hneg & Hpos & Hfs & Hcap & Hsat).
      exists st', r', ch'. split_and!; try done.
      intros Hr' w' [->|Hw']%elem_of_cons; [|by apply Hsat].
      destruct Hnone as [?|Hfull]; [lia|].
      etrans; [apply Hfull|]. by apply total_mono.
    + set (key := weekKey tz w) in *.
      set (st1 := alter (addPlan key t) i st).
      assert (Hev1 : Forall2 (planEvolves tz weeks cur) st st1).
      { apply Forall2_alter_self; [apply _|]. intros x _. apply addPlan_evolves; [done|lia]. }
      assert (Hch1 : st1 !! i = Some (addPlan key t ch)).
      { unfold st1. by rewrite list_lookup_alter_eq, Hch. }
      assert (Htot1 : total L st1 key = total L st key + t).
      { unfold st1. rewrite (total_alter _ i st ch) by done.
        rewrite getPlan_addPlan, decide_True by done. lia. }
      destruct (IH st1 (r - t) _ Hch1) as (st' & r' & ch' & Hfold & Hev & Hfr & Hch' & Hle & Hneg & Hpos & Hfs & Hcap & Hsat).
      exists st', r', ch'. split_and!; try done.
      * by etrans.
      * intros j Hj. rewrite Hfr by done. unfold st1. by rewrite list_lookup_alter_ne.
      * lia.
      * lia.
      * intros ?. destruct (decide (0 < r - t)); [by apply Hpos|].
        rewrite Hneg by lia. lia.
      * rewrite Hfs, futureSum_addPlan by done. lia.
      * intros Hc. apply Hcap. intros k Hk.
        unfold st1. rewrite (total_alter _ i st ch) by done.
        rewrite getPlan_addPlan. specialize (Hc k Hk).
        destruct (decide (k = key)) as [->|]; lia.
      * intros Hr' w' [->|Hw']%elem_of_cons; [|by apply Hsat].
        fold key. etrans; [|apply (total_mono _ _ _ Hev)].
        rewrite Htot1.
        destruct Hteq as [-> | ->]; [|lia].
        destruct (decide (0 < r - r)); [lia|]. rewrite Hneg in Hr' by lia. lia.
Qed.

Lemma planWeeks_future :
  Forall (λ w, fut (weekKey tz w) = true) (drop cur weeks).
Proof.
  apply Forall_forall. intros w Hw. apply isFutureKey_planWeeks.
  by apply list_elem_of_fmap_2.
Qed.

Lemma planJob_spec i st ch :
  i ∈ L → st !! i = Some ch →
  let st' := planJob tz weeks cur dispo_map L st i in
  Forall2 (planEvolves tz weeks cur) st st' ∧
  (∀ j, j ≠ i → st' !! j = st !! j) ∧
  (withinCapacity tz weeks cur dispo_map L st → withinCapacity tz weeks cur dispo_map L st') ∧
  ∃ ch', st' !! i = Some ch' ∧ jobPlanned tz weeks cur dispo_map L st' ch ch'.
Proof.
  intros Hi Hch. unfold planJob. rewrite Hch.
  destruct (walk_spec i (drop cur weeks) planWeeks_future Hi st
              (prepTime ch - sumValues (planifOf ch)) ch Hch)
    as (st' & r' & ch' & -> & Hev & Hfr & Hch' & Hle & Hneg & Hpos & Hfs & Hcap & Hsat).
  simpl. split_and!; try done.
  exists ch'. split; [done|]. exists r'. split_and!; done.
Qed.

Lemma saturated_mono ws st st' :
  Forall2 (planEvolves tz weeks cur) st st' → saturated tz dispo_map L ws st → saturated tz dispo_map L ws st'.
Proof.
  intros Hev Hs w Hw. etrans; [by apply Hs|]. by apply total_mono.
Qed.

Lemma planJobs_spec (L' : list nat) :
  NoDup L' → L' ⊆ L →
  ∀ st, (∀ i, i ∈ L' → is_Some (st !! i)) →
  let st' := foldl (planJob tz weeks cur dispo_map L) st L' in
  Forall2 (planEvolves tz weeks cur) st st' ∧
  (∀ j, j ∉ L' → st' !! j = st !! j) ∧
  (withinCapacity tz weeks cur dispo_map L st → withinCapacity tz weeks cur dispo_map L st') ∧
  (∀ i ch, i ∈ L' → st !! i = Some ch →
     ∃ ch', st' !! i = Some ch' ∧ planEvolves tz weeks cur ch ch' ∧ jobPlanned tz weeks cur dispo_map L st' ch ch').
Proof.
  intros Hnd. induction Hnd as [|i l Hi Hnd IH]; intros Hsub st Hsome.
  - simpl. split_and!; try done. intros i ch Hi. by apply elem_of_nil in Hi.
  - simpl.
    destruct (Hsome i) as [ch Hch]; [left|].
    destruct (planJob_spec i st ch) as (Hev1 & Hfr1 & Hcap1 & ch1 & Hch1 & Hjob1);
      [apply Hsub; left|done|].
    set (st1 := planJob tz weeks cur dispo_map L st i) in *.
    destruct (IH (λ x Hx, Hsub x (list_elem_of_further _ _ _ Hx)) st1) as (Hev & Hfr & Hcap & Hjobs).
    { intros j Hj. rewrite Hfr1 by (intros ->; done). apply Hsome. by right. }
    split_and!.
    + by etrans.
    + intros j Hj. apply not_elem_of_cons in Hj as [Hji Hjl].
      rewrite Hfr by done. by apply Hfr1.
    + auto.
    + intros j cj [->|Hj]%elem_of_cons Hcj.
      * assert (cj = ch) as -> by congruence.
        exists ch1. rewrite Hfr by done. split; [done|]. split.
        { destruct (Forall2_lookup_l _ _ _ _ _ Hev1 Hch) as (y & Hy & Hxy). congruence. }
        destruct Hjob1 as (rf & ? & ? & ? & ? & Hsat).
        exists rf. split_and!; try done.
        intros Hrf. eapply saturated_mono; [done|]. by apply Hsat.
      * apply Hjobs; [done|]. rewrite Hfr1; [done|]. intros ->. done.
Qed.
End PlanFacts.

(* --------------------------------------------------------------------- *)
(** *** The reset of the future part, and one resource                    *)

Section ResourceFacts.
Variables (tz : Z) (weeks : list Week) (cur : nat).

Local Abbreviation fut := (isFutureKey tz weeks cur).
Local Abbreviation past := (isPastKey tz weeks cur).

Global Instance sameOwner_preorder : PreOrder sameOwner.
Proof.
  split.
  - by intros a.
  - intros a b c [? ?] [? ?]. split; [by etrans|congruence].
Qed.

Lemma planEvolves_sameOwner a b : planEvolves tz weeks cur a b → sameOwner a b.
Proof. intros (?&_&?&_). by split. Qed.

Lemma planifOf_resetJob ch :
  planifOf (resetJob tz weeks cur ch) = filter (λ kv, past kv.1 = true) (planifOf ch).
Proof. done. Qed.

Lemma resetJob_sameOwner ch : sameOwner ch (resetJob tz weeks cur ch).
Proof. by split. Qed.

Lemma getPlan_resetJob_future ch k :
  fut k = true → getPlan (resetJob tz weeks cur ch) k = 0.
Proof.
  intros Hk. unfold getPlan. rewrite planifOf_resetJob.
  rewrite map_lookup_filter_None_2; [done|].
  right. intros x _. simpl. rewrite isFutureKey_not_past; done.
Qed.

Lemma futureSum_resetJob ch : futureSum tz weeks cur (resetJob tz weeks cur ch) = 0.
Proof.
  unfold futureSum. rewrite planifOf_resetJob.
  replace (filter (λ kv : string * Z, fut kv.1 = true)
             (filter (λ kv : string * Z, past kv.1 = true) (planifOf ch)))
    with (∅ : gmap string Z); [apply sumValues_empty|].
  symmetry. apply map_eq. intros k. rewrite lookup_empty.
  apply map_lookup_filter_None_2.
  destruct (fut k) eqn:Hk.
  - left. apply map_lookup_filter_None_2. right. intros x _. simpl.
    by rewrite isFutureKey_not_past.
  - right. intros x _. simpl. congruence.
Qed.

Lemma pastPart_idem (m : gmap string Z) :
  filter (λ kv, past kv.1 = true) (filter (λ kv, past kv.1 = true) m)
  = filter (λ kv, past kv.1 = true) m.
Proof.
  apply map_filter_id. intros k v Hk.
  by apply map_lookup_filter_Some in Hk as [_ ?].
Qed.

Lemma sumValues_resetJob ch :
  sumValues (planifOf (resetJob tz weeks cur ch)) = pastSum tz weeks cur ch.
Proof. done. Qed.

Lemma pastSum_resetJob ch :
  pastSum tz weeks cur (resetJob tz weeks cur ch) = pastSum tz weeks cur ch.
Proof. unfold pastSum. by rewrite planifOf_resetJob, pastPart_idem. Qed.

Lemma pastSum_planEvolves a b :
  planEvolves tz weeks cur a b → pastSum tz weeks cur b = pastSum tz weeks cur a.
Proof. intros H. unfold pastSum. by rewrite (planEvolves_pastPart _ _ _ _ _ H). Qed.

(** Resetting depends on the past part of the plan only. *)
Lemma resetJob_planEvolves a b :
  planEvolves tz weeks cur a b → resetJob tz weeks cur b = resetJob tz weeks cur a.
Proof.
  intros H. pose proof (planEvolves_pastPart _ _ _ _ _ H) as Hp.
  destruct H as (HF & _ & HT & _).
  apply chantier_eq; simpl.
  - symmetry. apply HF.
  - by rewrite Hp.
  - rewrite Hp. destruct HF as (_&_&_&->&_). done.
  - done.
Qed.

Lemma resetJob_idem ch :
  resetJob tz weeks cur (resetJob tz weeks cur ch) = resetJob tz weeks cur ch.
Proof.
  apply chantier_eq; simpl; try done.
  - by rewrite planifOf_resetJob, pastPart_idem.
  - by rewrite planifOf_resetJob, pastPart_idem.
Qed.

Lemma resetAll_lookup L st j :
  NoDup L →
  resetAll tz weeks cur L st !! j
  = if decide (j ∈ L) then resetJob tz weeks cur <$> st !! j else st !! j.
Proof.
  intros Hnd. revert st. induction Hnd as [|i l Hi Hnd IH]; intros st; simpl.
  - done.
  - rewrite IH. destruct (decide (j = i)) as [->|Hne].
    + rewrite list_lookup_alter_eq.
      repeat case_decide; try done. exfalso. auto using list_elem_of_here.
    + rewrite list_lookup_alter_ne by done.
      repeat case_decide; try done.
      * exfalso. auto using list_elem_of_further.
      * exfalso. match goal with H : j ∈ i :: l |- _ => apply elem_of_cons in H as [?|?] end; auto.
Qed.

Lemma resetAll_sameOwner L st : Forall2 sameOwner st (resetAll tz weeks cur L st).
Proof.
  unfold resetAll. apply (foldl_rel (Forall2 sameOwner)).
  intros a i _. apply Forall2_alter_self; [apply _|].
  intros x _. apply resetJob_sameOwner.
Qed.

Variable data : Data.

Lemma processResource_eq st name :
  processResource tz weeks cur data st name
  = planAll tz weeks cur (dispoParSemaine tz weeks data name) (chantierList tz st name)
      (resetAll tz weeks cur (chantierList tz st name) st).
Proof. unfold processResource. by destruct (chantierList tz st name). Qed.

Lemma Forall2_sameOwner_lookup st st' i :
  Forall2 sameOwner st st' → is_Some (st !! i) → is_Some (st' !! i).
Proof.
  intros HF [x Hx]. destruct (Forall2_lookup_l _ _ _ _ _ HF Hx) as (y & -> & _). done.
Qed.

(** Everything the pass for [name] establishes. *)
Lemma processResource_spec st name :
  let L := chantierList tz st name in
  let d := dispoParSemaine tz weeks data name in
  let st' := processResource tz weeks cur data st name in
  Forall2 sameOwner st st' ∧
  (∀ j, j ∉ L → st' !! j = st !! j) ∧
  withinCapacity tz weeks cur d L st' ∧
  (∀ i ch, i ∈ L → st !! i = Some ch →
     ∃ ch', st' !! i = Some ch' ∧
            planEvolves tz weeks cur (resetJob tz weeks cur ch) ch' ∧
            jobPlanned tz weeks cur d L st' (resetJob tz weeks cur ch) ch').
Proof.
  intros L d st'. unfold st'. rewrite processResource_eq. fold L. fold d.
  pose proof (chantierList_NoDup tz st name) as Hnd. fold L in Hnd.
  set (st0 := resetAll tz weeks cur L st).
  assert (Hst0 : ∀ i ch, i ∈ L → st !! i = Some ch →
                          st0 !! i = Some (resetJob tz weeks cur ch)).
  { intros i ch Hi Hch. unfold st0.
    by rewrite resetAll_lookup, decide_True, Hch. }
  assert (Hsome : ∀ i, i ∈ L → is_Some (st0 !! i)).
  { intros i Hi. destruct (chantierList_lookup tz st name i Hi) as (ch & Hch & _).
    rewrite (Hst0 i ch) by done. by eexists. }
  assert (Hcap0 : withinCapacity tz weeks cur d L st0).
  { intros k Hk. rewrite total_sumZ.
    assert (sumZ ((λ c, getPlanAt st0 c k) <$> L) = 0) as ->; [|lia].
    assert (Hzero : ∀ c, c ∈ L → getPlanAt st0 c k = 0).
    { intros c Hc. destruct (chantierList_lookup tz st name c Hc) as (ch & Hch & _).
      unfold getPlanAt. rewrite (Hst0 c ch) by done.
      by apply getPlan_resetJob_future. }
    by apply sumZ_zero. }
  destruct (planJobs_spec tz weeks cur d L Hnd L Hnd (reflexivity _) st0 Hsome)
    as (Hev & Hfr & Hcap & Hjobs).
  split_and!.
  - etrans; [apply resetAll_sameOwner|].
    eapply Forall2_impl; [apply Hev|]. apply planEvolves_sameOwner.
  - intros j Hj. unfold planAll. rewrite Hfr by done.
    unfold st0. by rewrite resetAll_lookup, decide_False.
  - by apply Hcap.
  - intros i ch Hi Hch. apply Hjobs; [done|]. by apply Hst0.
Qed.
End ResourceFacts.

(* --------------------------------------------------------------------- *)
(** *** The pass for a resource reads and writes its own jobs only        *)

Section Locality.
Variables (tz : Z) (weeks : list Week) (cur : nat).

(** [g] is a change of record that the pass neither sees nor undoes. *)
Variable g : Chantier → Chantier.
Hypothesis g_plan : ∀ ch, planification (g ch) = planification ch.
Hypothesis g_prep : ∀ ch, prepTime (g ch) = prepTime ch.
Hypothesis g_add : ∀ k t ch, g (addPlan k t ch) = addPlan k t (g ch).
Hypothesis g_reset : ∀ ch, g (resetJob tz weeks cur ch) = resetJob tz weeks cur (g ch).

Variable L : list nat.

Lemma related_alter h i st st' :
  (∀ ch, g (h ch) = h (g ch)) → related g L st st' →
  related g L (alter h i st) (alter h i st').
Proof.
  intros Hh [Hlen Hrel]. split; [by rewrite !length_alter|].
  intros j Hj. destruct (decide (i = j)) as [->|Hne].
  - rewrite !list_lookup_alter_eq, Hrel by done.
    destruct (st !! j); simpl; [|done]. by rewrite Hh.
  - rewrite !list_lookup_alter_ne by done. by apply Hrel.
Qed.

Lemma getPlan_g ch k : getPlan (g ch) k = getPlan ch k.
Proof. unfold getPlan, planifOf. by rewrite g_plan. Qed.

Lemma related_total st st' k : related g L st st' → total L st' k = total L st k.
Proof.
  intros [_ Hrel]. rewrite !total_sumZ. f_equal.
  apply list_fmap_ext. intros j c Hc. unfold getPlanAt.
  rewrite Hrel by by eapply list_elem_of_lookup_2.
  destruct (st !! c); simpl; [apply getPlan_g|done].
Qed.

Variable dispo_map : gmap string Z.

Lemma related_planWeek i st st' r w :
  related g L st st' →
  related g L (planWeek tz dispo_map L i (st, r) w).1 (planWeek tz dispo_map L i (st', r) w).1 ∧
  (planWeek tz dispo_map L i (st, r) w).2 = (planWeek tz dispo_map L i (st', r) w).2.
Proof.
  intros Hrel. unfold planWeek.
  fold (total L st (weekKey tz w)). fold (total L st' (weekKey tz w)).
  rewrite (related_total st st') by done.
  destruct (r <=? 0); [done|].
  destruct (0 <? _); [|done]. simpl. split; [|done].
  by apply related_alter.
Qed.

Lemma related_walk i ws st st' r :
  related g L st st' →
  related g L (foldl (planWeek tz dispo_map L i) (st, r) ws).1
          (foldl (planWeek tz dispo_map L i) (st', r) ws).1.
Proof.
  revert st st' r. induction ws as [|w ws IH]; intros st st' r Hrel; [done|].
  cbn [foldl].
  destruct (related_planWeek i st st' r w Hrel) as [H1 H2].
  destruct (planWeek tz dispo_map L i (st, r) w) as [a r1].
  destruct (planWeek tz dispo_map L i (st', r) w) as [b r2].
  simpl in *. subst r2. by apply IH.
Qed.

Lemma related_planJob i st st' :
  i ∈ L → related g L st st' →
  related g L (planJob tz weeks cur dispo_map L st i) (planJob tz weeks cur dispo_map L st' i).
Proof.
  intros Hi Hrel. unfold planJob. destruct Hrel as [Hlen Hrel'].
  rewrite (Hrel' i Hi). destruct (st !! i) as [ch|]; simpl; [|done].
  unfold planifOf. rewrite g_plan, g_prep. by apply related_walk.
Qed.

Lemma related_planJobs L' st st' :
  L' ⊆ L → related g L st st' →
  related g L (foldl (planJob tz weeks cur dispo_map L) st L')
          (foldl (planJob tz weeks cur dispo_map L) st' L').
Proof.
  revert st st'. induction L' as [|i l IH]; intros st st' Hsub Hrel; [done|].
  simpl. apply IH.
  - intros x Hx. apply Hsub. by right.
  - apply related_planJob; [apply Hsub; left|done].
Qed.

Lemma related_resetAll L' st st' :
  related g L st st' →
  related g L (resetAll tz weeks cur L' st) (resetAll tz weeks cur L' st').
Proof.
  revert st st'. induction L' as [|i l IH]; intros st st' Hrel; [done|].
  simpl. apply IH. by apply related_alter.
Qed.

Lemma related_pass st st' :
  related g L st st' →
  related g L (planAll tz weeks cur dispo_map L (resetAll tz weeks cur L st))
          (planAll tz weeks cur dispo_map L (resetAll tz weeks cur L st')).
Proof.
  intros Hrel. apply related_planJobs; [done|]. by apply related_resetAll.
Qed.
End Locality.

(* --------------------------------------------------------------------- *)
(** *** All resources, and the whole run                                  *)

Lemma foldl_commute {A B} (f : A → B → A) (x : B) (l : list B) (a : A) :
  (∀ a y, f (f a x) y = f (f a y) x) →
  f (foldl f a l) x = foldl f (f a x) l.
Proof.
  intros Hc. revert a. induction l as [|y l IH]; intros a; simpl; [done|].
  by rewrite IH, Hc.
Qed.

Lemma foldl_idem {A B} (f : A → B → A) (l : list B) (a : A) :
  (∀ a x, f (f a x) x = f a x) →
  (∀ a x y, f (f a x) y = f (f a y) x) →
  foldl f (foldl f a l) l = foldl f a l.
Proof.
  intros Hi Hc. revert a. induction l as [|x l IH]; intros a; simpl; [done|].
  rewrite (foldl_commute f x l (f a x)) by (intros; apply Hc).
  by rewrite Hi, IH.
Qed.

Section RunFacts.
Variables (tz : Z) (weeks : list Week) (cur : nat) (data : Data).

Local Abbreviation pass := (processResource tz weeks cur data).

Lemma pass_length st name : length (pass st name) = length st.
Proof.
  destruct (processResource_spec tz weeks cur data st name) as (HF & _).
  symmetry. by eapply Forall2_length.
Qed.

Lemma pass_sameFixed st name : Forall2 sameFixed st (pass st name).
Proof.
  destruct (processResource_spec tz weeks cur data st name) as (HF & _).
  eapply Forall2_impl; [apply HF|]. by intros a b [? _].
Qed.

Lemma pass_chantierList st name m :
  chantierList tz (pass st name) m = chantierList tz st m.
Proof. symmetry. apply chantierList_ext, pass_sameFixed. Qed.

Lemma pass_frame st name j :
  j ∉ chantierList tz st name → pass st name !! j = st !! j.
Proof.
  destruct (processResource_spec tz weeks cur data st name) as (_ & Hfr & _). apply Hfr.
Qed.

Lemma related_id_pass L d st st' :
  related id L st st' →
  related id L (planAll tz weeks cur d L (resetAll tz weeks cur L st))
               (planAll tz weeks cur d L (resetAll tz weeks cur L st')).
Proof. by apply related_pass. Qed.

Lemma pass_idem st name : pass (pass st name) name = pass st name.
Proof.
  rewrite (processResource_eq _ _ _ _ (pass st name)), pass_chantierList.
  rewrite (processResource_eq _ _ _ _ st) at 2.
  set (L := chantierList tz st name). f_equal.
  pose proof (chantierList_NoDup tz st name) as Hnd. fold L in Hnd.
  apply list_eq. intros j. rewrite !resetAll_lookup by done.
  destruct (decide (j ∈ L)) as [Hj|Hj]; [|by apply pass_frame].
  destruct (chantierList_lookup tz st name j Hj) as (ch & Hch & _).
  destruct (processResource_spec tz weeks cur data st name) as (_ & _ & _ & Hjobs).
  destruct (Hjobs j ch Hj Hch) as (ch' & -> & Hev & _).
  rewrite Hch. simpl. f_equal.
  by rewrite (resetJob_planEvolves _ _ _ _ _ Hev), resetJob_idem.
Qed.

Lemma pass_comm st n m : pass (pass st n) m = pass (pass st m) n.
Proof.
  destruct (decide (n = m)) as [->|Hnm]; [done|].
  assert (Hside : ∀ a b, a ≠ b → ∀ j, j ∈ chantierList tz st a →
            pass (pass st b) a !! j = pass st a !! j).
  { intros a b Hab j Hj.
    rewrite (processResource_eq _ _ _ _ (pass st b)), pass_chantierList.
    rewrite (processResource_eq _ _ _ _ st a).
    assert (Hrel : related id (chantierList tz st a) st (pass st b)).
    { split; [by rewrite pass_length|]. intros i Hi.
      rewrite pass_frame; [by rewrite option_fmap_id|].
      intros Hi'. by apply (chantierList_disjoint tz st a b i). }
    apply (related_id_pass _ (dispoParSemaine tz weeks data a)) in Hrel.
    destruct Hrel as [_ Hrel]. rewrite (Hrel j Hj). by rewrite option_fmap_id. }
  apply list_eq. intros j.
  destruct (decide (j ∈ chantierList tz st m)) as [Hm|Hm].
  - rewrite (Hside m n (not_eq_sym Hnm) j Hm).
    rewrite (pass_frame (pass st m) n); [done|].
    rewrite pass_chantierList. intros Hn.
    by apply (chantierList_disjoint tz st n m j).
  - rewrite (pass_frame (pass st n) m) by by rewrite pass_chantierList.
    destruct (decide (j ∈ chantierList tz st n)) as [Hn|Hn].
    + by rewrite (Hside n m Hnm j Hn).
    + rewrite (pass_frame (pass st m) n) by by rewrite pass_chantierList.
      by rewrite !pass_frame.
Qed.

Lemma passes_idem st names :
  foldl pass (foldl pass st names) names = foldl pass st names.
Proof. apply foldl_idem; [apply pass_idem|apply pass_comm]. Qed.

Lemma passes_sameOwner st names : Forall2 (sameOwner) st (foldl pass st names).
Proof.
  apply (foldl_rel (Forall2 sameOwner)). intros a n _.
  by destruct (processResource_spec tz weeks cur data a n) as (HF & _).
Qed.

(** A job that is not active is never touched by the passes. *)
Lemma passes_inactive st names j ch :
  st !! j = Some ch → isActive ch = false → foldl pass st names !! j = Some ch.
Proof.
  intros Hch Hact. revert st Hch. induction names as [|n names IH]; intros st Hch; [done|].
  simpl. apply IH. rewrite pass_frame; [done|].
  intros (ch' & Hch' & Hsel)%chantierList_lookup.
  assert (ch' = ch) as -> by congruence.
  unfold isSelected in Hsel. rewrite Hact in Hsel. by rewrite andb_false_r in Hsel.
Qed.

(** The cleanup commutes with the passes. *)
Local Abbreviation cleanup := (set_tempsRestant None).

Lemma cleanup_sameFixed st : Forall2 sameFixed st (cleanup <$> st).
Proof. apply Forall2_fmap_r, Forall_Forall2_diag, Forall_forall. by intros ch _. Qed.

Lemma pass_cleanup st name : pass (cleanup <$> st) name = cleanup <$> pass st name.
Proof.
  rewrite (processResource_eq _ _ _ _ (cleanup <$> st)).
  rewrite <- (chantierList_ext tz st (cleanup <$> st) name (cleanup_sameFixed st)).
  set (L := chantierList tz st name).
  assert (Hrel : related cleanup L st (cleanup <$> st)).
  { split; [by rewrite length_fmap|]. intros i _. by rewrite list_lookup_fmap. }
  apply (related_pass tz weeks cur cleanup) with (dispo_map := dispoParSemaine tz weeks data name)
    in Hrel; try done.
  destruct Hrel as [Hlen Hrel].
  apply list_eq. intros j. rewrite list_lookup_fmap.
  destruct (decide (j ∈ L)) as [Hj|Hj].
  - rewrite (Hrel j Hj). by rewrite (processResource_eq _ _ _ _ st name).
  - rewrite pass_frame by done.
    pose proof (chantierList_NoDup tz st name) as Hnd. fold L in Hnd.
    destruct (planJobs_spec tz weeks cur (dispoParSemaine tz weeks data name) L Hnd L Hnd
                (reflexivity _) (resetAll tz weeks cur L (cleanup <$> st))) as (_ & Hfr & _).
    { intros i Hi. destruct (chantierList_lookup tz st name i Hi) as (ch & Hch & _).
      rewrite resetAll_lookup, decide_True, list_lookup_fmap, Hch by done. by eexists. }
    unfold planAll. rewrite Hfr by done.
    by rewrite resetAll_lookup, decide_False, list_lookup_fmap.
Qed.

Lemma passes_cleanup st names :
  foldl pass (cleanup <$> st) names = cleanup <$> foldl pass st names.
Proof.
  revert st. induction names as [|n names IH]; intros st; [done|].
  simpl. by rewrite pass_cleanup, IH.
Qed.

(** Deprogramming. *)
Lemma deprogram_active ch : isActive ch = true → deprogram tz weeks cur ch = ch.
Proof. intros H. unfold deprogram. by rewrite H. Qed.

Lemma deprogram_isActive ch : isActive (deprogram tz weeks cur ch) = isActive ch.
Proof.
  unfold deprogram. destruct (isActive ch) eqn:H; simpl; [done|].
  by destruct (planification ch).
Qed.

Lemma deprogram_idem ch :
  deprogram tz weeks cur (deprogram tz weeks cur ch) = deprogram tz weeks cur ch.
Proof.
  unfold deprogram at 1. rewrite deprogram_isActive.
  destruct (isActive ch) eqn:Hact; simpl; [done|].
  unfold deprogram. rewrite Hact. simpl.
  destruct (planification ch) as [p|] eqn:Hp; simpl; [|by rewrite Hp].
  unfold set_planification. simpl. do 2 f_equal.
  apply map_filter_id. intros k v Hk.
  by apply map_lookup_filter_Some in Hk as [_ ?].
Qed.

Lemma deprogram_cleanup ch :
  deprogram tz weeks cur (cleanup ch) = cleanup (deprogram tz weeks cur ch).
Proof.
  unfold deprogram. change (isActive (cleanup ch)) with (isActive ch).
  destruct (isActive ch); simpl; [done|]. by destruct (planification ch).
Qed.

Lemma runBody_idem st : runBody tz weeks cur data (runBody tz weeks cur data st) = runBody tz weeks cur data st.
Proof.
  unfold runBody at 1.
  set (names := fst <$> data).
  set (st1 := deprogram tz weeks cur <$> st).
  assert (Hdep : deprogram tz weeks cur <$> runBody tz weeks cur data st = runBody tz weeks cur data st).
  { unfold runBody. fold names. fold st1.
    apply list_eq. intros j. rewrite !list_lookup_fmap.
    destruct (foldl pass st1 names !! j) as [y|] eqn:Hy; simpl; [|done].
    f_equal. rewrite deprogram_cleanup. f_equal.
    destruct (isActive y) eqn:Hact; [by apply deprogram_active|].
    destruct (Forall2_lookup_r _ _ _ _ _ (passes_sameOwner st1 names) Hy) as (x & Hx & [Hxy _]).
    assert (isActive x = false) as Hx' by by rewrite (isActive_fixed x y).
    rewrite (passes_inactive st1 names j x Hx Hx') in Hy. injection Hy as <-.
    unfold st1 in Hx. rewrite list_lookup_fmap in Hx.
    destruct (st !! j) as [ch|]; simplify_eq/=. apply deprogram_idem. }
  rewrite Hdep. unfold runBody. fold names. fold st1.
  by rewrite passes_cleanup, passes_idem, <- list_fmap_compose.
Qed.
End RunFacts.

(* --------------------------------------------------------------------- *)
(** *** What every resource's jobs satisfy after the run                  *)

Section Outcome.
Variables (tz : Z) (weeks : list Week) (cur : nat) (data : Data).

Local Abbreviation fut := (isFutureKey tz weeks cur).
Local Abbreviation pass := (processResource tz weeks cur data).

Lemma pass_ok st name : resourceOK tz weeks cur data name (pass st name).
Proof.
  unfold resourceOK. rewrite pass_chantierList.
  destruct (processResource_spec tz weeks cur data st name) as (_ & _ & Hcap & Hjobs).
  split; [done|]. intros i ch' Hi Hch'.
  destruct (chantierList_lookup tz st name i Hi) as (ch & Hch & _).
  destruct (Hjobs i ch Hi Hch) as (ch'' & Hch'' & Hev & rf & Hfs & Hle & Hneg & Hpos & Hsat).
  assert (ch'' = ch') as -> by congruence.
  rewrite futureSum_resetJob, sumValues_resetJob in *.
  change (prepTime (resetJob tz weeks cur ch)) with (prepTime ch) in *.
  assert (Hrem : remainder tz weeks cur ch' = Z.max 0 (prepTime ch - pastSum tz weeks cur ch)).
  { unfold remainder. rewrite (pastSum_planEvolves _ _ _ _ _ Hev), pastSum_resetJob.
    destruct Hev as ((_&_&_&<-&_)&_). done. }
  rewrite Hrem. split_and!.
  - intros k Hk. destruct Hev as (_&_&_&_&Hmono&_).
    specialize (Hmono k). rewrite getPlan_resetJob_future in Hmono; done.
  - lia.
  - intros Hlt. apply Hsat. lia.
Qed.

Lemma samePlanOn_total L st st' k :
  samePlanOn L st st' → total L st' k = total L st k.
Proof.
  intros [_ Hp]. rewrite !total_sumZ. f_equal. apply list_fmap_ext.
  intros j c Hc. unfold getPlanAt.
  specialize (Hp c (list_elem_of_lookup_2 _ _ _ Hc)).
  destruct (st' !! c) as [a|], (st !! c) as [b|]; simplify_eq/=; try done.
  unfold getPlan, planifOf. congruence.
Qed.

Lemma resourceOK_samePlan name st st' :
  samePlanOn (chantierList tz st name) st st' →
  resourceOK tz weeks cur data name st → resourceOK tz weeks cur data name st'.
Proof.
  intros Hsame [Hcap Hjobs]. unfold resourceOK.
  rewrite <- (chantierList_ext tz st st' name) by apply Hsame.
  set (L := chantierList tz st name) in *.
  set (d := dispoParSemaine tz weeks data name) in *.
  split.
  - intros k Hk. rewrite (samePlanOn_total L st st') by done. by apply Hcap.
  - intros i ch' Hi Hch'. pose proof Hsame as [HF Hp].
    destruct (Forall2_lookup_r _ _ _ _ _ HF Hch') as (ch & Hch & Hfix).
    specialize (Hp i Hi). rewrite Hch, Hch' in Hp. simpl in Hp. injection Hp as Hp.
    destruct (Hjobs i ch Hi Hch) as (Hnn & Hle & Hsat).
    assert (Hpo : planifOf ch' = planifOf ch) by (unfold planifOf; congruence).
    assert (Hfs : futureSum tz weeks cur ch' = futureSum tz weeks cur ch)
      by (unfold futureSum; congruence).
    assert (Hrem : remainder tz weeks cur ch' = remainder tz weeks cur ch).
    { unfold remainder, pastSum. rewrite Hpo. destruct Hfix as (_&_&_&->&_). done. }
    rewrite Hfs, Hrem. split_and!.
    + intros k Hk. unfold getPlan. rewrite Hpo. by apply Hnn.
    + done.
    + intros Hlt w Hw. rewrite (samePlanOn_total L st st') by done.
      by apply Hsat.
Qed.

Lemma passes_preserve name st names :
  name ∉ names → resourceOK tz weeks cur data name st → resourceOK tz weeks cur data name (foldl pass st names).
Proof.
  intros Hn Hok0. apply foldl_inv; [done|]. intros a m Hm Hok.
  eapply resourceOK_samePlan; [|done]. split; [apply pass_sameFixed|].
  intros i Hi. rewrite pass_frame; [done|].
  intros Hi'. apply (chantierList_disjoint tz a name m i); [|done|done].
  intros ->. done.
Qed.

Lemma passes_ok name st names :
  name ∈ names → resourceOK tz weeks cur data name (foldl pass st names).
Proof.
  revert st. induction names as [|m names IH]; intros st Hn; [by apply elem_of_nil in Hn|].
  simpl. destruct (decide (name ∈ names)) as [Hin|Hnin]; [by apply IH|].
  apply elem_of_cons in Hn as [->|?]; [|done].
  apply passes_preserve; [done|apply pass_ok].
Qed.

Lemma runBody_ok name st :
  name ∈ (fst <$> data) → resourceOK tz weeks cur data name (runBody tz weeks cur data st).
Proof.
  intros Hn. unfold runBody.
  eapply resourceOK_samePlan; [|by apply passes_ok].
  split; [apply cleanup_sameFixed|].
  intros i _. rewrite list_lookup_fmap. by destruct (_ !! i).
Qed.
End Outcome.

(* --------------------------------------------------------------------- *)
(** *** Sums over the job store                                           *)

Section Sums.
Variables (tz : Z) (weeks : list Week) (cur : nat).

Lemma sumZ_selected_from (pre st : list Chantier) name key :
  sumZ ((λ c, getPlanAt (pre ++ st) c key)
        <$> filter (λ i, selectedAt (pre ++ st) name i = true) (seq (length pre) (length st)))
  = sumZ ((λ ch, getPlan ch key) <$> filter (λ ch, isSelected name ch = true) st).
Proof.
  revert pre. induction st as [|x st IH]; intros pre; [done|].
  cbn [length seq].
  assert (Hx : (pre ++ x :: st) !! length pre = Some x) by apply list_lookup_middle, eq_refl.
  assert (Hsel : selectedAt (pre ++ x :: st) name (length pre) = isSelected name x).
  { unfold selectedAt. by rewrite Hx. }
  specialize (IH (pre ++ [x])). rewrite <- app_assoc in IH. simpl in IH.
  rewrite length_app in IH. simpl in IH. rewrite Nat.add_1_r in IH.
  destruct (isSelected name x) eqn:Hs.
  - rewrite !filter_cons_True by done.
    csimpl. rewrite IH. unfold getPlanAt at 1. by rewrite Hx.
  - rewrite !filter_cons_False by congruence. apply IH.
Qed.

Lemma total_chantierList st name key :
  total (chantierList tz st name) st key = allocated st name key.
Proof.
  rewrite total_sumZ. unfold chantierList, allocated.
  rewrite (sumZ_perm _ _ (fmap_Permutation _ _ _ (stableSort_perm _ _))).
  apply (sumZ_selected_from []).
Qed.

Lemma sumZ_le {A} (f g : A → Z) (l : list A) :
  (∀ x, x ∈ l → f x ≤ g x) → sumZ (f <$> l) ≤ sumZ (g <$> l).
Proof.
  induction l as [|x l IH]; intros H; csimpl; [done|].
  pose proof (H x (list_elem_of_here _ _)).
  assert (sumZ (f <$> l) ≤ sumZ (g <$> l)); [|lia].
  apply IH. intros y Hy. apply H. by right.
Qed.

Lemma futureSum_futureKeys ch :
  futureSum tz weeks cur ch = sumZ ((λ key, getPlan ch key) <$> futureKeys tz weeks cur).
Proof.
  unfold futureSum, getPlan. apply sumValues_filter_keys.
  - apply NoDup_remove_dups.
  - intros k. unfold futureKeys. rewrite elem_of_remove_dups.
    apply isFutureKey_planWeeks.
Qed.

Lemma dispoParSemaine_future data name key :
  isFutureKey tz weeks cur key = true →
  default 0 (dispoParSemaine tz weeks data name !! key) = availability data name key.
Proof.
  unfold isFutureKey, dispoParSemaine. rewrite map_lookup_imap.
  destruct (weekMap tz weeks !! key); [done|discriminate].
Qed.
End Sums.

(* ===================================================================== *)
(** ** Properties of [repartitionAutomatique]                             *)
(* ===================================================================== *)

Lemma run_completed tz weeks now s cur :
  currentWeekIdx tz weeks now = Some cur →
  repartitionAutomatique tz weeks now s
  = (Completed, mkState (runBody tz weeks cur (data s) (chantiers s)) (data s)).
Proof. intros H. unfold repartitionAutomatique. by rewrite H. Qed.

Lemma run_aborted tz weeks now s :
  currentWeekIdx tz weeks now = None →
  repartitionAutomatique tz weeks now s = (NoCurrentWeek, s).
Proof. intros H. unfold repartitionAutomatique. by rewrite H. Qed.

(** C1 (idempotence).  Running the reallocation on its own result, with the
    same anchor date and the same availability store, returns that result
    again: the same outcome and the same job store, allocation maps
    included. *)
Theorem reallocation_idempotent tz weeks now s :
  repartitionAutomatique tz weeks now (repartitionAutomatique tz weeks now s).2
  = repartitionAutomatique tz weeks now s.
Proof.
  destruct (currentWeekIdx tz weeks now) as [cur|] eqn:Hcur.
  - rewrite (run_completed tz weeks now s cur Hcur). simpl.
    rewrite (run_completed tz weeks now _ cur Hcur). simpl.
    by rewrite runBody_idem.
  - rewrite (run_aborted tz weeks now s Hcur). simpl.
    by rewrite (run_aborted tz weeks now s Hcur).
Qed.

(** C2 (conservation).  After a run that found the current week [cur], an
    active job [ch] of a resource [name] of the availability store has, at
    the weeks from [cur] on, at most what its past entries leave of
    [prepTime] (never less than nothing); and exactly that whenever the
    capacity that the resource's other active jobs leave free from [cur] to
    the end of the calendar reaches that remainder. *)
Theorem conservation tz weeks now s cur name i ch :
  currentWeekIdx tz weeks now = Some cur →
  name ∈ (fst <$> data s) →
  chantiers (repartitionAutomatique tz weeks now s).2 !! i = Some ch →
  isActive ch = true → preparateur ch = Some name →
  futureSum tz weeks cur ch ≤ Z.max 0 (prepTime ch - pastSum tz weeks cur ch) ∧
  (Z.max 0 (prepTime ch - pastSum tz weeks cur ch)
     ≤ freeCapacity tz weeks cur (data s)
         (chantiers (repartitionAutomatique tz weeks now s).2) name ch →
   futureSum tz weeks cur ch = Z.max 0 (prepTime ch - pastSum tz weeks cur ch)).
Proof.
  intros Hcur Hname. rewrite (run_completed tz weeks now s cur Hcur). simpl.
  set (st' := runBody tz weeks cur (data s) (chantiers s)).
  intros Hch Hact Hprep.
  destruct (runBody_ok tz weeks cur (data s) name (chantiers s) Hname) as [_ Hjobs].
  fold st' in Hjobs.
  assert (Hi : i ∈ chantierList tz st' name).
  { apply elem_of_chantierList. unfold selectedAt, isSelected.
    rewrite Hch, Hact, Hprep. by rewrite bool_decide_eq_true_2. }
  destruct (Hjobs i ch Hi Hch) as (Hnn & Hle & Hsat).
  fold (remainder tz weeks cur ch) in *. split; [done|].
  intros Hfree. destruct (decide (futureSum tz weeks cur ch < remainder tz weeks cur ch)) as [Hlt|]; [|lia].
  exfalso. specialize (Hsat Hlt).
  assert (freeCapacity tz weeks cur (data s) st' name ch ≤ futureSum tz weeks cur ch); [|lia].
  rewrite futureSum_futureKeys. unfold freeCapacity. apply sumZ_le.
  intros key Hkey. unfold futureKeys in Hkey. rewrite elem_of_remove_dups in Hkey.
  pose proof Hkey as Hfut. apply isFutureKey_planWeeks in Hfut.
  apply list_elem_of_fmap in Hkey as (w & -> & Hw).
  specialize (Hsat w Hw). rewrite total_chantierList in Hsat.
  rewrite (dispoParSemaine_future tz weeks cur) in Hsat by done.
  specialize (Hnn _ Hfut). lia.
Qed.

(** C10 (capacity).  After a run that found the current week [cur], at
    every calendar week from [cur] on, the active jobs of a resource of the
    availability store hold together no more minutes than the resource's
    availability of that week (a number of minutes, hence not negative). *)
Theorem capacity_respected tz weeks now s cur name i w :
  currentWeekIdx tz weeks now = Some cur →
  name ∈ (fst <$> data s) →
  weeks !! i = Some w → (cur ≤ i)%nat →
  0 ≤ availability (data s) name (weekKey tz w) →
  allocated (chantiers (repartitionAutomatique tz weeks now s).2) name (weekKey tz w)
  ≤ availability (data s) name (weekKey tz w).
Proof.
  intros Hcur Hname Hw Hi Hav. rewrite (run_completed tz weeks now s cur Hcur). simpl.
  destruct (runBody_ok tz weeks cur (data s) name (chantiers s) Hname) as [Hcap _].
  assert (Hfut : isFutureKey tz weeks cur (weekKey tz w) = true).
  { apply isFutureKey_planWeeks. apply list_elem_of_fmap_2.
    apply list_elem_of_lookup. exists (i - cur)%nat. rewrite lookup_drop.
    by replace (cur + (i - cur))%nat with i by lia. }
  specialize (Hcap _ Hfut). rewrite total_chantierList in Hcap.
  rewrite (dispoParSemaine_future tz weeks cur) in Hcap by done. lia.
Qed.

(** What deprogramming does, key by key (C4).  [weekMap] gives a key the
    position of the last week of the list that has it.  After a run that
    found the current week [cur], a job that is not active has lost every
    entry whose key [weekMap] places at position [cur] or after it, and
    keeps unchanged every entry whose key [weekMap] places before [cur].
    Two weeks of the generated calendar can have the same key: what this
    means week by week is stated in [deprogramming_calendar]. *)
Theorem deprogramming tz weeks now s cur i ch :
  currentWeekIdx tz weeks now = Some cur →
  chantiers s !! i = Some ch → isActive ch = false →
  ∃ ch', chantiers (repartitionAutomatique tz weeks now s).2 !! i = Some ch' ∧
    ∀ key w idx, weekMap tz weeks !! key = Some (w, idx) →
      ((cur ≤ idx)%nat → planifOf ch' !! key = None) ∧
      ((idx < cur)%nat → planifOf ch' !! key = planifOf ch !! key).
Proof.
  intros Hcur Hch Hact. rewrite (run_completed tz weeks now s cur Hcur). simpl.
  exists (set_tempsRestant None (deprogram tz weeks cur ch)). split.
  - unfold runBody. rewrite list_lookup_fmap.
    rewrite (passes_inactive tz weeks cur (data s) _ _ i (deprogram tz weeks cur ch)); [done| |].
    + by rewrite list_lookup_fmap, Hch.
    + by rewrite deprogram_isActive.
  - intros key w idx Hkey.
    assert (Hp : planifOf (set_tempsRestant None (deprogram tz weeks cur ch))
                 = filter (λ kv, isFutureKey tz weeks cur kv.1 = false) (planifOf ch)).
    { unfold deprogram, planifOf. rewrite Hact. simpl.
      destruct (planification ch) eqn:Hp0; simpl; [done|].
      by rewrite Hp0, map_filter_empty. }
    rewrite Hp. split; intros Hidx.
    + apply map_lookup_filter_None_2. right. intros x _. simpl.
      unfold isFutureKey. rewrite Hkey. rewrite bool_decide_eq_true_2 by done. done.
    + rewrite map_lookup_filter. destruct (planifOf ch !! key); simpl; [|done].
      rewrite option_guard_True; [done|]. simpl.
      unfold isFutureKey. rewrite Hkey. apply bool_decide_eq_false. lia.
Qed.

(** C5 (abort).  When no week of the calendar contains the anchor (the
    local wall clock, moved back one day on a Sunday), the run returns
    through its warning and the job store and the availability store are
    those it was given. *)
Theorem abort_without_current_week tz weeks now s :
  (∀ w, w ∈ weeks → ¬ (w_start w ≤ nowFixed tz now ∧ nowFixed tz now ≤ w_end w)) →
  repartitionAutomatique tz weeks now s = (NoCurrentWeek, s).
Proof.
  intros Hnone. apply run_aborted. unfold currentWeekIdx.
  assert (list_find (λ w, w_start w ≤ nowFixed tz now ∧ nowFixed tz now ≤ w_end w) weeks = None) as ->; [|done].
  apply list_find_None, Forall_forall. done.
Qed.

(* ===================================================================== *)
(** ** Properties of the projection passes                                *)
(* ===================================================================== *)

Lemma Qltb_lt a b : Qltb a b = true ↔ (a < b)%Q.
Proof.
  unfold Qltb. rewrite Qlt_alt. destruct (a ?= b)%Q; split; congruence.
Qed.

Lemma Qltb_ge a b : Qltb a b = false ↔ (b <= a)%Q.
Proof.
  split.
  - intros H. apply Qnot_lt_le. intros Hlt%Qltb_lt. congruence.
  - intros H. destruct (Qltb a b) eqn:E; [|done].
    apply Qltb_lt in E. exfalso. by apply (Qlt_not_le a b).
Qed.

Lemma numLeQ_trans r q q' : numLeQ r q → (q <= q')%Q → numLeQ r q'.
Proof. destruct r; simpl; [|done]. intros. by eapply Qle_trans. Qed.

Section WindowFacts.
Variable marges : gmap string Calc.
Variable keys : list string.

Lemma minStep_spec acc j key c :
keys !! j = Some key → marges !! key = Some c →
∃ t, minStep marges keys (Some acc) j = Some (Fin t) ∧
     (t <= M c)%Q ∧ numLe (Fin t) acc ∧ (Fin t = acc ∨ t = M c).
Proof.
intros Hj Hc. unfold minStep. simpl. rewrite Hj. simpl. rewrite Hc. simpl.
destruct acc as [q|].
- destruct (Qltb (M c) q) eqn:E.
  + exists (M c). split_and!; [done|apply Qle_refl| |by right].
    simpl. apply Qlt_le_weak. by apply Qltb_lt.
  + exists q. split_and!; [done| |apply Qle_refl|by left].
    by apply Qltb_ge.
- exists (M c). split_and!; [done|apply Qle_refl|done|by right].
Qed.

Lemma minFold_spec js :
∀ acc,
(∀ j, j ∈ js → ∃ key c, keys !! j = Some key ∧ marges !! key = Some c) →
∃ r, foldl (minStep marges keys) (Some acc) js = Some r ∧
     numLe r acc ∧
     (∀ j key c, j ∈ js → keys !! j = Some key → marges !! key = Some c → numLeQ r (M c)) ∧
     (r = acc ∨ ∃ j key c, j ∈ js ∧ keys !! j = Some key ∧ marges !! key = Some c ∧ r = Fin (M c)).
Proof.
induction js as [|j js IH]; intros acc Hall.
- exists acc. split_and!; [done| | |by left].
  + destruct acc; simpl; [apply Qle_refl|done].
  + intros j key c Hj. by apply elem_of_nil in Hj.
- destruct (Hall j) as (key & c & Hj & Hc); [left|].
  destruct (minStep_spec acc j key c Hj Hc) as (t & Hstep & Htc & Hta & Hcase).
  cbn [foldl]. rewrite Hstep.
  destruct (IH (Fin t)) as (r & Hr & Hrt & Hlow & Hatt).
  { intros j' Hj'. apply Hall. by right. }
  exists r. split_and!; [done| | |].
  + destruct acc as [q|]; [|done]. simpl in *. by eapply numLeQ_trans.
  + intros j' key' c' [->|Hj']%elem_of_cons Hk' Hc'.
    * assert (key' = key) as -> by congruence. assert (c' = c) as -> by congruence.
      by eapply numLeQ_trans.
    * by eapply Hlow.
  + destruct Hatt as [->|(j' & key' & c' & Hj' & ? & ? & ->)].
    * destruct Hcase as [<- | ->]; [by left|].
      right. exists j, key, c. split_and!; try done. left.
    * right. exists j', key', c'. split_and!; try done. by right.
Qed.
End WindowFacts.

Lemma minStep_ext m1 m2 keys acc j :
  (∀ key, M <$> m1 !! key = M <$> m2 !! key) →
  minStep m1 keys acc j = minStep m2 keys acc j.
Proof.
  intros HM. unfold minStep. destruct acc as [minM|]; simpl; [|done].
  destruct (keys !! j) as [key|]; simpl; [|done].
  specialize (HM key). destruct (m1 !! key), (m2 !! key); simplify_eq/=; try done.
  by rewrite HM.
Qed.

Lemma windowMin_ext m1 m2 keys idx :
  (∀ key, M <$> m1 !! key = M <$> m2 !! key) →
  windowMin m1 keys idx = windowMin m2 keys idx.
Proof.
  intros HM. unfold windowMin. generalize (Some Infinity).
  induction (seq idx _) as [|j js IH]; intros acc; [done|].
  cbn [foldl]. rewrite (minStep_ext m1 m2) by done. apply IH.
Qed.

(** The window of week [idx]: a finite minimum. *)
Lemma windowMin_spec marges keys idx key0 :
  (∀ key, key ∈ keys → is_Some (marges !! key)) →
  keys !! idx = Some key0 →
  ∃ t, windowMin marges keys idx = Some (Fin t) ∧ windowMinimum marges keys idx t.
Proof.
  intros Hall Hidx. unfold windowMin.
  pose proof (lookup_lt_Some _ _ _ Hidx) as Hlt.
  set (n := (Nat.min (idx + 16) (length keys) - idx)%nat).
  assert (Hn : (0 < n)%nat) by (unfold n; lia).
  destruct (minFold_spec marges keys (seq idx n) Infinity) as (r & Hr & _ & Hlow & Hatt).
  { intros j Hj%elem_of_seq.
    destruct (lookup_lt_is_Some_2 keys j) as [key Hkey]; [unfold n in Hj; lia|].
    destruct (Hall key) as [c Hc]; [by eapply list_elem_of_lookup_2|].
    by exists key, c. }
  destruct Hatt as [->|(j & key & c & Hj & Hkey & Hc & ->)].
  - exfalso. destruct (Hall key0) as [c Hc]; [by eapply list_elem_of_lookup_2|].
    apply (Hlow idx key0 c); [|done|done]. apply elem_of_seq. lia.
  - exists (M c). split; [done|]. split.
    + intros j' key' c' Hj' Hkey' Hc'.
      apply (Hlow j' key' c'); [|done|done].
      apply elem_of_seq. pose proof (lookup_lt_Some _ _ _ Hkey'). unfold n. lia.
    + exists j, key, c. apply elem_of_seq in Hj. unfold n in Hj.
      split_and!; try done; lia.
Qed.

Lemma windowMinimum_ext m1 m2 keys k t :
  (∀ key, M <$> m1 !! key = M <$> m2 !! key) →
  windowMinimum m1 keys k t → windowMinimum m2 keys k t.
Proof.
  intros HM [Hlow (j & kj & cj & Hj & Hkj & Hcj & Ht)]. split.
  - intros j' kj' cj' Hj' Hkj' Hcj'. specialize (HM kj'). rewrite Hcj' in HM.
    destruct (m1 !! kj') as [c1|] eqn:Hc1; [|done].
    simpl in HM. injection HM as HM. rewrite <- HM. by eapply Hlow.
  - specialize (HM kj). rewrite Hcj in HM.
    destruct (m2 !! kj) as [c2|] eqn:Hc2; [|done].
    simpl in HM. injection HM as HM. exists j, kj, c2.
    split_and!; [lia|lia|done|done|congruence].
Qed.

Lemma margins_M (a b : option Calc) : margins <$> a = margins <$> b → M <$> a = M <$> b.
Proof. destruct a, b; simpl; intros H; simplify_eq; [|done]. by f_equal. Qed.

Lemma margins_dispo (a b : option Calc) : margins <$> a = margins <$> b → dispo <$> a = dispo <$> b.
Proof. destruct a, b; simpl; intros H; simplify_eq; [|done]. by f_equal. Qed.

Lemma tdispFold_spec keys marges0 :
  (∀ key, key ∈ keys → is_Some (marges0 !! key)) →
  ∀ m, (m ≤ length keys)%nat →
  ∃ marges, foldl (tdispStep keys) (Some marges0) (seq 0 m) = Some marges ∧
    (∀ key, margins <$> marges !! key = margins <$> marges0 !! key) ∧
    (∀ k key, (k < m)%nat → keys !! k = Some key →
       (∀ j, (k < j < m)%nat → keys !! j ≠ Some key) →
       Tdisp <$> marges !! key = Some (windowMin marges0 keys k)).
Proof.
  intros Hall. induction m as [|m IH]; intros Hm.
  - exists marges0. split_and!; [done|done|]. intros k key Hk. lia.
  - destruct IH as (marges & Hfold & Hmar & Htd); [lia|].
    rewrite seq_S, foldl_app, Hfold. simpl.
    destruct (lookup_lt_is_Some_2 keys m) as [keym Hkeym]; [lia|].
    assert (HM : ∀ key, M <$> marges !! key = M <$> marges0 !! key)
      by (intros key; apply margins_M, Hmar).
    destruct (windowMin_spec marges0 keys m keym Hall Hkeym) as (t & Hwin & _).
    unfold tdispStep. simpl. rewrite Hkeym. simpl.
    rewrite (windowMin_ext marges marges0) by done. rewrite Hwin. simpl.
    destruct (Hall keym) as [c0 Hc0]; [by eapply list_elem_of_lookup_2|].
    destruct (marges !! keym) as [c|] eqn:Hc.
    2:{ specialize (Hmar keym). rewrite Hc, Hc0 in Hmar. done. }
    simpl. eexists. split; [done|]. split.
    + intros key. rewrite lookup_alter. case_decide as Hk; [|apply Hmar].
      subst key. rewrite <- Hmar, Hc. done.
    + intros k key Hk Hkey Hlast. rewrite lookup_alter.
      destruct (decide (k = m)) as [->|Hne].
      * assert (key = keym) as -> by congruence.
        rewrite decide_True by done. rewrite Hc. simpl. by rewrite Hwin.
      * rewrite decide_False.
        -- apply Htd; [lia|done|]. intros j Hj. apply Hlast. lia.
        -- intros <-. apply (Hlast m); [lia|done].
Qed.

Section MarginFacts.
Variables (tz : Z) (wn yr : Z) (chs : list Chantier) (name : string)
        (avail : gmap string Stored).

Lemma margeFold_dom ws acc :
(∀ key, is_Some (acc.1 !! key) →
        is_Some ((foldl (margeStep tz wn yr chs name avail) acc ws).1 !! key)) ∧
(∀ w, w ∈ ws →
      is_Some ((foldl (margeStep tz wn yr chs name avail) acc ws).1 !! weekKey tz w)).
Proof.
revert acc. induction ws as [|w ws IH]; intros acc.
- split; [done|]. intros w Hw. by apply elem_of_nil in Hw.
- cbn [foldl]. destruct (IH (margeStep tz wn yr chs name avail acc w)) as [Hkeep Hnew].
  assert (Hstep : ∀ key, is_Some (acc.1 !! key) ∨ key = weekKey tz w →
            is_Some ((margeStep tz wn yr chs name avail acc w).1 !! key)).
  { intros key Hkey. destruct acc as [marges prec]. simpl.
    destruct (decide (weekKey tz w = key)) as [<-|Hne].
    - rewrite lookup_insert_eq. by eexists.
    - rewrite lookup_insert_ne by done. destruct Hkey; [done|congruence]. }
  split.
  + intros key Hkey. apply Hkeep, Hstep. by left.
  + intros w' [->|Hw']%elem_of_cons; [|by apply Hnew].
    apply Hkeep, Hstep. by right.
Qed.
End MarginFacts.

Lemma badgeFold_spec keys :
  ∀ marges last,
  (∀ key, key ∈ keys → ∃ c t, marges !! key = Some c ∧ Tdisp c = Some (Fin t)) →
  ∃ marges' last',
    foldl badgeStep (Some (marges, last)) keys = Some (marges', last') ∧
    ∀ key, margins <$> marges' !! key = margins <$> marges !! key ∧
           Tdisp <$> marges' !! key = Tdisp <$> marges !! key.
Proof.
  induction keys as [|key keys IH]; intros marges last Hall.
  - by exists marges, last.
  - destruct (Hall key) as (c & t & Hc & Ht); [left|].
    cbn [foldl]. unfold badgeStep at 2. simpl. rewrite Hc. simpl.
    assert (Hb : ∃ b l, badgeOf c last = Some (b, l)).
    { unfold badgeOf. rewrite Ht. destruct (Qltb 0 (dispo c)); eauto. }
    destruct Hb as (b & l & ->). simpl.
    assert (Hsame : ∀ key', margins <$> alter (set_badge b) key marges !! key' = margins <$> marges !! key' ∧
                           Tdisp <$> alter (set_badge b) key marges !! key' = Tdisp <$> marges !! key').
    { intros key'. rewrite lookup_alter. case_decide; [|done].
      subst key'. by rewrite Hc. }
    destruct (IH (alter (set_badge b) key marges) l) as (marges' & last' & Hfold & Hkeep).
    { intros key' Hkey'. destruct (Hall key') as (c' & t' & Hc' & Ht'); [by right|].
      rewrite lookup_alter. case_decide.
      - subst key'. rewrite Hc. simpl. exists (set_badge b c), t.
        assert (c' = c) as -> by congruence. done.
      - eauto. }
    exists marges', last'. split; [done|]. intros key'.
    destruct (Hkeep key') as [-> ->]. apply Hsame.
Qed.

Lemma last_occurrence (keys : list string) key :
  key ∈ keys →
  ∃ k, keys !! k = Some key ∧ ∀ j, (k < j)%nat → keys !! j ≠ Some key.
Proof.
  intros Hkey. induction keys as [|x l IH]; [by apply elem_of_nil in Hkey|].
  destruct (decide (key ∈ l)) as [Hin|Hnin].
  - destruct (IH Hin) as (k & Hk & Hlast). exists (S k). split; [done|].
    intros [|j] Hj; [lia|]. simpl. apply Hlast. lia.
  - apply elem_of_cons in Hkey as [->|?]; [|done].
    exists 0%nat. split; [done|]. intros [|j] Hj; [lia|]. simpl.
    intros Hx. apply Hnin. by eapply list_elem_of_lookup_2.
Qed.

(** What the second pass of the projection gives (C6).  Whenever the
    projection of a resource is computed (the current index is a week of
    the calendar and the resource has an availability record), it
    succeeds.  When the second pass has just processed the projected week
    [k], the [Tdisp] of that week is a number: the least [M] of the weeks
    [k] to [k + 15] that the calendar holds.  In the finished projection
    the [Tdisp] found under the key of week [k] is at most the [M] found
    under that key, and it is still that least [M] when no later projected
    week shares the key of week [k]. *)
Theorem tdisp_is_window_min tz weeks s cur name w0 avail :
  weeks !! cur = Some w0 → dataGet (data s) name = Some avail →
  ∃ m0 marges,
    margesPass tz weeks s cur name = Some m0 ∧
    margesGlobales tz weeks s cur name = Some marges ∧
    ∀ k key, projectedKeys tz weeks cur !! k = Some key →
      (∃ mk calc t,
         foldl (tdispStep (projectedKeys tz weeks cur)) (Some m0) (seq 0 (S k)) = Some mk ∧
         mk !! key = Some calc ∧ Tdisp calc = Some (Fin t) ∧
         windowMinimum mk (projectedKeys tz weeks cur) k t) ∧
      (∃ calc t,
         marges !! key = Some calc ∧ Tdisp calc = Some (Fin t) ∧ (t <= M calc)%Q ∧
         ((∀ j, (k < j)%nat → projectedKeys tz weeks cur !! j ≠ Some key) →
          windowMinimum marges (projectedKeys tz weeks cur) k t)).
Proof.
  intros Hw0 Hav. unfold margesGlobales, margesPass. rewrite Hw0, Hav. simpl.
  set (keys := projectedKeys tz weeks cur).
  set (m0 := (foldl (margeStep tz _ _ (chantiers s) name avail) (∅, 0%Q) (drop cur weeks)).1).
  assert (Hall : ∀ key, key ∈ keys → is_Some (m0 !! key)).
  { intros key (w & -> & Hw)%list_elem_of_fmap. by apply margeFold_dom. }
  destruct (tdispFold_spec keys m0 Hall (length keys) (reflexivity _))
    as (m1 & Hfold & Hmar1 & Htd).
  unfold tdispPass. rewrite Hfold. simpl.
  (* the last occurrence of a key decides its record in [m1] *)
  assert (Hrec : ∀ k key, keys !! k = Some key →
            (∀ j, (k < j)%nat → keys !! j ≠ Some key) →
            ∃ c t, m1 !! key = Some c ∧ Tdisp c = Some (Fin t) ∧ windowMinimum m0 keys k t).
  { intros k key Hk Hlast.
    destruct (windowMin_spec m0 keys k key Hall Hk) as (t & Hwin & Hmin).
    pose proof (Htd k key (lookup_lt_Some _ _ _ Hk) Hk (λ j Hj, Hlast j (proj1 Hj))) as Ht.
    rewrite Hwin in Ht. destruct (m1 !! key) as [c|]; [|done].
    exists c, t. split; [done|]. simpl in Ht. split; [congruence|done]. }
  assert (Hfin : ∀ key, key ∈ keys → ∃ c t, m1 !! key = Some c ∧ Tdisp c = Some (Fin t)).
  { intros key Hkey. destruct (last_occurrence keys key Hkey) as (k & Hk & Hlast).
    destruct (Hrec k key Hk Hlast) as (c & t & ? & ? & _). by exists c, t. }
  destruct (badgeFold_spec keys m1 None Hfin) as (m2 & last & Hfold2 & Hkeep).
  unfold badgePass. rewrite Hfold2. simpl. exists m0, m2. split; [done|]. split; [done|].
  assert (HM2 : ∀ key, M <$> m0 !! key = M <$> m2 !! key).
  { intros key. destruct (Hkeep key) as [Hm _].
    by rewrite (margins_M _ _ Hm), (margins_M _ _ (Hmar1 key)). }
  intros k key Hk. split.
  - destruct (tdispFold_spec keys m0 Hall (S k)) as (mk & Hfoldk & Hmark & Htdk).
    { apply lookup_lt_Some in Hk. lia. }
    destruct (windowMin_spec m0 keys k key Hall Hk) as (t & Hwin & Hmin).
    assert (Ht : Tdisp <$> mk !! key = Some (windowMin m0 keys k)).
    { apply Htdk; [lia|done|]. intros j Hj. lia. }
    rewrite Hwin in Ht.
    destruct (mk !! key) as [calc|] eqn:Hcalc; [|done].
    exists mk, calc, t. split_and!; [done|done| |].
    + simpl in Ht. congruence.
    + apply (windowMinimum_ext m0); [|done].
      intros key'. symmetry. apply margins_M, Hmark.
  - destruct (last_occurrence keys key (list_elem_of_lookup_2 _ _ _ Hk)) as (k' & Hk' & Hlast').
    destruct (Hrec k' key Hk' Hlast') as (c & t & Hc & Ht & Hmin).
    destruct (Hkeep key) as [Hm2 Ht2]. rewrite Hc in Hm2, Ht2.
    destruct (m2 !! key) as [calc|] eqn:Hcalc; [|done].
    simpl in Hm2, Ht2. exists calc, t.
    apply (windowMinimum_ext m0 m2 keys k' t HM2) in Hmin.
    split_and!; [done|congruence| |].
    + destruct Hmin as [Hlow _]. apply (Hlow k' key calc); [lia|done|done].
    + intros Hlast. assert (k' = k) as ->; [|done].
      destruct (Nat.lt_trichotomy k k') as [Hlt|[Heq|Hgt]]; [|done|].
      * by destruct (Hlast k' Hlt).
      * by destruct (Hlast' k Hgt).
Qed.

Lemma badgeOf_idle c last :
  ¬ (0 < dispo c)%Q → badgeOf c last = Some (BadgeNull, last).
Proof.
  intros Hidle. unfold badgeOf.
  by rewrite (proj2 (Qltb_ge 0 (dispo c)) (Qnot_lt_le _ _ Hidle)).
Qed.

Lemma badgeIdle_spec zs key calc raw last :
  ∀ marges,
  (∀ z, z ∈ zs → ∃ c, marges !! z = Some c ∧ ¬ (0 < dispo c)%Q) →
  marges !! key = Some calc → (0 < dispo calc)%Q → Tdisp calc = Some (Fin raw) →
  ∃ marges',
    foldl badgeStep (Some (marges, last)) (zs ++ [key]) = Some (marges', Some raw) ∧
    (∀ z, z ∈ zs → badge <$> marges' !! z = Some BadgeNull) ∧
    badge <$> marges' !! key = fst <$> badgeOf calc last ∧
    (∀ x, x ∉ zs → x ≠ key → marges' !! x = marges !! x).
Proof.
  induction zs as [|z zs IH]; intros marges Hzs Hkey Hpos Hraw.
  - simpl. rewrite Hkey. simpl.
    unfold badgeOf. rewrite (proj2 (Qltb_lt _ _) Hpos), Hraw.
    eexists. split; [done|]. split_and!.
    + intros z Hz. by apply elem_of_nil in Hz.
    + by rewrite lookup_alter_eq, Hkey.
    + intros x _ Hx. by rewrite lookup_alter_ne.
  - destruct (Hzs z) as (c & Hc & Hidle); [left|].
    assert (Hzk : z ≠ key).
    { intros ->. rewrite Hkey in Hc. injection Hc as <-. done. }
    cbn [app foldl]. unfold badgeStep at 2. simpl. rewrite Hc. simpl.
    rewrite (badgeOf_idle c last Hidle).
    simpl.
    destruct (IH (alter (set_badge BadgeNull) z marges)) as (marges' & Hfold & Hnull & Hbadge & Hframe).
    + intros z' Hz'. destruct (Hzs z') as (c' & Hc' & Hidle'); [by right|].
      rewrite lookup_alter. case_decide; [|eauto].
      subst z'. rewrite Hc. simpl. exists (set_badge BadgeNull c). split; [done|].
      assert (c' = c) as -> by congruence. done.
    + by rewrite lookup_alter_ne.
    + done.
    + done.
    + exists marges'. split; [done|]. split_and!; [|done|].
      * intros z' [->|Hz']%elem_of_cons; [|by apply Hnull].
        destruct (decide (z ∈ zs)) as [Hin|Hnin]; [by apply Hnull|].
        rewrite Hframe by done. by rewrite lookup_alter_eq, Hc.
      * intros x Hx Hxk. apply not_elem_of_cons in Hx as [Hxz Hx].
        rewrite Hframe by done. by rewrite lookup_alter_ne.
Qed.

(** C3, as the code has it.  A projected week whose [dispo] is not above 0
    gets the badge [null] and leaves [lastTdisp] as it was: after any run
    [zs] of such weeks, the next week [key] with [dispo > 0] gets the badge
    computed against the [lastTdisp] that entered the run, and only then
    does [lastTdisp] become that week's [Tdisp]. *)
Theorem badge_skips_idle_weeks zs key marges last calc raw :
  (∀ z, z ∈ zs → ∃ c, marges !! z = Some c ∧ ¬ (0 < dispo c)%Q) →
  marges !! key = Some calc → (0 < dispo calc)%Q → Tdisp calc = Some (Fin raw) →
  ∃ marges',
    foldl badgeStep (Some (marges, last)) (zs ++ [key]) = Some (marges', Some raw) ∧
    (∀ z, z ∈ zs → badge <$> marges' !! z = Some BadgeNull) ∧
    badge <$> marges' !! key = fst <$> badgeOf calc last.
Proof.
  intros Hzs Hkey Hpos Hraw.
  destruct (badgeIdle_spec zs key calc raw last marges Hzs Hkey Hpos Hraw)
    as (marges' & ? & ? & ? & _).
  by exists marges'.
Qed.

(* ===================================================================== *)
(** ** The worked planning, evaluated                                     *)
(* ===================================================================== *)

Lemma anchor_week :
  currentWeekIdx hostOffset calendar anchor = Some 61%nat ∧
  currentIndex hostOffset calendar anchor = Some 61%nat ∧
  take 3 (projectedKeys hostOffset calendar 61) = [week10; week11; week12].
Proof. split_and!; vm_compute; reflexivity. Qed.


(** C8, at the failing input.  The job enters the run without
    [ChargeRestante] and leaves it with [ChargeRestante] set: the cleanup
    deletes [tempsRestant], which the run never sets. *)
Theorem ChargeRestante_persists :
  ChargeRestante <$> [bigJob "19/03/2025" None] = [None] ∧
  ChargeRestante
    <$> chantiers (repartitionAutomatique hostOffset calendar anchor
                     (mkState [bigJob "19/03/2025" None] availabilityA)).2
  = [Some 5000].
Proof. split; vm_compute; reflexivity. Qed.

(** What the run does keep (C8): the availability store, and on every job
    the fields other than the plan, [ChargeRestante] and [tempsRestant]. *)
Lemma run_frame tz weeks now s :
  data (repartitionAutomatique tz weeks now s).2 = data s ∧
  Forall2 sameFixed (chantiers s) (chantiers (repartitionAutomatique tz weeks now s).2).
Proof.
  destruct (currentWeekIdx tz weeks now) as [cur|] eqn:Hcur.
  - rewrite (run_completed tz weeks now s cur Hcur). simpl. split; [done|].
    unfold runBody. etrans; [|apply cleanup_sameFixed].
    etrans; [|eapply Forall2_impl; [apply passes_sameOwner|by intros a b [? _]]].
    apply Forall2_fmap_r, Forall_Forall2_diag, Forall_forall. intros ch _.
    unfold compose, deprogram. destruct (negb (isActive ch)); [|by repeat split].
    destruct (planification ch); by repeat split.
  - rewrite (run_aborted tz weeks now s Hcur). by split.
Qed.

(** C3, as the specification states it, fails: a week without
    availability leaves [lastTdisp] at the older value (10 here) and not at
    its own [Tdisp] (-80).  In the projection of [idleWeekState], week 11
    has no availability and the same [Tdisp] as week 12; the badge of
    week 12 is nevertheless -90, the difference with the [Tdisp] of
    week 10. *)
Lemma idle_week_counterexample :
  ¬ (∀ calc last raw,
       (dispo calc == 0)%Q → Tdisp calc = Some (Fin raw) →
       badgeOf calc last = Some (BadgeNull, Some raw)) ∧
  (λ m, (dispo <$> m !! week11, Tdisp <$> m !! week10,
         Tdisp <$> m !! week11, Tdisp <$> m !! week12,
         badge <$> m !! week11, badge <$> m !! week12))
    <$> margesGlobales hostOffset calendar idleWeekState 61 "A"
  = Some (Some 0%Q, Some (Some (Fin 10%Q)),
          Some (Some (Fin (-80)%Q)), Some (Some (Fin (-80)%Q)),
          Some BadgeNull, Some (BadgeValue (-90)%Q)).
Proof.
  split.
  - intros H.
    specialize (H (mkCalc 0%Q 0%Q 10%Q 10%Q (Some (Fin (-80)%Q)) BadgeUndefined)
                  (Some 10%Q) (-80)%Q (Qeq_refl _) eq_refl).
    vm_compute in H. discriminate H.
  - vm_compute. reflexivity.
Qed.

(* --------------------------------------------------------------------- *)
(** *** The theorems at the worked planning                               *)

Lemma conservation_witness :
  futureSum hostOffset calendar 61 smallJobPlanned
  ≤ Z.max 0 (prepTime smallJobPlanned - pastSum hostOffset calendar 61 smallJobPlanned) ∧
  (Z.max 0 (prepTime smallJobPlanned - pastSum hostOffset calendar 61 smallJobPlanned)
     ≤ freeCapacity hostOffset calendar 61 (data threeJobs)
         (chantiers (repartitionAutomatique hostOffset calendar anchor threeJobs).2)
         "A" smallJobPlanned →
   futureSum hostOffset calendar 61 smallJobPlanned
   = Z.max 0 (prepTime smallJobPlanned - pastSum hostOffset calendar 61 smallJobPlanned)).
Proof.
  apply (conservation hostOffset calendar anchor threeJobs 61 "A" 1 smallJobPlanned).
  - vm_compute. reflexivity.
  - vm_compute. left.
  - vm_compute. reflexivity.
  - vm_compute. reflexivity.
  - reflexivity.
Defined.

Lemma capacity_respected_witness :
  allocated (chantiers (repartitionAutomatique hostOffset calendar anchor threeJobs).2)
            "A" (weekKey hostOffset (makeWeek 2025 11))
  ≤ availability (data threeJobs) "A" (weekKey hostOffset (makeWeek 2025 11)).
Proof.
  apply (capacity_respected hostOffset calendar anchor threeJobs 61 "A" 62 (makeWeek 2025 11)).
  - vm_compute. reflexivity.
  - vm_compute. left.
  - vm_compute. reflexivity.
  - lia.
  - vm_compute. discriminate.
Defined.

Lemma deprogramming_witness :
  ∃ ch', chantiers (repartitionAutomatique hostOffset calendar anchor threeJobs).2 !! 2%nat
         = Some ch' ∧
    ∀ key w idx, weekMap hostOffset calendar !! key = Some (w, idx) →
      ((61 ≤ idx)%nat → planifOf ch' !! key = None) ∧
      ((idx < 61)%nat → planifOf ch' !! key = planifOf cancelledJob !! key).
Proof.
  apply (deprogramming hostOffset calendar anchor threeJobs 61 2 cancelledJob).
  - vm_compute. reflexivity.
  - reflexivity.
  - vm_compute. reflexivity.
Defined.

Lemma abort_witness :
  repartitionAutomatique hostOffset calendar (JSDate.UTC 2029 0 10 9 30) threeJobs
  = (NoCurrentWeek, threeJobs).
Proof.
  apply (abort_without_current_week hostOffset calendar (JSDate.UTC 2029 0 10 9 30) threeJobs).
  apply Forall_forall. apply (bool_decide_unpack _). vm_compute. exact I.
Defined.

Lemma tdisp_witness :
  ∃ m0 marges,
    margesPass hostOffset calendar idleWeekState 61 "A" = Some m0 ∧
    margesGlobales hostOffset calendar idleWeekState 61 "A" = Some marges ∧
    ∀ k key, projectedKeys hostOffset calendar 61 !! k = Some key →
      (∃ mk calc t,
         foldl (tdispStep (projectedKeys hostOffset calendar 61)) (Some m0) (seq 0 (S k))
         = Some mk ∧
         mk !! key = Some calc ∧ Tdisp calc = Some (Fin t) ∧
         windowMinimum mk (projectedKeys hostOffset calendar 61) k t) ∧
      (∃ calc t,
         marges !! key = Some calc ∧ Tdisp calc = Some (Fin t) ∧ (t <= M calc)%Q ∧
         ((∀ j, (k < j)%nat → projectedKeys hostOffset calendar 61 !! j ≠ Some key) →
          windowMinimum marges (projectedKeys hostOffset calendar 61) k t)).
Proof.
  apply (tdisp_is_window_min hostOffset calendar idleWeekState 61 "A"
           (makeWeek 2025 10)
           (<[week10 := StoredObject 600 "2025-03-01T08:00:00.000Z"]>
              (<[week12 := StoredNumber 600]> ∅))).
  - vm_compute. reflexivity.
  - vm_compute. reflexivity.
Defined.

Lemma badge_skips_idle_weeks_witness :
  ∃ marges',
    foldl badgeStep
      (Some (<[week10 := mkCalc 10 0 10 10 (Some (Fin 10%Q)) BadgeUndefined]>
               (<[week11 := mkCalc 0 0 10 10 (Some (Fin (-80)%Q)) BadgeUndefined]>
                  (<[week12 := mkCalc 10 0 20 20 (Some (Fin (-80)%Q)) BadgeUndefined]> ∅)),
             Some 10%Q))
      ([week11] ++ [week12])
    = Some (marges', Some (-80)%Q) ∧
    (∀ z, z ∈ [week11] → badge <$> marges' !! z = Some BadgeNull) ∧
    badge <$> marges' !! week12
    = fst <$> badgeOf (mkCalc 10 0 20 20 (Some (Fin (-80)%Q)) BadgeUndefined) (Some 10%Q).
Proof.
  apply (badge_skips_idle_weeks [week11] week12).
  - intros z Hz. apply list_elem_of_singleton in Hz. subst z.
    exists (mkCalc 0 0 10 10 (Some (Fin (-80)%Q)) BadgeUndefined).
    split; [vm_compute; reflexivity|]. vm_compute. discriminate.
  - vm_compute. reflexivity.
  - vm_compute. reflexivity.
  - reflexivity.
Defined.

(* ===================================================================== *)
(** ** The ISO week functions of [src/time-utils.js]                      *)
(* ===================================================================== *)

(* --------------------------------------------------------------------- *)
(** *** Day numbers and civil dates                                       *)

(** The first of March of year [y0] (the year of the civil algorithm, which
    starts in March), as a day number. *)
Lemma march_first yoe e :
  0 ≤ yoe ≤ 399 →
  JSDate.DayFromYear (yoe + 400 * e) + 59
    + (if JSDate.InLeapYear (yoe + 400 * e) then 1 else 0)
  = 146097 * e - 719468 + (365 * yoe + yoe / 4 - yoe / 100).
Proof.
  intros H. unfold JSDate.DayFromYear, JSDate.InLeapYear.
  destruct ((yoe + 400 * e) mod 4 =? 0) eqn:E4;
  destruct ((yoe + 400 * e) mod 100 =? 0) eqn:E100;
  destruct ((yoe + 400 * e) mod 400 =? 0) eqn:E400; simpl;
  rewrite ?Z.eqb_eq, ?Z.eqb_neq in *;
  Z.div_mod_to_equations; lia.
Qed.

Lemma next_january yoe e :
  0 ≤ yoe ≤ 399 →
  JSDate.DayFromYear (yoe + 400 * e + 1)
  = 146097 * e - 719468 + (365 * yoe + yoe / 4 - yoe / 100) + 306.
Proof.
  intros H. unfold JSDate.DayFromYear.
  Z.div_mod_to_equations; lia.
Qed.

Lemma DayFromYear_next y :
  365 ≤ JSDate.DayFromYear (y + 1) - JSDate.DayFromYear y ≤ 366.
Proof. unfold JSDate.DayFromYear. Z.div_mod_to_equations; lia. Qed.

Lemma yoe_spec doe :
  0 ≤ doe < 146097 →
  let yoe := (doe - doe / 1460 + doe / 36524 - doe / 146096) / 365 in
  0 ≤ yoe ≤ 399 ∧
  365 * yoe + yoe / 4 - yoe / 100 ≤ doe ∧
  doe < 365 * (yoe + 1) + (yoe + 1) / 4 - (yoe + 1) / 100 + (yoe + 1) / 400.
Proof. intros H yoe. subst yoe. Z.div_mod_to_equations; lia. Qed.

(** The civil fields of a day number name that day. *)
Lemma civil_spec D :
  ∃ y m d, JSDate.civil D = (y, m, d) ∧ 0 ≤ m ≤ 11 ∧ 1 ≤ d ≤ 31 ∧
    JSDate.MakeDay y m d = D ∧
    JSDate.DayFromYear y ≤ D < JSDate.DayFromYear (y + 1).
Proof.
  unfold JSDate.civil.
  set (z := D + 719468).
  set (era := z / 146097).
  set (doe := z - era * 146097).
  assert (Hdoe : 0 ≤ doe < 146097).
  { unfold doe, era. pose proof (Z.mod_pos_bound z 146097) as H.
    rewrite Z.mod_eq in H by lia. lia. }
  destruct (yoe_spec doe Hdoe) as (Hy & Hlo & Hhi).
  set (yoe := (doe - doe / 1460 + doe / 36524 - doe / 146096) / 365) in *.
  set (doy := doe - (365 * yoe + yoe / 4 - yoe / 100)).
  assert (Hdoy : 0 ≤ doy ≤ 365).
  { unfold doy. split; [lia|]. revert Hhi. generalize doe. intros doe'.
    Z.div_mod_to_equations; lia. }
  set (mp := (5 * doy + 2) / 153).
  assert (Hmp : 0 ≤ mp ≤ 11) by (unfold mp; Z.div_mod_to_equations; lia).
  pose proof (march_first yoe era Hy) as Hm1.
  pose proof (next_january yoe era Hy) as Hj1.
  pose proof (DayFromYear_next (yoe + 400 * era)) as Hn0.
  pose proof (DayFromYear_next (yoe + 400 * era + 1)) as Hn1.
  assert (HD : D = 146097 * era - 719468 + (365 * yoe + yoe / 4 - yoe / 100) + doy)
    by (unfold doy, doe, z; lia).
  eexists _, _, _. split; [reflexivity|].
  replace (yoe + era * 400) with (yoe + 400 * era) by lia.
  destruct (mp <? 10) eqn:Emp.
  - apply Z.ltb_lt in Emp.
    assert ((mp + 2 <=? 1) = false) as -> by (apply Z.leb_gt; lia).
    assert (Hd : doy < 306) by (unfold mp in Emp; Z.div_mod_to_equations; lia).
    split; [lia|]. split; [unfold mp; Z.div_mod_to_equations; lia|].
    unfold JSDate.MakeDay.
    replace ((mp + 2) / 12) with 0 by (symmetry; apply Z.div_small; lia).
    replace ((mp + 2) mod 12) with (mp + 2) by (symmetry; apply Z.mod_small; lia).
    rewrite Z.add_0_r.
    split.
    + assert (Hcase : mp = 0 ∨ mp = 1 ∨ mp = 2 ∨ mp = 3 ∨ mp = 4 ∨ mp = 5 ∨ mp = 6 ∨
                      mp = 7 ∨ mp = 8 ∨ mp = 9) by lia.
      unfold JSDate.daysBeforeMonth.
      destruct (JSDate.InLeapYear (yoe + 400 * era));
      destruct Hcase as [E|[E|[E|[E|[E|[E|[E|[E|[E|E]]]]]]]]]; rewrite E; simpl;
      unfold mp in E; Z.div_mod_to_equations; lia.
    + destruct (JSDate.InLeapYear (yoe + 400 * era)); lia.
  - apply Z.ltb_ge in Emp.
    assert ((mp - 10 <=? 1) = true) as -> by (apply Z.leb_le; lia).
    assert (Hd : 306 ≤ doy) by (unfold mp in Emp; Z.div_mod_to_equations; lia).
    split; [lia|]. split; [unfold mp; Z.div_mod_to_equations; lia|].
    unfold JSDate.MakeDay.
    replace ((mp - 10) / 12) with 0 by (symmetry; apply Z.div_small; lia).
    replace ((mp - 10) mod 12) with (mp - 10) by (symmetry; apply Z.mod_small; lia).
    rewrite Z.add_0_r.
    split.
    + assert (Hcase : mp = 10 ∨ mp = 11) by lia.
      unfold JSDate.daysBeforeMonth.
      destruct (JSDate.InLeapYear (yoe + 400 * era + 1));
      destruct Hcase as [E|E]; rewrite E; simpl;
      unfold mp in E; Z.div_mod_to_equations; lia.
    + lia.
Qed.

Lemma DayFromYear_mono y y' : y ≤ y' → JSDate.DayFromYear y ≤ JSDate.DayFromYear y'.
Proof. unfold JSDate.DayFromYear. intros H. Z.div_mod_to_equations; lia. Qed.

Lemma year_length y :
  JSDate.DayFromYear (y + 1)
  = JSDate.DayFromYear y + 365 + (if JSDate.InLeapYear y then 1 else 0).
Proof.
  unfold JSDate.DayFromYear, JSDate.InLeapYear.
  destruct (y mod 4 =? 0) eqn:E4; destruct (y mod 100 =? 0) eqn:E100;
  destruct (y mod 400 =? 0) eqn:E400; simpl;
  rewrite ?Z.eqb_eq, ?Z.eqb_neq in *; Z.div_mod_to_equations; lia.
Qed.

Lemma civil_year D y :
  JSDate.DayFromYear y ≤ D < JSDate.DayFromYear (y + 1) → (JSDate.civil D).1.1 = y.
Proof.
  intros H. destruct (civil_spec D) as (y' & m & d & -> & _ & _ & _ & H'). simpl.
  destruct (Z.lt_trichotomy y y') as [Hlt|[->|Hgt]]; [|done|].
  - pose proof (DayFromYear_mono (y + 1) y'). lia.
  - pose proof (DayFromYear_mono (y' + 1) y). lia.
Qed.

Lemma Day_days D : JSDate.Day (D * JSDate.msPerDay) = D.
Proof. unfold JSDate.Day, JSDate.msPerDay. by rewrite Z.div_mul. Qed.

Lemma TimeWithinDay_days D : JSDate.TimeWithinDay (D * JSDate.msPerDay) = 0.
Proof. unfold JSDate.TimeWithinDay, JSDate.msPerDay. by rewrite Z.mod_mul. Qed.

Lemma MakeDay_date y m d k : JSDate.MakeDay y m (d + k) = JSDate.MakeDay y m d + k.
Proof. unfold JSDate.MakeDay. lia. Qed.

Lemma fullYear_id y : 100 ≤ y → JSDate.fullYear y = y.
Proof.
  intros H. unfold JSDate.fullYear.
  replace (y <=? 99) with false by (symmetry; apply Z.leb_gt; lia).
  by rewrite andb_false_r.
Qed.

(** [d.setUTCDate(d.getUTCDate() + k)] on a date at midnight moves it by [k]
    days. *)
Lemma setUTCDate_days D k :
  JSDate.setUTCDate (D * JSDate.msPerDay) (JSDate.getUTCDate (D * JSDate.msPerDay) + k)
  = (D + k) * JSDate.msPerDay.
Proof.
  unfold JSDate.setUTCDate, JSDate.getUTCDate, JSDate.YearFromTime, JSDate.MonthFromTime,
    JSDate.DateFromTime.
  rewrite Day_days, TimeWithinDay_days.
  destruct (civil_spec D) as (y & m & d & -> & _ & _ & Hmk & _). simpl.
  rewrite MakeDay_date, Hmk. lia.
Qed.

(** [Date.UTC] of the civil fields of a day, for a year that [Date.UTC]
    does not read as 19xx. *)
Lemma UTC_civil D :
  JSDate.DayFromYear 100 ≤ D →
  JSDate.UTC (JSDate.civil D).1.1 (JSDate.civil D).1.2 (JSDate.civil D).2 0 0
  = D * JSDate.msPerDay.
Proof.
  intros HD. destruct (civil_spec D) as (y & m & d & -> & _ & _ & Hmk & Hy). simpl.
  unfold JSDate.UTC. rewrite fullYear_id, Hmk; [lia|].
  destruct (decide (100 ≤ y)); [done|].
  pose proof (DayFromYear_mono (y + 1) 100). lia.
Qed.

Lemma MakeDay_january y d : JSDate.MakeDay y 0 d = JSDate.DayFromYear y + d - 1.
Proof.
  unfold JSDate.MakeDay. change (0 / 12) with 0. change (0 mod 12) with 0.
  unfold JSDate.daysBeforeMonth. rewrite (Z.add_0_r y). lia.
Qed.

Lemma UTC_january y :
  100 ≤ y → JSDate.UTC y 0 1 0 0 = JSDate.DayFromYear y * JSDate.msPerDay.
Proof.
  intros H. unfold JSDate.UTC. rewrite fullYear_id, MakeDay_january by done. lia.
Qed.

(* --------------------------------------------------------------------- *)
(** *** [getWeek], [getISOWeeksInYear] and [getDateOfISOWeek]             *)

(** The Thursday of the ISO week of day [D], and the ISO week number. *)
Lemma isoThursday_days D :
  isoThursday (D * JSDate.msPerDay) = D + 3 - (D + 3) mod 7.
Proof.
  unfold isoThursday, JSDate.WeekDay. rewrite Day_days.
  Z.div_mod_to_equations; lia.
Qed.

Lemma isoWeekOf_local tz t :
  isoWeekOf (JSDate.LocalTime tz t)
  = isoWeekOf (JSDate.Day (JSDate.LocalTime tz t) * JSDate.msPerDay).
Proof. unfold isoWeekOf, isoThursday, JSDate.WeekDay. by rewrite !Day_days. Qed.

(** [getWeek] on a date whose local day is [D]. *)
Lemma getWeek_days tz t :
  JSDate.DayFromYear 100 + 3 ≤ JSDate.Day (JSDate.LocalTime tz t) →
  getWeek tz t = (isoWeekOf (JSDate.Day (JSDate.LocalTime tz t) * JSDate.msPerDay)).2.
Proof.
  set (D := JSDate.Day (JSDate.LocalTime tz t)). intros HD.
  unfold getWeek, JSDate.getFullYear, JSDate.getMonth, JSDate.getDate,
    JSDate.YearFromTime, JSDate.MonthFromTime, JSDate.DateFromTime. fold D.
  rewrite UTC_civil by lia.
  unfold JSDate.getUTCDay, JSDate.WeekDay. rewrite Day_days.
  set (day := if (D + 4) mod 7 =? 0 then 7 else (D + 4) mod 7).
  replace (JSDate.getUTCDate (D * JSDate.msPerDay) + 4 - day)
    with (JSDate.getUTCDate (D * JSDate.msPerDay) + (4 - day)) by lia.
  rewrite setUTCDate_days.
  assert (Hday : D + (4 - day) = D + 3 - (D + 3) mod 7).
  { unfold day. destruct ((D + 4) mod 7 =? 0) eqn:E;
      rewrite ?Z.eqb_eq, ?Z.eqb_neq in E; Z.div_mod_to_equations; lia. }
  rewrite Hday. set (T := D + 3 - (D + 3) mod 7).
  assert (HT : D - 3 ≤ T ≤ D + 3) by (unfold T; Z.div_mod_to_equations; lia).
  unfold isoWeekOf. rewrite isoThursday_days. fold T.
  unfold JSDate.getUTCFullYear, JSDate.YearFromTime. rewrite Day_days.
  destruct (civil_spec T) as (y & m & d & Hc & _ & _ & _ & Hy). rewrite Hc. cbn [fst snd].
  assert (100 ≤ y).
  { destruct (decide (100 ≤ y)); [done|].
    pose proof (DayFromYear_mono (y + 1) 100). lia. }
  rewrite UTC_january by done.
  replace (T * JSDate.msPerDay - JSDate.DayFromYear y * JSDate.msPerDay)
    with ((T - JSDate.DayFromYear y) * JSDate.msPerDay) by lia.
  unfold JSDate.msPerDay at 2. rewrite Z.div_mul by done.
  Z.div_mod_to_equations; lia.
Qed.

(** X1 (ISO week number).  [getWeek] gives the ISO 8601 week number of the
    local calendar day of the date, for every date from the year 101 on
    ([Date.UTC] reads the years 0 to 99 as 1900 to 1999). *)
Theorem getWeek_iso_week tz t :
  JSDate.UTC 101 0 1 0 0 ≤ JSDate.LocalTime tz t →
  getWeek tz t = (isoWeekOf (JSDate.LocalTime tz t)).2.
Proof.
  intros H. rewrite isoWeekOf_local. apply getWeek_days.
  rewrite UTC_january in H by lia.
  assert (H100 : JSDate.DayFromYear 100 + 3 ≤ JSDate.DayFromYear 101)
    by (vm_compute; discriminate).
  unfold JSDate.Day. apply Z.div_le_lower_bound; [done|]. unfold JSDate.msPerDay in *. lia.
Qed.

(** The ISO week of a day of year [y] whose Thursday does not fall in the
    year before. *)
Lemma isoWeekOf_in_year y D :
  JSDate.DayFromYear y ≤ D + 3 - (D + 3) mod 7 →
  D + 3 - (D + 3) mod 7 < JSDate.DayFromYear (y + 1) →
  isoWeekOf (D * JSDate.msPerDay)
  = (y, (D + 3 - (D + 3) mod 7 - JSDate.DayFromYear y) / 7 + 1).
Proof.
  intros Hlo Hhi. unfold isoWeekOf. rewrite isoThursday_days.
  by rewrite (civil_year _ y).
Qed.

Lemma Day_local_days tz D :
  -1440 < tz < 1440 →
  JSDate.Day (JSDate.LocalTime tz (D * JSDate.msPerDay)) = D + (if tz <? 0 then -1 else 0).
Proof.
  intros Htz. unfold JSDate.Day, JSDate.LocalTime, JSDate.msPerDay, JSDate.msPerMinute.
  destruct (tz <? 0) eqn:E; rewrite ?Z.ltb_lt, ?Z.ltb_ge in E.
  - symmetry. apply (Z.div_unique _ _ _ (tz * 60000 + 86400000)); lia.
  - symmetry. apply (Z.div_unique _ _ _ (tz * 60000)); lia.
Qed.

Lemma MakeDay_december y : JSDate.MakeDay y 11 31 = JSDate.DayFromYear (y + 1) - 1.
Proof.
  unfold JSDate.MakeDay. change (11 / 12) with 0. change (11 mod 12) with 11.
  unfold JSDate.daysBeforeMonth. rewrite (Z.add_0_r y), year_length.
  destruct (JSDate.InLeapYear y); lia.
Qed.

Lemma isoWeeksOf_cases y :
  isoWeeksOf y
  = if ((JSDate.DayFromYear y + 4) mod 7 =? 4)
       || (((JSDate.DayFromYear y + 4) mod 7 =? 3) && JSDate.InLeapYear y)
    then 53 else 52.
Proof. unfold isoWeeksOf, JSDate.WeekDay. by rewrite Day_days. Qed.

(** X2 (weeks of a year).  [getISOWeeksInYear] gives the number of ISO weeks
    of the year (53 when the year starts on a Thursday, or on a Wednesday
    and is a leap year, 52 otherwise), whatever the host's offset from UTC
    (less than a day). *)
Theorem getISOWeeksInYear_spec tz y :
  -1440 < tz < 1440 → 101 ≤ y → getISOWeeksInYear tz y = isoWeeksOf y.
Proof.
  intros Htz Hy. unfold getISOWeeksInYear.
  assert (Hd : JSDate.UTC y 11 31 0 0 = (JSDate.DayFromYear (y + 1) - 1) * JSDate.msPerDay).
  { unfold JSDate.UTC. rewrite fullYear_id, MakeDay_december by lia. lia. }
  rewrite Hd.
  pose proof (DayFromYear_mono 101 y Hy) as Hm.
  pose proof (year_length 100) as H100. change (100 + 1) with 101 in H100.
  pose proof (year_length y) as Hlen.
  pose proof (year_length (y + 1)) as Hlen'.
  set (J := JSDate.DayFromYear y) in *.
  rewrite getWeek_days; rewrite Day_local_days by done;
    [|destruct (tz <? 0), (JSDate.InLeapYear y), (JSDate.InLeapYear 100); lia].
  set (D := JSDate.DayFromYear (y + 1) - 1 + (if tz <? 0 then -1 else 0)).
  rewrite isoWeeksOf_cases. fold J.
  set (T := D + 3 - (D + 3) mod 7).
  destruct (decide (T < JSDate.DayFromYear (y + 1))) as [Hin|Hout].
  - rewrite (isoWeekOf_in_year y D)
      by (fold T; unfold T, D in *; destruct (tz <? 0), (JSDate.InLeapYear y);
          Z.div_mod_to_equations; lia).
    cbn [snd]. fold T.
    destruct ((J + 4) mod 7 =? 4) eqn:E4; destruct ((J + 4) mod 7 =? 3) eqn:E3;
      destruct (JSDate.InLeapYear y) eqn:EL; destruct (tz <? 0) eqn:Etz;
      rewrite ?Z.eqb_eq, ?Z.eqb_neq in *; cbn [orb andb];
      match goal with |- (if ?c then _ else _) = _ => destruct c eqn:E1 end;
      rewrite ?Z.eqb_eq, ?Z.eqb_neq in *;
      unfold T, D in *; Z.div_mod_to_equations; lia.
  - rewrite (isoWeekOf_in_year (y + 1) D)
      by (fold T; unfold T, D in *; destruct (tz <? 0), (JSDate.InLeapYear (y + 1));
          Z.div_mod_to_equations; lia).
    cbn [snd]. fold T.
    destruct ((J + 4) mod 7 =? 4) eqn:E4; destruct ((J + 4) mod 7 =? 3) eqn:E3;
      destruct (JSDate.InLeapYear y) eqn:EL; destruct (tz <? 0) eqn:Etz;
      rewrite ?Z.eqb_eq, ?Z.eqb_neq in *; cbn [orb andb];
      match goal with |- (if ?c then _ else _) = _ => destruct c eqn:E1 end;
      rewrite ?Z.eqb_eq, ?Z.eqb_neq in *;
      unfold T, D in *; Z.div_mod_to_equations; lia.
Qed.

(** [getDateOfISOWeek] as a day number: the Monday of the week of
    1 January plus [w - 1] weeks when that day is a Monday to a Thursday,
    the Monday after otherwise. *)
Lemma getDateOfISOWeek_days w y :
  100 ≤ y →
  let X := JSDate.DayFromYear y + (w - 1) * 7 in
  let day := if (X + 4) mod 7 =? 0 then 7 else (X + 4) mod 7 in
  getDateOfISOWeek w y
  = (X + (1 - day + (if day <=? 4 then 0 else 7))) * JSDate.msPerDay.
Proof.
  intros Hy X day. unfold getDateOfISOWeek.
  assert (Hd : JSDate.UTC y 0 (1 + (w - 1) * 7) 0 0 = X * JSDate.msPerDay).
  { unfold JSDate.UTC. rewrite fullYear_id, MakeDay_january by done. unfold X. lia. }
  rewrite Hd. unfold JSDate.getUTCDay, JSDate.WeekDay. rewrite Day_days.
  fold day. apply setUTCDate_days.
Qed.

(** X3 (Monday of an ISO week).  [getDateOfISOWeek(w, y)], for a week number
    that [getISOWeeksInYear] allows, is a Monday at midnight UTC, and it is
    the Monday of ISO week [w] of year [y]; in a host at or east of UTC,
    [getWeek] gives [w] back on it. *)
Theorem getDateOfISOWeek_round_trip tz w y :
  0 ≤ tz < 1440 → 101 ≤ y → 1 ≤ w ≤ getISOWeeksInYear tz y →
  JSDate.getUTCDay (getDateOfISOWeek w y) = 1 ∧
  JSDate.TimeWithinDay (getDateOfISOWeek w y) = 0 ∧
  isoWeekOf (getDateOfISOWeek w y) = (y, w) ∧
  getWeek tz (getDateOfISOWeek w y) = w.
Proof.
  intros Htz Hy Hw. rewrite getISOWeeksInYear_spec in Hw by lia.
  rewrite isoWeeksOf_cases in Hw.
  rewrite getDateOfISOWeek_days by lia. cbv zeta.
  pose proof (DayFromYear_mono 101 y Hy) as Hm.
  pose proof (year_length 100) as H100. change (100 + 1) with 101 in H100.
  pose proof (year_length y) as Hlen.
  set (J := JSDate.DayFromYear y) in *.
  set (X := J + (w - 1) * 7).
  set (day := if (X + 4) mod 7 =? 0 then 7 else (X + 4) mod 7).
  set (R := X + (1 - day + (if day <=? 4 then 0 else 7))).
  assert (Hday : 1 ≤ day ≤ 7 ∧ (X + 4 - day) mod 7 = 0).
  { unfold day. destruct ((X + 4) mod 7 =? 0) eqn:E;
      rewrite ?Z.eqb_eq, ?Z.eqb_neq in E; Z.div_mod_to_equations; lia. }
  assert (HJ : (J + 4) mod 7 = (X + 4) mod 7).
  { unfold X. replace (J + (w - 1) * 7 + 4) with (J + 4 + (w - 1) * 7) by lia.
    by rewrite Z.mod_add. }
  assert (HR : (R + 3) mod 7 = 0 ∧ J ≤ R + 3 < JSDate.DayFromYear (y + 1) ∧
               (R + 3 - J) / 7 + 1 = w).
  { unfold R. destruct Hday as [Hd1 Hd2]. rewrite HJ in Hw.
    destruct (day <=? 4) eqn:E4; rewrite ?Z.leb_le, ?Z.leb_gt in E4;
      destruct ((X + 4) mod 7 =? 4) eqn:Ea; destruct ((X + 4) mod 7 =? 3) eqn:Eb;
      destruct (JSDate.InLeapYear y); cbn [orb andb] in Hw;
      rewrite ?Z.eqb_eq, ?Z.eqb_neq in *; unfold day, X in *;
      destruct ((J + (w - 1) * 7 + 4) mod 7 =? 0) eqn:E0;
      rewrite ?Z.eqb_eq, ?Z.eqb_neq in *; Z.div_mod_to_equations; lia. }
  destruct HR as (HR7 & HRy & HRw).
  assert (Hiso : isoWeekOf (R * JSDate.msPerDay) = (y, w)).
  { rewrite (isoWeekOf_in_year y R); rewrite HR7, Z.sub_0_r; [|lia|lia].
    fold J. by rewrite HRw. }
  split_and!.
  - unfold JSDate.getUTCDay, JSDate.WeekDay. rewrite Day_days.
    Z.div_mod_to_equations; lia.
  - apply TimeWithinDay_days.
  - done.
  - rewrite getWeek_days; rewrite Day_local_days by lia;
      replace (tz <? 0) with false by (symmetry; apply Z.ltb_ge; lia);
      rewrite Z.add_0_r; [by rewrite Hiso|destruct (JSDate.InLeapYear 100); lia].
Qed.

(* --------------------------------------------------------------------- *)
(** *** The two readings of a deadline                                    *)

(** X4 (readings of a deadline).  A deadline [dd/mm/yyyy] is read in two
    ways. [parseDateFR], the sort key of the reallocation, reads it as
    midnight of that day in the host's time zone, so that its local day is
    the day written. The projection and the grid build a date from
    [yyyy-mm-dd], which is midnight UTC of that day: its local day is the
    day written in a host at or east of UTC, and the day before in a host
    west of UTC. *)
Theorem deadline_readings tz s d m y yy t :
  -1440 < tz < 1440 →
  splitSlash s = [d; m; y] →
  newDateISO y m d = Some t →
  Number y = Some yy → 100 ≤ yy →
  parseDateFR tz s = Some (JSDate.UTCofLocal tz t) ∧
  JSDate.Day (JSDate.LocalTime tz (JSDate.UTCofLocal tz t)) = JSDate.Day t ∧
  JSDate.Day (JSDate.LocalTime tz t) = JSDate.Day t + (if tz <? 0 then -1 else 0).
Proof.
  intros Htz Hs Hiso Hy Hyy. unfold newDateISO in Hiso.
  destruct (isDigits 4 y && isDigits 2 m && isDigits 2 d); [|done].
  rewrite Hy in Hiso. simpl in Hiso.
  destruct (Number m) as [mm|] eqn:Hm; [|done]. simpl in Hiso.
  destruct (Number d) as [dd|] eqn:Hd; [|done]. simpl in Hiso.
  destruct (_ && _) in Hiso; [|done]. injection Hiso as <-.
  split_and!.
  - unfold parseDateFR. rewrite Hs. simpl. rewrite Hd, Hm, Hy.
    unfold JSDate.newDateLocal. by rewrite fullYear_id.
  - unfold JSDate.LocalTime, JSDate.UTCofLocal. f_equal. lia.
  - rewrite Day_local_days by done. by rewrite Day_days.
Qed.

Lemma deadline_readings_witness :
  parseDateFR (-300) "19/03/2025"
  = Some (JSDate.UTCofLocal (-300) (JSDate.UTC 2025 2 19 0 0)) ∧
  JSDate.Day (JSDate.LocalTime (-300) (JSDate.UTCofLocal (-300) (JSDate.UTC 2025 2 19 0 0)))
  = JSDate.Day (JSDate.UTC 2025 2 19 0 0) ∧
  JSDate.Day (JSDate.LocalTime (-300) (JSDate.UTC 2025 2 19 0 0))
  = JSDate.Day (JSDate.UTC 2025 2 19 0 0) + (if -300 <? 0 then -1 else 0).
Proof.
  apply (deadline_readings (-300) "19/03/2025" "19" "03" "2025" 2025).
  - lia.
  - reflexivity.
  - vm_compute. reflexivity.
  - reflexivity.
  - lia.
Defined.

(* ===================================================================== *)
(** ** Objects                                                            *)
(* ===================================================================== *)

Section ObjectFacts.
Context {V : Type}.
Implicit Types (o : list (string * V)) (k : string) (v : V).

Lemma objGet_None o k : objGet o k = None ↔ k ∉ o.*1.
Proof.
  induction o as [|[k' v'] o IH]; simpl.
  - split; [intros _; apply not_elem_of_nil|done].
  - case_decide as Hk.
    + subst. split; [done|]. intros H. exfalso. apply H. left.
    + rewrite IH. rewrite not_elem_of_cons. split; [by intros ?; split|by intros [_ ?]].
Qed.

Lemma objGet_Some_elem o k v : objGet o k = Some v → (k, v) ∈ o.
Proof.
  induction o as [|[k' v'] o IH]; simpl; [done|].
  case_decide as Hk.
  - intros [= ->]. subst. left.
  - intros H. right. by apply IH.
Qed.

Lemma objGet_app o o' k :
  objGet (o ++ o') k = match objGet o k with Some v => Some v | None => objGet o' k end.
Proof.
  induction o as [|[k' v'] o IH]; simpl; [done|]. by case_decide.
Qed.

Lemma objGet_objReplace o k v k' :
  objGet (objReplace k v o) k'
  = if decide (k = k') then (λ _, v) <$> objGet o k else objGet o k'.
Proof.
  induction o as [|[k0 v0] o IH]; simpl.
  - by case_decide.
  - destruct (decide (k0 = k)) as [->|Hne]; simpl.
    + destruct (decide (k = k')) as [->|Hne']; simpl; [done|]. done.
    + rewrite IH. destruct (decide (k = k')) as [->|Hne']; simpl.
      * by rewrite decide_False.
      * done.
Qed.

Lemma objGet_objInsertIndex n o k v k' :
  objGet o k = None →
  objGet (objInsertIndex n k v o) k' = if decide (k = k') then Some v else objGet o k'.
Proof.
  induction o as [|[k0 v0] o IH]; simpl; intros Hk.
  - done.
  - destruct (decide (k0 = k)) as [->|Hne]; [done|].
    destruct (arrayIndex k0) as [n0|]; [destruct (n0 <? n)|]; simpl.
    + rewrite IH by done.
      destruct (decide (k = k')) as [->|]; [by rewrite decide_False|done].
    + done.
    + done.
Qed.

(** Reading a property after an assignment. *)
Lemma objGet_objSet o k v k' :
  objGet (objSet k v o) k' = if decide (k = k') then Some v else objGet o k'.
Proof.
  unfold objSet. destruct (objGet o k) as [v0|] eqn:Hk.
  - rewrite objGet_objReplace, Hk. done.
  - destruct (arrayIndex k) as [n|].
    + by apply objGet_objInsertIndex.
    + rewrite objGet_app. simpl.
      destruct (decide (k = k')) as [->|Hne]; [by rewrite Hk|].
      by destruct (objGet o k').
Qed.

Lemma objGet_objDelete o k k' :
  objGet (objDelete k o) k' = if decide (k = k') then None else objGet o k'.
Proof.
  unfold objDelete. induction o as [|[k0 v0] o IH]; simpl.
  - by case_decide.
  - destruct (decide (k0 = k)) as [->|Hne].
    + rewrite filter_cons_False by (simpl; tauto). rewrite IH.
      by destruct (decide (k = k')).
    + rewrite filter_cons_True by done. simpl. rewrite IH.
      destruct (decide (k0 = k')) as [->|]; [by rewrite decide_False|done].
Qed.

Lemma objDelete_absent o k : objGet o k = None → objDelete k o = o.
Proof.
  intros Hk. unfold objDelete. induction o as [|[k0 v0] o IH]; [done|].
  simpl in Hk. destruct (decide (k0 = k)); [done|].
  rewrite filter_cons_True by done. f_equal. by apply IH.
Qed.

Lemma objDelete_objInsertIndex n o k v :
  objGet o k = None → objDelete k (objInsertIndex n k v o) = o.
Proof.
  intros Hk. induction o as [|[k0 v0] o IH]; simpl.
  - unfold objDelete. rewrite filter_cons_False by (simpl; tauto). done.
  - simpl in Hk. destruct (decide (k0 = k)) as [|Hne]; [done|].
    assert (Hhere : objDelete k ((k, v) :: (k0, v0) :: o) = (k0, v0) :: o).
    { unfold objDelete. rewrite filter_cons_False by (simpl; tauto).
      rewrite filter_cons_True by done. f_equal.
      by apply (objDelete_absent o k). }
    destruct (arrayIndex k0) as [i0|]; [destruct (i0 <? n)|]; [|done|done].
    unfold objDelete. rewrite filter_cons_True by done. f_equal. by apply IH.
Qed.

(** Deleting a property that an assignment has just created gives the
    object back, key order included. *)
Lemma objDelete_objSet o k v : objGet o k = None → objDelete k (objSet k v o) = o.
Proof.
  intros Hk. unfold objSet. rewrite Hk. destruct (arrayIndex k) as [n|].
  - by apply objDelete_objInsertIndex.
  - unfold objDelete. rewrite filter_app.
    rewrite filter_cons_False by (simpl; tauto). rewrite filter_nil, app_nil_r.
    by apply (objDelete_absent o k).
Qed.

Lemma objDelete_objReplace o k v : objDelete k (objReplace k v o) = objDelete k o.
Proof.
  unfold objDelete. induction o as [|[k0 v0] o IH]; simpl; [done|].
  destruct (decide (k0 = k)) as [->|Hne].
  - by rewrite !filter_cons_False by (simpl; tauto).
  - rewrite !filter_cons_True by done. by rewrite IH.
Qed.

(** Deleting a property that has just been assigned leaves what deleting
    it before the assignment leaves. *)
Lemma objDelete_objSet_eq o k v : objDelete k (objSet k v o) = objDelete k o.
Proof.
  destruct (objGet o k) eqn:Hk.
  - unfold objSet. rewrite Hk. apply objDelete_objReplace.
  - rewrite (objDelete_absent o k Hk). by apply objDelete_objSet.
Qed.

Lemma objReplace_keys o k v : (objReplace k v o).*1 = o.*1.
Proof.
  induction o as [|[k0 v0] o IH]; csimpl; [done|].
  destruct (decide (k0 = k)) as [->|]; csimpl; [done|]. by rewrite IH.
Qed.

Lemma objReplace_length o k v : length (objReplace k v o) = length o.
Proof. by rewrite <- (length_fmap fst), objReplace_keys, length_fmap. Qed.

Lemma objSet_keys_present o k v : is_Some (objGet o k) → (objSet k v o).*1 = o.*1.
Proof. intros [v0 H]. unfold objSet. rewrite H. apply objReplace_keys. Qed.

Lemma objInsertIndex_keys n o k v : (objInsertIndex n k v o).*1 ≡ₚ k :: o.*1.
Proof.
  induction o as [|[k0 v0] o IH]; csimpl; [done|].
  destruct (arrayIndex k0) as [n0|]; [destruct (n0 <? n)|]; csimpl; [|done|done].
  rewrite IH. apply Permutation_swap.
Qed.

Lemma objSet_keys o k v :
  (objSet k v o).*1 ≡ₚ if objGet o k is Some _ then o.*1 else k :: o.*1.
Proof.
  unfold objSet. destruct (objGet o k) eqn:Hk.
  - by rewrite objReplace_keys.
  - destruct (arrayIndex k).
    + apply objInsertIndex_keys.
    + rewrite fmap_app. simpl. by rewrite Permutation_app_comm.
Qed.

Lemma objSet_NoDup o k v : NoDup o.*1 → NoDup (objSet k v o).*1.
Proof.
  intros Hnd. rewrite objSet_keys. destruct (objGet o k) eqn:Hk; [done|].
  apply NoDup_cons. split; [|done]. by apply objGet_None.
Qed.

Lemma objDelete_NoDup o k : NoDup o.*1 → NoDup (objDelete k o).*1.
Proof.
  intros Hnd. unfold objDelete.
  assert (Hsub : (filter (λ kv : string * V, kv.1 ≠ k) o).*1 `sublist_of` o.*1)
    by apply fmap_sublist, sublist_filter.
  by eapply sublist_NoDup.
Qed.
End ObjectFacts.

Lemma dataGet_objGet (data : Data) name : dataGet data name = objGet data name.
Proof. induction data as [|[n a] data IH]; simpl; [done|]. by rewrite IH. Qed.

Lemma dataGet_objSet (data : Data) k v k' :
  dataGet (objSet k v data) k' = if decide (k = k') then Some v else dataGet data k'.
Proof. by rewrite !dataGet_objGet, objGet_objSet. Qed.

Lemma dataGet_objDelete (data : Data) k k' :
  dataGet (objDelete k data) k' = if decide (k = k') then None else dataGet data k'.
Proof. by rewrite !dataGet_objGet, objGet_objDelete. Qed.

(* ===================================================================== *)
(** ** What a reallocation leaves alone                                   *)
(* ===================================================================== *)

Section FrameFacts.
Variables (tz : Z) (weeks : list Week) (cur : nat) (data : Data).

Local Abbreviation pass := (processResource tz weeks cur data).

Global Instance keepsPast_preorder : PreOrder (keepsPastKeys tz weeks cur).
Proof.
  split.
  - intros a. by split.
  - intros a b c [F1 K1] [F2 K2]. split; [by etrans|].
    intros k Hk. by rewrite K2, K1.
Qed.

Lemma deprogram_keepsPast ch : keepsPastKeys tz weeks cur ch (deprogram tz weeks cur ch).
Proof.
  unfold deprogram. destruct (negb (isActive ch)); [|done].
  destruct (planification ch) as [p|] eqn:Hp; [|done].
  split; [done|]. intros k Hk. unfold planifOf. simpl. rewrite Hp. simpl.
  rewrite map_lookup_filter. destruct (p !! k); simpl; [|done].
  rewrite option_guard_True; [done|]. simpl. by apply isPastKey_not_future.
Qed.

Lemma resetJob_keepsPast ch : keepsPastKeys tz weeks cur ch (resetJob tz weeks cur ch).
Proof.
  split; [done|]. intros k Hk. rewrite planifOf_resetJob, map_lookup_filter.
  destruct (planifOf ch !! k); simpl; [|done]. by rewrite option_guard_True.
Qed.

Lemma planEvolves_keepsPast a b : planEvolves tz weeks cur a b → keepsPastKeys tz weeks cur a b.
Proof.
  intros (F&_&_&K&_). split; [done|]. intros k Hk. apply K.
  by apply isPastKey_not_future.
Qed.

Lemma pass_keepsPast st name : Forall2 (keepsPastKeys tz weeks cur) st (pass st name).
Proof.
  destruct (processResource_spec tz weeks cur data st name) as (HF & Hfr & _ & Hjobs).
  apply Forall2_same_length_lookup_2; [by eapply Forall2_length|].
  intros i a b Ha Hb.
  destruct (decide (i ∈ chantierList tz st name)) as [Hi|Hi].
  - destruct (Hjobs i a Hi Ha) as (b' & Hb' & Hev & _).
    assert (b' = b) as -> by congruence.
    etrans; [apply resetJob_keepsPast|by apply planEvolves_keepsPast].
  - rewrite (Hfr i Hi) in Hb. assert (a = b) as -> by congruence. done.
Qed.

Lemma runBody_keepsPast st :
  Forall2 (keepsPastKeys tz weeks cur) st (runBody tz weeks cur data st).
Proof.
  unfold runBody.
  etrans; [|apply Forall2_fmap_r, Forall_Forall2_diag, Forall_forall; by intros x _].
  etrans; [|apply (foldl_rel (Forall2 (keepsPastKeys tz weeks cur))); intros a n _;
            apply pass_keepsPast].
  apply Forall2_fmap_r, Forall_Forall2_diag, Forall_forall.
  intros ch _. apply deprogram_keepsPast.
Qed.

(** A job that no pass selects is never touched by the passes. *)
Lemma passes_unselected st names j ch :
  st !! j = Some ch → (∀ n, n ∈ names → isSelected n ch = false) →
  foldl pass st names !! j = Some ch.
Proof.
  revert st. induction names as [|n names IH]; intros st Hch Hsel; [done|].
  simpl. apply IH.
  - rewrite pass_frame; [done|].
    intros (ch' & Hch' & Hs)%chantierList_lookup.
    assert (ch' = ch) as -> by congruence.
    rewrite (Hsel n) in Hs; [done|left].
  - intros m Hm. apply Hsel. by right.
Qed.

Lemma runBody_unselected st j ch :
  st !! j = Some ch → isActive ch = true →
  (∀ n, n ∈ data.*1 → preparateur ch ≠ Some n) →
  runBody tz weeks cur data st !! j = Some (set_tempsRestant None ch).
Proof.
  intros Hch Hact Hprep. unfold runBody. rewrite list_lookup_fmap.
  rewrite (passes_unselected _ _ j ch); [done| |].
  - rewrite list_lookup_fmap, Hch. simpl. by rewrite deprogram_active.
  - intros n Hn. unfold isSelected.
    rewrite bool_decide_eq_false_2; [done|]. by apply Hprep.
Qed.

Lemma runBody_inactive st j ch :
  st !! j = Some ch → isActive ch = false →
  runBody tz weeks cur data st !! j
  = Some (set_tempsRestant None (deprogram tz weeks cur ch)).
Proof.
  intros Hch Hact. unfold runBody. rewrite list_lookup_fmap.
  rewrite (passes_inactive tz weeks cur data _ _ j (deprogram tz weeks cur ch)); [done| |].
  - by rewrite list_lookup_fmap, Hch.
  - by rewrite deprogram_isActive.
Qed.

Lemma deprogram_deprogrammed ch :
  isActive ch = false →
  deprogrammedKeys tz weeks cur ch (set_tempsRestant None (deprogram tz weeks cur ch)).
Proof.
  intros Hact key w idx Hkey.
  assert (Hp : planifOf (set_tempsRestant None (deprogram tz weeks cur ch))
               = filter (λ kv, isFutureKey tz weeks cur kv.1 = false) (planifOf ch)).
  { unfold deprogram, planifOf. rewrite Hact. simpl.
    destruct (planification ch) eqn:Hp0; simpl; [done|].
    by rewrite Hp0, map_filter_empty. }
  rewrite Hp. split; intros Hidx.
  - apply map_lookup_filter_None_2. right. intros x _. simpl.
    unfold isFutureKey. rewrite Hkey. rewrite bool_decide_eq_true_2 by done. done.
  - rewrite map_lookup_filter. destruct (planifOf ch !! key); simpl; [|done].
    rewrite option_guard_True; [done|]. simpl.
    unfold isFutureKey. rewrite Hkey. apply bool_decide_eq_false. lia.
Qed.
End FrameFacts.

(* --------------------------------------------------------------------- *)
(** *** The keys of the generated calendar                                *)

Lemma weekKeys_distinct_west_all : NoDup (weekKey (-1) <$> weeks (-1)).
Proof. apply (bool_decide_unpack _). vm_compute. exact I. Qed.

Lemma calendarChecked_tz tz :
  calendarChecked (weeks (if tz <? 0 then -1 else 0)).
Proof. destruct (tz <? 0); [apply calendarChecked_west|apply calendarChecked_utc]. Qed.

(** The keys of the calendar depend on the side of UTC only. *)
Lemma calendar_keys tz :
  -1440 < tz < 1440 →
  weekKey tz <$> weeks tz
  = weekKey (if tz <? 0 then -1 else 0) <$> weeks (if tz <? 0 then -1 else 0).
Proof.
  intros Htz. rewrite (weeks_tz tz Htz).
  apply list_fmap_ext. intros i w Hw. apply weekKey_tz; [|done].
  destruct (calendarChecked_tz tz) as (_ & Hmon & _).
  destruct (proj1 (Forall_forall _ _) Hmon w (list_elem_of_lookup_2 _ _ _ Hw)) as [_ Hmid].
  unfold JSDate.TimeWithinDay in Hmid. by apply Z.mod_divide.
Qed.

Lemma calendar_key tz k w :
  -1440 < tz < 1440 → weeks tz !! k = Some w →
  (weekKey (if tz <? 0 then -1 else 0) <$> weeks (if tz <? 0 then -1 else 0)) !! k
  = Some (weekKey tz w).
Proof.
  intros Htz Hw. rewrite <- (calendar_keys tz Htz). by rewrite list_lookup_fmap, Hw.
Qed.

(** Two weeks of the calendar have the same key only in a host at or east
    of UTC, and they are then the weeks at positions 0 and 52. *)
Lemma calendar_collision tz i j w w' :
  -1440 < tz < 1440 → (i < j)%nat →
  weeks tz !! i = Some w → weeks tz !! j = Some w' →
  weekKey tz w = weekKey tz w' →
  0 ≤ tz ∧ i = 0%nat ∧ j = 52%nat.
Proof.
  intros Htz Hij Hi Hj Heq.
  apply (calendar_key tz _ _ Htz) in Hi. apply (calendar_key tz _ _ Htz) in Hj.
  rewrite <- Heq in Hj. clear Heq. revert Hi Hj.
  destruct (tz <? 0) eqn:Hs; intros Hi Hj.
  - pose proof (NoDup_lookup _ _ _ _ weekKeys_distinct_west_all Hi Hj). lia.
  - apply Z.ltb_ge in Hs. split; [done|].
    assert (H52 : (weekKey 0 <$> weeks 0) !! 52%nat = (weekKey 0 <$> weeks 0) !! 0%nat).
    { destruct weekKey_collision as (H0 & H52 & _).
      rewrite !list_lookup_fmap. by rewrite H0, H52. }
    assert (Hd : ∀ n, drop 1 (weekKey 0 <$> weeks 0) !! n = (weekKey 0 <$> weeks 0) !! S n).
    { intros n. by rewrite lookup_drop. }
    destruct i as [|i].
    + split; [done|]. rewrite Hi in H52.
      destruct j as [|j]; [lia|].
      rewrite <- Hd in Hj. rewrite <- (Hd 51%nat) in H52.
      pose proof (NoDup_lookup _ _ _ _ weekKeys_distinct_utc Hj H52). lia.
    + destruct j as [|j]; [lia|].
      rewrite <- Hd in Hi, Hj.
      pose proof (NoDup_lookup _ _ _ _ weekKeys_distinct_utc Hi Hj). lia.
Qed.

(** At or east of UTC the weeks at positions 0 and 52 do have the same
    key. *)
Lemma calendar_shared_key tz w :
  -1440 < tz < 1440 → 0 ≤ tz → weeks tz !! 0%nat = Some w →
  ∃ w', weeks tz !! 52%nat = Some w' ∧ weekKey tz w' = weekKey tz w.
Proof.
  intros Htz Hpos Hw.
  assert (Hs : (tz <? 0) = false) by (apply Z.ltb_ge; lia).
  pose proof (calendar_key tz _ _ Htz Hw) as H0. rewrite Hs in H0.
  destruct (lookup_lt_is_Some_2 (weeks tz) 52) as [w' Hw'].
  { rewrite (weeks_tz tz Htz), Hs. vm_compute. lia. }
  exists w'. split; [exact Hw'|].
  pose proof (calendar_key tz _ _ Htz Hw') as H52. rewrite Hs in H52.
  destruct weekKey_collision as (K0 & K52 & _).
  rewrite <- list_lookup_fmap in K0, K52.
  rewrite K0 in H0. rewrite K52 in H52.
  injection H0 as <-. injection H52 as <-. reflexivity.
Qed.

(** The key of a week from the current one on is a future key. *)
Lemma calendar_futureKey tz weeks cur k w :
  weeks !! k = Some w → (cur ≤ k)%nat →
  ∃ w' j, weekMap tz weeks !! weekKey tz w = Some (w', j) ∧ (cur ≤ j)%nat.
Proof.
  intros Hw Hk. destruct (weekMap_later tz weeks k w Hw) as (w' & j & Hj & Hle).
  exists w', j. split; [done|lia].
Qed.

(** The key of a week before the current one is a past key, but for the
    key that the first week shares. *)
Lemma beforeCurrent_weekMap tz cur k w :
  -1440 < tz < 1440 → weeks tz !! k = Some w → beforeCurrent tz cur k →
  ∃ w' j, weekMap tz (weeks tz) !! weekKey tz w = Some (w', j) ∧ (j < cur)%nat.
Proof.
  intros Htz Hw [Hk Hex].
  destruct (weekMap_later tz (weeks tz) k w Hw) as (w' & j & Hj & Hle).
  exists w', j. split; [done|].
  destruct (decide (k = j)) as [<-|Hne]; [done|].
  destruct (weekMap_inv tz (weeks tz) _ _ _ Hj) as [Hw' Hkey].
  destruct (calendar_collision tz k j w w' Htz) as (Hpos & -> & ->); [lia|done|done|done|].
  lia.
Qed.



Lemma deprogrammedKeys_calendar tz cur ch ch' :
  -1440 < tz < 1440 → deprogrammedKeys tz (weeks tz) cur ch ch' → deprogrammed tz cur ch ch'.
Proof.
  intros Htz Hkeys. split_and!.
  - intros k w Hw Hk.
    destruct (calendar_futureKey tz (weeks tz) cur k w Hw Hk) as (w' & j & Hj & Hle).
    by apply (Hkeys _ _ _ Hj).
  - intros k w Hw Hb.
    destruct (beforeCurrent_weekMap tz cur k w Htz Hw Hb) as (w' & j & Hj & Hlt).
    by apply (Hkeys _ _ _ Hj).
  - intros Hpos Hcur w Hw.
    destruct (calendar_shared_key tz w Htz Hpos Hw) as (w' & Hw' & <-).
    destruct (calendar_futureKey tz (weeks tz) cur 52 w' Hw' Hcur) as (w'' & j & Hj & Hle).
    by apply (Hkeys _ _ _ Hj).
Qed.

(** What deprogramming does on the generated calendar (C4), week by week,
    in a host whose offset from UTC is less than a day: after a run that
    found the current week [cur], a job that is not active has no entry
    left under the key of a week from [cur] on, and has its entries under
    the keys of the weeks before [cur], but for the week at position 0 in
    a host at or east of UTC while [cur] is not after position 52, whose
    entry is deleted. *)
Lemma deprogramming_calendar tz now s cur i ch :
  -1440 < tz < 1440 →
  currentWeekIdx tz (weeks tz) now = Some cur →
  chantiers s !! i = Some ch → isActive ch = false →
  ∃ ch', chantiers (repartitionAutomatique tz (weeks tz) now s).2 !! i = Some ch' ∧
         deprogrammed tz cur ch ch'.
Proof.
  intros Htz Hcur Hch Hact. rewrite (run_completed tz (weeks tz) now s cur Hcur). simpl.
  rewrite (runBody_inactive tz (weeks tz) cur (data s) (chantiers s) i ch Hch Hact).
  eexists. split; [done|].
  apply deprogrammedKeys_calendar; [done|]. by apply deprogram_deprogrammed.
Qed.


Lemma run_unowned tz weeks now s i ch :
  chantiers s !! i = Some ch → isActive ch = true →
  (∀ name, name ∈ (data s).*1 → preparateur ch ≠ Some name) →
  ∃ ch', chantiers (repartitionAutomatique tz weeks now s).2 !! i = Some ch' ∧
    sameFixed ch ch' ∧ planification ch' = planification ch ∧
    ChargeRestante ch' = ChargeRestante ch.
Proof.
  intros Hch Hact Hprep.
  destruct (currentWeekIdx tz weeks now) as [cur|] eqn:Hcur.
  - rewrite (run_completed tz weeks now s cur Hcur). simpl.
    exists (set_tempsRestant None ch). split; [|done].
    by apply runBody_unselected.
  - rewrite (run_aborted tz weeks now s Hcur). simpl. by exists ch.
Qed.

(** X6 (jobs without a known resource).  A job that is active but belongs to
    nobody, or to a resource that the availability store does not have, is
    not planned at all: a run leaves its allocation map as it is, entries of
    the coming weeks included, and does not set its [ChargeRestante]. *)
Theorem reallocation_skips_unowned tz weeks now s i ch :
  chantiers s !! i = Some ch → isActive ch = true →
  (∀ name, name ∈ (data s).*1 → preparateur ch ≠ Some name) →
  ∃ ch', chantiers (repartitionAutomatique tz weeks now s).2 !! i = Some ch' ∧
    sameFixed ch ch' ∧ planification ch' = planification ch ∧
    ChargeRestante ch' = ChargeRestante ch.
Proof. apply run_unowned. Qed.

(* --------------------------------------------------------------------- *)
(** *** The reallocation on the globals                                   *)

Lemma run_sameFixed tz weeks now s :
  Forall2 sameFixed (chantiers s) (chantiers (repartitionAutomatique tz weeks now s).2).
Proof.
  destruct (currentWeekIdx tz weeks now) as [cur|] eqn:Hcur.
  - rewrite (run_completed tz weeks now s cur Hcur). simpl.
    eapply Forall2_impl; [apply runBody_keepsPast|]. by intros a b [? _].
  - by rewrite (run_aborted tz weeks now s Hcur).
Qed.

Lemma reallocate_data tz weeks now g : g_data (reallocate tz weeks now g) = g_data g.
Proof.
  unfold reallocate. simpl. unfold repartitionAutomatique.
  by destruct (currentWeekIdx tz weeks now).
Qed.

Lemma reallocate_meta tz weeks now g :
  g_preparateursMeta (reallocate tz weeks now g) = g_preparateursMeta g.
Proof. done. Qed.

(** The job at a position of the store after a reallocation: the same key,
    and the record that [repartitionAutomatique] leaves at that position. *)
Lemma reallocate_lookup tz weeks now g i key ch :
  g_chantiers g !! i = Some (key, ch) →
  ∃ ch', g_chantiers (reallocate tz weeks now g) !! i = Some (key, ch') ∧
    chantiers (repartitionAutomatique tz weeks now
                 (mkState (g_chantiers g).*2 (g_data g))).2 !! i = Some ch'.
Proof.
  intros Hi. unfold reallocate. simpl.
  set (s := mkState (g_chantiers g).*2 (g_data g)).
  pose proof (run_sameFixed tz weeks now s) as HF.
  assert (Hv : chantiers s !! i = Some ch).
  { simpl. by rewrite list_lookup_fmap, Hi. }
  destruct (Forall2_lookup_l _ _ _ _ _ HF Hv) as (ch' & Hch' & _).
  exists ch'. split; [|done].
  apply lookup_zip_with_Some. exists key, ch'. split; [done|]. split; [|done].
  by rewrite list_lookup_fmap, Hi.
Qed.

Lemma reallocate_keys tz weeks now g :
  (g_chantiers (reallocate tz weeks now g)).*1 = (g_chantiers g).*1.
Proof.
  unfold reallocate. simpl. apply fst_zip.
  rewrite <- (Forall2_length _ _ _ (run_sameFixed tz weeks now _)). simpl.
  by rewrite !length_fmap.
Qed.



(* ===================================================================== *)
(** ** The key that two weeks share                                       *)
(* ===================================================================== *)

(** C4, at the failing input.  Host at UTC+1, Wednesday 6 March 2024: the
    run finds the current week at position 9.  The cancelled job has 100
    minutes under the key of the week at position 0 (week 1 of 2024) and
    60 under the key of the week at position 4, both before the current
    week.  The week at position 52 (week 1 of 2025, Monday 30 December
    2024) has the key of the week at position 0, and [weekMap] gives that
    key the position 52: the run deletes the entry of week 1 of 2024, and
    keeps the other one. *)
Theorem deprogramming_shared_key :
  currentWeekIdx hostOffset calendar march2024 = Some 9%nat ∧
  isActive doneInJanuary = false ∧
  weekKey hostOffset <$> calendar !! 0%nat = Some "2024-W01-1" ∧
  weekKey hostOffset <$> calendar !! 4%nat = Some "2024-W05-1" ∧
  weekKey hostOffset <$> calendar !! 52%nat = Some "2024-W01-1" ∧
  snd <$> weekMap hostOffset calendar !! "2024-W01-1" = Some 52%nat ∧
  planifOf doneInJanuary !! "2024-W01-1" = Some 100 ∧
  planifOf doneInJanuary !! "2024-W05-1" = Some 60 ∧
  (λ ch, (planifOf ch !! "2024-W01-1", planifOf ch !! "2024-W05-1"))
    <$> chantiers (repartitionAutomatique hostOffset calendar march2024
                     (mkState [doneInJanuary] [])).2
  = [(None, Some 60)].
Proof. split_and!; vm_compute; reflexivity. Qed.

(** C6, at the failing input.  Host at UTC+1, page loaded on Tuesday 2
    January 2024: [nowId] names the week at position 0, so every week of
    the calendar is projected.  Resource "A" has no job and 600 minutes in
    week 21 of 2024 only, so [M] is 0 for the weeks at positions 1 to 19.
    The weeks at positions 0 and 52 have the same key: the record of that
    key is written for position 0 and written again for position 52.  In
    the finished projection the [Tdisp] of week 1 of 2024 is 10, the least
    [M] of the weeks at positions 52 to 67, while the [M] of the week at
    position 1, in the window of position 0, is 0: [Tdisp] is not the least
    [M] of the window of the week, though it is at most the [M] found under
    the key of the week. *)
Theorem tdisp_shared_key :
  currentIndex hostOffset calendar january2024 = Some 0%nat ∧
  projectedKeys hostOffset calendar 0 !! 0%nat = Some "2024-W01-1" ∧
  projectedKeys hostOffset calendar 0 !! 1%nat = Some "2024-W02-1" ∧
  projectedKeys hostOffset calendar 0 !! 52%nat = Some "2024-W01-1" ∧
  ∃ marges,
    margesGlobales hostOffset calendar availableInMay 0 "A" = Some marges ∧
    (λ c, (M c, Tdisp c)) <$> marges !! "2024-W01-1" = Some (10%Q, Some (Fin 10)) ∧
    (λ c, (M c, Tdisp c)) <$> marges !! "2024-W02-1" = Some (0%Q, Some (Fin 0)) ∧
    ¬ windowMinimum marges (projectedKeys hostOffset calendar 0) 0 10.
Proof.
  split; [vm_compute; reflexivity|]. split; [vm_compute; reflexivity|].
  split; [vm_compute; reflexivity|]. split; [vm_compute; reflexivity|].
  assert (H0 : (λ c, (M c, Tdisp c))
                 <$> (margesGlobales hostOffset calendar availableInMay 0 "A"
                        ≫= (.!! "2024-W01-1")) = Some (10%Q, Some (Fin 10)))
    by (vm_compute; reflexivity).
  assert (H1 : (λ c, (M c, Tdisp c))
                 <$> (margesGlobales hostOffset calendar availableInMay 0 "A"
                        ≫= (.!! "2024-W02-1")) = Some (0%Q, Some (Fin 0)))
    by (vm_compute; reflexivity).
  destruct (margesGlobales hostOffset calendar availableInMay 0 "A") as [marges|];
    [|discriminate H0].
  exists marges. split; [reflexivity|]. split; [exact H0|]. split; [exact H1|].
  intros [Hle _]. cbn [mbind option_bind] in H1.
  destruct (marges !! "2024-W02-1") as [c1|] eqn:Hc1; [|discriminate H1].
  injection H1 as HM _.
  assert (Hk : projectedKeys hostOffset calendar 0 !! 1%nat = Some "2024-W02-1")
    by (vm_compute; reflexivity).
  specialize (Hle 1%nat "2024-W02-1" c1 ltac:(lia) Hk Hc1).
  rewrite HM in Hle. apply Hle. reflexivity.
Qed.

(* --------------------------------------------------------------------- *)
(** *** Jobs by their key                                                 *)

Lemma objGet_lookup {V} (o : list (string * V)) k v :
  objGet o k = Some v → ∃ i, o !! i = Some (k, v).
Proof. intros H%objGet_Some_elem. by apply list_elem_of_lookup. Qed.

Lemma lookup_objGet {V} (o : list (string * V)) i k v :
  NoDup o.*1 → o !! i = Some (k, v) → objGet o k = Some v.
Proof.
  revert i. induction o as [|[k0 v0] o IH]; intros i Hnd Hi; [done|].
  apply NoDup_cons in Hnd as [Hk0 Hnd]. simpl.
  destruct i as [|i]; simpl in Hi.
  - injection Hi as -> ->. by rewrite decide_True.
  - destruct (decide (k0 = k)) as [->|Hne]; [|by eapply IH].
    exfalso. apply Hk0. apply list_elem_of_fmap. exists (k, v). split; [done|].
    by eapply list_elem_of_lookup_2.
Qed.

Lemma reallocate_NoDup tz weeks now g :
  NoDup (g_chantiers g).*1 → NoDup (g_chantiers (reallocate tz weeks now g)).*1.
Proof. by rewrite reallocate_keys. Qed.

(** The job of a key after a reallocation. *)
Lemma reallocate_objGet tz weeks now g k ch :
  NoDup (g_chantiers g).*1 → objGet (g_chantiers g) k = Some ch →
  ∃ i ch', g_chantiers g !! i = Some (k, ch) ∧
    objGet (g_chantiers (reallocate tz weeks now g)) k = Some ch' ∧
    chantiers (repartitionAutomatique tz weeks now
                 (mkState (g_chantiers g).*2 (g_data g))).2 !! i = Some ch'.
Proof.
  intros Hnd Hk. destruct (objGet_lookup _ _ _ Hk) as [i Hi].
  destruct (reallocate_lookup tz weeks now g i k ch Hi) as (ch' & Hi' & Hrun).
  exists i, ch'. split; [done|]. split; [|done].
  apply (lookup_objGet _ i); [by apply reallocate_NoDup|done].
Qed.

Lemma reallocate_objGet_None tz weeks now g k :
  objGet (g_chantiers g) k = None →
  objGet (g_chantiers (reallocate tz weeks now g)) k = None.
Proof. rewrite !objGet_None. by rewrite reallocate_keys. Qed.


Lemma reallocate_keepsPast tz weeks now cur g k ch :
  currentWeekIdx tz weeks now = Some cur →
  NoDup (g_chantiers g).*1 → objGet (g_chantiers g) k = Some ch →
  ∃ ch', objGet (g_chantiers (reallocate tz weeks now g)) k = Some ch' ∧
         keepsPastKeys tz weeks cur ch ch'.
Proof.
  intros Hcur Hnd Hk.
  destruct (reallocate_objGet tz weeks now g k ch Hnd Hk) as (i & ch' & Hi & Hk' & Hrun).
  exists ch'. split; [done|].
  rewrite (run_completed tz weeks now _ cur Hcur) in Hrun. simpl in Hrun.
  pose proof (runBody_keepsPast tz weeks cur (g_data g) (g_chantiers g).*2) as HF.
  assert (Hv : (g_chantiers g).*2 !! i = Some ch) by (by rewrite list_lookup_fmap, Hi).
  destruct (Forall2_lookup_l _ _ _ _ _ HF Hv) as (ch'' & Hch'' & Hkeep).
  congruence.
Qed.

(** A job in progress that belongs to no resource of [data] goes through a
    reallocation with its plan. *)
Lemma reallocate_unowned tz weeks now g k ch :
  NoDup (g_chantiers g).*1 → objGet (g_chantiers g) k = Some ch →
  isActive ch = true → (∀ name, name ∈ (g_data g).*1 → preparateur ch ≠ Some name) →
  ∃ ch', objGet (g_chantiers (reallocate tz weeks now g)) k = Some ch' ∧
         sameFixed ch ch' ∧ planification ch' = planification ch ∧
         ChargeRestante ch' = ChargeRestante ch.
Proof.
  intros Hnd Hk Hact Hown.
  destruct (reallocate_objGet tz weeks now g k ch Hnd Hk) as (i & ch' & Hi & Hk' & Hrun).
  exists ch'. split; [done|].
  destruct (run_unowned tz weeks now (mkState (g_chantiers g).*2 (g_data g)) i ch)
    as (ch'' & Hch'' & Hrest); [|done|done|].
  - simpl. by rewrite list_lookup_fmap, Hi.
  - assert (ch'' = ch') as -> by congruence. done.
Qed.

(* ===================================================================== *)
(** ** [src/availability.js]                                              *)
(* ===================================================================== *)

Section SaveFacts.
Variable nowIso : string.

Lemma saveWeeks_lookup (weeksMap : list (string * Z)) (record : gmap string Stored) key :
  saveWeeks nowIso weeksMap record !! key
  = match objGet (reverse weeksMap) key with
    | Some minutes => Some (StoredObject minutes nowIso)
    | None => record !! key
    end.
Proof.
  revert record. induction weeksMap as [|[k m] wm IH]; intros record; [done|].
  simpl. rewrite IH, reverse_cons, objGet_app. simpl.
  destruct (objGet (reverse wm) key); [done|].
  destruct (decide (k = key)) as [->|Hne].
  - by rewrite lookup_insert_eq.
  - by rewrite lookup_insert_ne.
Qed.


Lemma objGet_reverse_None {V} (o : list (string * V)) k :
  k ∉ o.*1 → objGet (reverse o) k = None.
Proof. intros H. apply objGet_None. by rewrite fmap_reverse, elem_of_reverse. Qed.

(** What a resource's record holds for a week. *)
Lemma saveName_read weeksMap (data : Data) n name key :
  dataGet (saveName nowIso weeksMap data n) name ≫= (.!! key)
  = if decide (n = name) then
      match objGet (reverse weeksMap) key with
      | Some minutes => Some (StoredObject minutes nowIso)
      | None => dataGet data name ≫= (.!! key)
      end
    else dataGet data name ≫= (.!! key).
Proof.
  unfold saveName. cbv zeta.
  destruct (dataGet data n) as [record|] eqn:Hn.
  - rewrite Hn, dataGet_objSet.
    destruct (decide (n = name)) as [->|]; [|done].
    simpl. rewrite saveWeeks_lookup, Hn. done.
  - rewrite dataGet_objSet, decide_True by done.
    rewrite !dataGet_objSet.
    destruct (decide (n = name)) as [->|]; [|done].
    simpl. rewrite saveWeeks_lookup, Hn. simpl. by rewrite lookup_empty.
Qed.

Lemma saveName_keeps weeksMap (data : Data) n name :
  is_Some (dataGet data name) → is_Some (dataGet (saveName nowIso weeksMap data n) name).
Proof.
  intros [a Ha]. unfold saveName. cbv zeta.
  destruct (dataGet data n) as [record|] eqn:Hn.
  - rewrite Hn, dataGet_objSet. case_decide; eauto.
  - rewrite dataGet_objSet, decide_True by done.
    rewrite !dataGet_objSet. repeat case_decide; eauto.
Qed.

Lemma saveNames_read weeksMap names (data : Data) name key :
  dataGet (foldl (saveName nowIso weeksMap) data names) name ≫= (.!! key)
  = if decide (name ∈ names) then
      match objGet (reverse weeksMap) key with
      | Some minutes => Some (StoredObject minutes nowIso)
      | None => dataGet data name ≫= (.!! key)
      end
    else dataGet data name ≫= (.!! key).
Proof.
  revert data. induction names as [|n names IH]; intros data.
  - cbn [foldl]. case_decide as H; [by apply elem_of_nil in H|done].
  - cbn [foldl]. rewrite IH, saveName_read.
    destruct (decide (n = name)) as [->|Hne].
    + destruct (decide (name ∈ name :: names)) as [_|Hn]; [|exfalso; apply Hn; left].
      destruct (decide (name ∈ names)); by destruct (objGet (reverse weeksMap) key).
    + destruct (decide (name ∈ names)) as [Hin|Hnin].
      * destruct (decide (name ∈ n :: names)) as [_|Hn]; [done|].
        exfalso. apply Hn. by right.
      * destruct (decide (name ∈ n :: names)) as [Hn|_]; [|done].
        apply elem_of_cons in Hn as [->|?]; done.
Qed.

Lemma elem_of_namesOfNNI meta nni name :
  name ∈ namesOfNNI meta nni ↔ objGet meta name = Some nni.
Proof.
  unfold namesOfNNI. rewrite list_elem_of_filter. split; [by intros [? _]|].
  intros H. split; [done|]. apply objGet_Some_elem in H.
  by apply (list_elem_of_fmap_2 fst) in H.
Qed.

Lemma saveEntry_read meta (data : Data) entry name key :
  dataGet (saveEntry nowIso meta data entry) name ≫= (.!! key)
  = if decide (objGet meta name = Some entry.1) then
      match objGet (reverse entry.2) key with
      | Some minutes => Some (StoredObject minutes nowIso)
      | None => dataGet data name ≫= (.!! key)
      end
    else dataGet data name ≫= (.!! key).
Proof.
  unfold saveEntry. rewrite saveNames_read.
  destruct (decide (name ∈ _)) as [Hin|Hnin].
  - rewrite decide_True; [done|by apply elem_of_namesOfNNI].
  - rewrite decide_False; [done|]. by rewrite <- elem_of_namesOfNNI.
Qed.

Lemma saveEntries_keep meta parsed (data : Data) name :
  is_Some (dataGet data name) →
  is_Some (dataGet (foldl (saveEntry nowIso meta) data parsed) name).
Proof.
  revert data. induction parsed as [|e parsed IH]; intros data Hn; [done|].
  simpl. apply IH. unfold saveEntry.
  generalize (namesOfNNI meta e.1). intros names. revert data Hn.
  induction names as [|n names IHn]; intros data Hn; [done|].
  simpl. apply IHn. by apply saveName_keeps.
Qed.

Lemma saveEntries_frame meta parsed (data : Data) name key :
  (∀ nni weeksMap, objGet meta name = Some nni → (nni, weeksMap) ∈ parsed →
                   key ∉ weeksMap.*1) →
  dataGet (foldl (saveEntry nowIso meta) data parsed) name ≫= (.!! key)
  = dataGet data name ≫= (.!! key).
Proof.
  revert data. induction parsed as [|[nni wm] parsed IH]; intros data Hfr; [done|].
  simpl. rewrite IH.
  - rewrite saveEntry_read. simpl. case_decide as Hn; [|done].
    rewrite objGet_reverse_None; [done|]. apply (Hfr nni wm Hn). left.
  - intros nni' wm' Hn Hin. apply (Hfr nni' wm' Hn). by right.
Qed.

End SaveFacts.


(** X9 (what a save leaves alone).  Saving availabilities leaves alone what
    the text does not name: a week of a resource keeps its stored value
    unless the entry of the resource's NNI lists that week (so the entries
    of unknown NNIs change nothing), no resource loses its record, and the
    other globals are untouched. *)
Theorem save_availability_frame nowIso parsed g :
  (∀ name key,
     (∀ nni weeksMap, objGet (g_preparateursMeta g) name = Some nni →
                      (nni, weeksMap) ∈ parsed → key ∉ weeksMap.*1) →
     dataGet (g_data (saveAvailability nowIso parsed g)) name ≫= (.!! key)
     = dataGet (g_data g) name ≫= (.!! key)) ∧
  (∀ name, is_Some (dataGet (g_data g) name) →
           is_Some (dataGet (g_data (saveAvailability nowIso parsed g)) name)) ∧
  g_preparateursMeta (saveAvailability nowIso parsed g) = g_preparateursMeta g ∧
  g_chantiers (saveAvailability nowIso parsed g) = g_chantiers g.
Proof.
  split_and!; [|intros name; apply saveEntries_keep|done|done].
  intros name key H. by apply saveEntries_frame.
Qed.

(* ===================================================================== *)
(** ** The navigation bar and the calendar                                *)
(* ===================================================================== *)

Lemma navStart_window (weeks : list Week) sel :
  (sel < length weeks)%nat →
  (navStart weeks sel ≤ sel < navStart weeks sel + 10)%nat.
Proof. unfold navStart, WINDOW_SIZE. change (10 / 2) with 5. lia. Qed.

(** X14 (navigation bar).  The navigation bar shows the selected week: it
    draws ten week buttons (all the weeks of a shorter calendar), exactly
    one of which is marked active, and that one is the button of the
    selected week. *)
Theorem renderNav_shows_selected (weeks : list Week) selectedWeek w :
  weeks !! selectedWeek = Some w →
  length (renderNav weeks selectedWeek) = Nat.min 10 (length weeks) ∧
  ∃ p, renderNav weeks selectedWeek !! p = Some (mkNavButton (navText (w_id w)) true w) ∧
       ∀ q b, renderNav weeks selectedWeek !! q = Some b → nb_active b = true → q = p.
Proof.
  intros Hw. pose proof (lookup_lt_Some _ _ _ Hw) as Hlt.
  pose proof (navStart_window weeks selectedWeek Hlt) as Hwin.
  unfold renderNav. set (start := navStart weeks selectedWeek) in *.
  change (Z.to_nat WINDOW_SIZE) with 10%nat.
  split.
  - rewrite length_imap, length_take, length_drop.
    unfold start, navStart, WINDOW_SIZE. change (10 / 2) with 5. lia.
  - exists (selectedWeek - start)%nat. split.
    + rewrite list_lookup_imap, lookup_take_lt by lia. rewrite lookup_drop.
      replace (start + (selectedWeek - start))%nat with selectedWeek by lia.
      rewrite Hw. simpl. f_equal. f_equal.
      apply bool_decide_eq_true_2. lia.
    + intros q b Hq Hact. rewrite list_lookup_imap in Hq.
      destruct (take 10 (drop start weeks) !! q) as [wq|]; [|done].
      simpl in Hq. injection Hq as <-. simpl in Hact.
      apply bool_decide_eq_true in Hact. lia.
Qed.

(* --------------------------------------------------------------------- *)
(** *** Weeks found by their identifier                                   *)

Lemma weekIds_distinct_utc : NoDup (w_id <$> weeks 0).
Proof. apply (bool_decide_unpack _). vm_compute. exact I. Qed.

Lemma weekIds_distinct_west : NoDup (w_id <$> weeks (-1)).
Proof. apply (bool_decide_unpack _). vm_compute. exact I. Qed.

Lemma weekIds_distinct tz : -1440 < tz < 1440 → NoDup (w_id <$> weeks tz).
Proof.
  intros Htz. rewrite (weeks_tz tz Htz).
  destruct (tz <? 0); [apply weekIds_distinct_west|apply weekIds_distinct_utc].
Qed.

Lemma list_find_id (ws : list Week) i w :
  NoDup (w_id <$> ws) → ws !! i = Some w →
  list_find (λ x, w_id x = w_id w) ws = Some (i, w).
Proof.
  intros Hnd Hw. apply list_find_Some. split; [done|]. split; [done|].
  intros j y Hy Hj Heq.
  assert (j = i); [|lia].
  apply (NoDup_lookup _ j i (w_id w) Hnd).
  - by rewrite list_lookup_fmap, Hy, <- Heq.
  - by rewrite list_lookup_fmap, Hw.
Qed.

(** X15 (selecting a week).  Selecting a week of the generated calendar (by
    its button, or by a row or a day of the calendar) makes it the selected
    week; and whatever object is selected, the selected index stays an index
    of the list. *)
Theorem selectWeek_selects tz i w :
  -1440 < tz < 1440 → weeks tz !! i = Some w →
  (∀ selectedWeek, selectWeek (weeks tz) w selectedWeek = i) ∧
  (∀ (ws : list Week) wk selectedWeek,
     (selectedWeek < length ws)%nat → (selectWeek ws wk selectedWeek < length ws)%nat).
Proof.
  intros Htz Hw. split.
  - intros sel. unfold selectWeek.
    by rewrite (list_find_id _ i w (weekIds_distinct tz Htz) Hw).
  - intros ws wk sel Hsel. unfold selectWeek.
    destruct (list_find _ ws) as [[idx x]|] eqn:Hfind; [|done].
    apply list_find_Some in Hfind as (Hx & _). by apply lookup_lt_Some in Hx.
Qed.

Lemma selectWeek_selects_witness :
  (∀ selectedWeek, selectWeek (weeks 60) (makeWeek 2025 10) selectedWeek = 61%nat) ∧
  (∀ (ws : list Week) wk selectedWeek,
     (selectedWeek < length ws)%nat → (selectWeek ws wk selectedWeek < length ws)%nat).
Proof.
  apply (selectWeek_selects 60 61 (makeWeek 2025 10)).
  - lia.
  - vm_compute. reflexivity.
Defined.

(* --------------------------------------------------------------------- *)
(** *** The week that [nowId] names                                       *)

(** The number of the ISO week of a day is one of its ISO year. *)
Lemma isoWeekOf_bounds D :
  1 ≤ (isoWeekOf (D * JSDate.msPerDay)).2
    ≤ isoWeeksOf (isoWeekOf (D * JSDate.msPerDay)).1.
Proof.
  unfold isoWeekOf. rewrite isoThursday_days. cbn [fst snd].
  set (T := D + 3 - (D + 3) mod 7).
  destruct (civil_spec T) as (y & m & d & Hc & _ & _ & _ & Hy). rewrite Hc. cbn [fst snd].
  rewrite isoWeeksOf_cases. pose proof (year_length y) as Hlen.
  assert (HT : T mod 7 = 0) by (unfold T; Z.div_mod_to_equations; lia).
  set (J := JSDate.DayFromYear y) in *.
  destruct ((J + 4) mod 7 =? 4) eqn:E4; destruct ((J + 4) mod 7 =? 3) eqn:E3;
    destruct (JSDate.InLeapYear y); cbn [orb andb];
    rewrite ?Z.eqb_eq, ?Z.eqb_neq in *; Z.div_mod_to_equations; lia.
Qed.

(** Two days have the same ISO year and week exactly when they have the
    same Thursday. *)
Lemma isoWeekOf_same D D' :
  isoWeekOf (D * JSDate.msPerDay) = isoWeekOf (D' * JSDate.msPerDay) ↔
  D + 3 - (D + 3) mod 7 = D' + 3 - (D' + 3) mod 7.
Proof.
  unfold isoWeekOf. rewrite !isoThursday_days.
  set (T := D + 3 - (D + 3) mod 7). set (T' := D' + 3 - (D' + 3) mod 7).
  split; [|by intros ->].
  destruct (civil_spec T) as (y & m & d & Hc & _ & _ & _ & Hy).
  destruct (civil_spec T') as (y' & m' & d' & Hc' & _ & _ & _ & Hy').
  rewrite Hc, Hc'. cbn [fst snd]. intros [= <- Hq].
  assert (HT : T mod 7 = 0) by (unfold T; Z.div_mod_to_equations; lia).
  assert (HT' : T' mod 7 = 0) by (unfold T'; Z.div_mod_to_equations; lia).
  revert Hq. generalize (JSDate.DayFromYear y). intros J Hq.
  Z.div_mod_to_equations; lia.
Qed.

Lemma elem_of_concat {A} (x : A) (ls : list (list A)) :
  x ∈ concat ls ↔ ∃ l, x ∈ l ∧ l ∈ ls.
Proof.
  induction ls as [|l ls IH]; simpl.
  - split; [by intros ?%elem_of_nil|]. by intros (l & _ & ?%elem_of_nil).
  - rewrite elem_of_app, IH. split.
    + intros [Hx|(l' & Hx & Hl')]; [exists l; split; [done|left]|exists l'; split; [done|by right]].
    + intros (l' & Hx & Hl'). apply elem_of_cons in Hl' as [->|Hl']; [by left|right; by exists l'].
Qed.

Lemma expectedWeeks_elem y w :
  2024 ≤ y ≤ 2028 → 1 ≤ w ≤ isoWeeksOf y →
  ("S" +:+ pretty w +:+ "/" +:+ pretty y, (y, w)) ∈ expectedWeeks.
Proof.
  intros Hy Hw. unfold expectedWeeks. apply elem_of_concat.
  exists ((λ n, ("S" +:+ pretty n +:+ "/" +:+ pretty y, (y, n))) <$> seqZ 1 (isoWeeksOf y)).
  split.
  - apply list_elem_of_fmap. exists w. split; [done|]. apply elem_of_seqZ. lia.
  - apply list_elem_of_fmap. exists y. split; [done|]. apply elem_of_seqZ. lia.
Qed.

Lemma expectedWeeks_shape e :
  e ∈ expectedWeeks → ∃ y n, e = ("S" +:+ pretty n +:+ "/" +:+ pretty y, (y, n)).
Proof.
  unfold expectedWeeks. intros (l & He & Hl)%elem_of_concat.
  apply list_elem_of_fmap in Hl as (y & -> & _).
  apply list_elem_of_fmap in He as (n & -> & _). by exists y, n.
Qed.

Lemma weeks_checked tz : -1440 < tz < 1440 → calendarChecked (weeks tz).
Proof.
  intros Htz. rewrite (weeks_tz tz Htz).
  destruct (tz <? 0); [apply calendarChecked_west|apply calendarChecked_utc].
Qed.

(** A week of the calendar is a Monday-to-Sunday week: it holds the days
    that have its ISO year and week number. *)
Lemma week_days tz wk D :
  -1440 < tz < 1440 → wk ∈ weeks tz →
  (w_start wk ≤ D * JSDate.msPerDay ≤ w_end wk
   ↔ isoWeekOf (D * JSDate.msPerDay) = isoWeekOf (w_start wk)).
Proof.
  intros Htz Hwk. destruct (weeks_checked tz Htz) as (_ & Hmon & Hend & _).
  destruct (proj1 (Forall_forall _ _) Hmon wk Hwk) as [Hday Hmid].
  rewrite (proj1 (Forall_forall _ _) Hend wk Hwk).
  apply Z.mod_divide in Hmid; [|done]. destruct Hmid as [S HS]. rewrite HS in *.
  rewrite isoWeekOf_same.
  unfold JSDate.getUTCDay, JSDate.WeekDay in Hday. rewrite Day_days in Hday.
  unfold JSDate.msPerDay. Z.div_mod_to_equations. lia.
Qed.

(** X16 (current week of the display).  The week that [nowId] names (the
    current week of the grid and of the projection) is the week of the day
    of [now] exactly when the ISO year of that day is its calendar year. On
    the days around the new year whose ISO week belongs to the other year,
    [nowId] names a week a year away, or no week at all. *)
Theorem nowId_current_week tz now :
  -1440 < tz < 1440 →
  2024 ≤ JSDate.getFullYear tz now ≤ 2028 →
  ((isoWeekOf (JSDate.LocalTime tz now)).1 = JSDate.getFullYear tz now →
   ∃ i wk, currentIndex tz (weeks tz) now = Some i ∧ weeks tz !! i = Some wk ∧
           w_start wk ≤ JSDate.Day (JSDate.LocalTime tz now) * JSDate.msPerDay ≤ w_end wk) ∧
  ((isoWeekOf (JSDate.LocalTime tz now)).1 ≠ JSDate.getFullYear tz now →
   ∀ i wk, currentIndex tz (weeks tz) now = Some i → weeks tz !! i = Some wk →
           ¬ (w_start wk ≤ JSDate.Day (JSDate.LocalTime tz now) * JSDate.msPerDay
              ≤ w_end wk)).
Proof.
  intros Htz Hyear.
  set (D := JSDate.Day (JSDate.LocalTime tz now)).
  set (y := JSDate.getFullYear tz now) in *.
  assert (HyD : y = (JSDate.civil D).1.1) by done.
  assert (HD : JSDate.DayFromYear 100 + 3 ≤ D).
  { destruct (civil_spec D) as (y' & m & d & Hc & _ & _ & _ & Hb).
    rewrite Hc in HyD. simpl in HyD. subst y'.
    pose proof (DayFromYear_mono 2024 y (proj1 Hyear)).
    assert (JSDate.DayFromYear 100 + 3 ≤ JSDate.DayFromYear 2024) by (vm_compute; discriminate).
    lia. }
  rewrite isoWeekOf_local. fold D.
  pose proof (isoWeekOf_bounds D) as Hwk.
  unfold currentIndex, nowId. rewrite (getWeek_days tz now HD). fold D. fold y.
  destruct (weeks_checked tz Htz) as (Hexp & _).
  destruct (isoWeekOf (D * JSDate.msPerDay)) as [isoY w] eqn:Hiso. cbn [fst snd] in *.
  split.
  - intros ->.
    pose proof (expectedWeeks_elem y w Hyear Hwk) as Hin.
    rewrite <- Hexp in Hin. apply list_elem_of_fmap in Hin as (wk & Heq & Hin).
    pose proof (f_equal fst Heq) as Hid. pose proof (f_equal snd Heq) as Hstart.
    cbn [fst snd] in Hid, Hstart.
    apply list_elem_of_lookup in Hin as Hlook. destruct Hlook as [i Hi].
    exists i, wk. rewrite Hid.
    rewrite (list_find_id _ i wk (weekIds_distinct tz Htz) Hi). split; [done|]. split; [done|].
    apply (week_days tz wk D Htz Hin). by rewrite Hiso.

  - intros Hne i wk Hcur Hi Hcontains.
    destruct (list_find _ _) as [[i' wk']|] eqn:Hfind; [|done].
    simpl in Hcur. injection Hcur as ->.
    apply list_find_Some in Hfind as (Hi' & Hid & _).
    assert (wk' = wk) as -> by congruence.
    pose proof (list_elem_of_lookup_2 _ _ _ Hi) as Hin.
    apply (week_days tz wk D Htz Hin) in Hcontains. rewrite Hiso in Hcontains.
    assert (Hexp' : (w_id wk, isoWeekOf (w_start wk)) ∈ expectedWeeks).
    { rewrite <- Hexp. apply list_elem_of_fmap. by exists wk. }
    apply expectedWeeks_shape in Hexp' as (y' & n & Heq).
    rewrite <- Hcontains in Heq.
    pose proof (f_equal fst Heq) as Hid'. pose proof (f_equal snd Heq) as Hyw.
    cbn [fst snd] in Hid', Hyw. injection Hyw as -> ->.
    rewrite Hid in Hid'.
    apply (inj (String.app _)), (inj (String.app _)), (inj (String.app _)) in Hid'.
    by apply (inj pretty) in Hid'.
Qed.

(* --------------------------------------------------------------------- *)
(** *** The calendar of a month                                           *)












(* ===================================================================== *)
(** ** The grid                                                           *)
(* ===================================================================== *)

Section GridFacts.
Variables (tz : Z) (wn yr : Z) (chs : list Chantier) (name : string)
          (avail : gmap string Stored).

(** Every record of the first pass holds the stored availability of its
    week. *)
Lemma margeFold_dispo ws acc :
  (∀ key calc, acc.1 !! key = Some calc →
               dispo calc = divQ (storedMins (avail !! key)) 60) →
  ∀ key calc,
    (foldl (margeStep tz wn yr chs name avail) acc ws).1 !! key = Some calc →
    dispo calc = divQ (storedMins (avail !! key)) 60.
Proof.
  revert acc. induction ws as [|w ws IH]; intros acc Hacc; [done|].
  cbn [foldl]. apply IH. destruct acc as [marges prec]. simpl.
  intros key calc. destruct (decide (weekKey tz w = key)) as [<-|Hne].
  - rewrite lookup_insert_eq. by intros [= <-].
  - rewrite lookup_insert_ne by done. apply Hacc.
Qed.
End GridFacts.

(** The projection of a resource that has an availability record succeeds,
    and each of its records holds the stored availability of its week. *)
Lemma margesGlobales_dispo tz weeks s cur name w0 avail :
  weeks !! cur = Some w0 → dataGet (data s) name = Some avail →
  ∃ marges, margesGlobales tz weeks s cur name = Some marges ∧
    ∀ key calc, marges !! key = Some calc →
                dispo calc = divQ (storedMins (avail !! key)) 60.
Proof.
  intros Hw0 Hav. unfold margesGlobales, margesPass. rewrite Hw0, Hav. simpl.
  set (keys := projectedKeys tz weeks cur).
  set (m0 := (foldl (margeStep tz _ _ (chantiers s) name avail) (∅, 0%Q) (drop cur weeks)).1).
  assert (Hall : ∀ key, key ∈ keys → is_Some (m0 !! key)).
  { intros key (w & -> & Hw)%list_elem_of_fmap. by apply margeFold_dom. }
  assert (Hd0 : ∀ key calc, m0 !! key = Some calc →
                            dispo calc = divQ (storedMins (avail !! key)) 60).
  { apply margeFold_dispo. intros key calc. simpl. by rewrite lookup_empty. }
  destruct (tdispFold_spec keys m0 Hall (length keys) (reflexivity _))
    as (m1 & Hfold & Hmar1 & Htd).
  unfold tdispPass. rewrite Hfold. simpl.
  assert (Hfin : ∀ key, key ∈ keys → ∃ c t, m1 !! key = Some c ∧ Tdisp c = Some (Fin t)).
  { intros key Hkey. destruct (last_occurrence keys key Hkey) as (k & Hk & Hlast).
    destruct (windowMin_spec m0 keys k key Hall Hk) as (t & Hwin & _).
    pose proof (Htd k key (lookup_lt_Some _ _ _ Hk) Hk (λ j Hj, Hlast j (proj1 Hj))) as Ht.
    rewrite Hwin in Ht. destruct (m1 !! key) as [c|]; [|done].
    exists c, t. split; [done|]. simpl in Ht. congruence. }
  destruct (badgeFold_spec keys m1 None Hfin) as (m2 & last & Hfold2 & Hkeep).
  unfold badgePass. rewrite Hfold2. simpl. exists m2. split; [done|].
  intros key calc Hcalc.
  destruct (Hkeep key) as [Hm _]. pose proof (Hmar1 key) as Hm1.
  apply margins_dispo in Hm, Hm1. rewrite Hcalc, Hm1 in Hm.
  destruct (m0 !! key) as [c0|] eqn:Hc0; [|done].
  simpl in Hm. injection Hm as ->. by apply Hd0.
Qed.

(** [margesGlobales[name]], from the object that the loop over the
    resources fills. *)
Lemma objGet_mapM {V} (f : string → option V) (l : list string) (o : list (string * V)) name :
  Forall2 (λ n y, pair n <$> f n = Some y) l o → name ∈ l → objGet o name = f name.
Proof.
  induction 1 as [|n [n' v] l o Hn _ IH]; [by intros ?%elem_of_nil|].
  rewrite fmap_Some in Hn. destruct Hn as (v' & Hv & [= -> ->]).
  intros Hin. simpl. case_decide as Hk; [by subst|].
  apply IH. apply elem_of_cons in Hin as [->|]; done.
Qed.

Lemma dataGet_is_Some (data : Data) name : name ∈ data.*1 → is_Some (dataGet data name).
Proof.
  intros Hin. rewrite dataGet_objGet.
  destruct (objGet data name) eqn:Hget; [done|].
  by apply objGet_None in Hget.
Qed.

Lemma preparateursToShow_known data filteredResources name :
  name ∈ preparateursToShow data filteredResources → name ∈ data.*1.
Proof.
  unfold preparateursToShow. destruct filteredResources as [[|r rs]|]; try done.
  by intros [_ ?]%list_elem_of_filter.
Qed.

(** The rows and the cells of the grid. *)
Lemma renderGrid_cells tz weeks now selectedWeek VISIBLE filteredResources s :
  match currentIndex tz weeks now with
  | None => renderGrid tz weeks now selectedWeek VISIBLE filteredResources s = None
  | Some _ =>
      ∃ rows,
        renderGrid tz weeks now selectedWeek VISIBLE filteredResources s = Some rows ∧
        rows.*1 = preparateursToShow (data s) filteredResources ∧
        ∀ name cells, (name, cells) ∈ rows →
          length cells = Nat.min VISIBLE (length weeks - selectedWeek) ∧
          ∀ j cell, cells !! j = Some cell →
            ∃ w, weeks !! (selectedWeek + j)%nat = Some w ∧
                 cell_dispoH cell
                 = divQ (storedMins (dataGet (data s) name ≫= (.!! weekKey tz w))) 60 ∧
                 cell_barWidth cell = barWidth (cell_dispoH cell) ∧
                 cell_segments cell
                 = drawSegments tz w (cell_dispoH cell)
                     (planned (chantiers s) name (weekKey tz w))
  end.
Proof.
  unfold renderGrid. destruct (currentIndex tz weeks now) as [cur|] eqn:Hcur; [|done].
  simpl.
  assert (Hw0 : is_Some (weeks !! cur)).
  { unfold currentIndex in Hcur.
    destruct (list_find _ weeks) as [[i w]|] eqn:Hfind; [|done].
    simpl in Hcur. injection Hcur as <-.
    apply list_find_Some in Hfind as (Hw & _). by exists w. }
  destruct Hw0 as [w0 Hw0]. rewrite Hw0. simpl.
  destruct (mapM (λ name, pair name <$> margesGlobales tz weeks s cur name) (data s).*1)
    as [mg|] eqn:Hmg.
  2:{ exfalso. assert (Hsome : is_Some (mapM (λ name, pair name
                                  <$> margesGlobales tz weeks s cur name) (data s).*1)).
      { apply mapM_is_Some, Forall_forall. intros name Hname. simpl.
        destruct (dataGet_is_Some _ _ Hname) as [avail Hav].
        destruct (margesGlobales_dispo tz weeks s cur name w0 avail Hw0 Hav) as (m & -> & _).
        done. }
      rewrite Hmg in Hsome. by destruct Hsome. }
  simpl. apply mapM_Some in Hmg.
  assert (Hmg1 : ∀ name, name ∈ (data s).*1 →
            ∃ marges avail, objGet mg name = Some marges ∧
              dataGet (data s) name = Some avail ∧
              ∀ key calc, marges !! key = Some calc →
                          dispo calc = divQ (storedMins (avail !! key)) 60).
  { intros name Hname. destruct (dataGet_is_Some _ _ Hname) as [avail Hav].
    destruct (margesGlobales_dispo tz weeks s cur name w0 avail Hw0 Hav) as (m & Hm & Hd).
    exists m, avail. split; [|done].
    rewrite (objGet_mapM _ _ _ name Hmg Hname). done. }
  set (slice := take VISIBLE (drop selectedWeek weeks)).
  match goal with |- context [mapM ?f (preparateursToShow _ _)] => set (row := f) end.
  assert (Hrows : ∀ l, (∀ name, name ∈ l → name ∈ (data s).*1) →
            ∃ rows, mapM row l = Some rows ∧ rows.*1 = l ∧
              ∀ name cells, (name, cells) ∈ rows →
                ∃ marges avail, objGet mg name = Some marges ∧
                  dataGet (data s) name = Some avail ∧
                  cells = renderCell tz (chantiers s) name marges avail <$> slice).
  { induction l as [|n l IH]; intros Hl.
    - exists []. split; [done|]. split; [done|]. intros ? ? H. by apply elem_of_nil in H.
    - destruct IH as (rows & Hrows & Hfst & Hcells); [intros ? ?; apply Hl; by right|].
      destruct (Hmg1 n) as (marges & avail & Hm & Hav & _); [apply Hl; left|].
      exists ((n, renderCell tz (chantiers s) n marges avail <$> slice) :: rows).
      split; [|split].
      + cbn [mapM]. rewrite Hrows. unfold row at 1. rewrite Hm, Hav. done.
      + csimpl. by rewrite Hfst.
      + intros name cells [[= -> ->]|Hin]%elem_of_cons; [by exists marges, avail|].
        by apply Hcells. }
  destruct (Hrows (preparateursToShow (data s) filteredResources))
    as (rows & Hmap & Hfst & Hcells).
  { intros name. apply preparateursToShow_known. }
  exists rows. split; [done|]. split; [done|].
  intros name cells Hin. destruct (Hcells name cells Hin) as (marges & avail & Hm & Hav & ->).
  split.
  - rewrite length_fmap. unfold slice. rewrite length_take, length_drop. done.
  - intros j cell Hj. rewrite list_lookup_fmap in Hj.
    destruct (slice !! j) as [w|] eqn:Hw; [|done]. simpl in Hj. injection Hj as <-.
    exists w. split.
    + unfold slice in Hw. apply lookup_take_Some in Hw as [Hw _].
      by rewrite lookup_drop in Hw.
    + split; [|done]. unfold renderCell, cellDispoH. cbn [cell_dispoH].
      rewrite Hav. simpl.
      destruct (Hmg1 name) as (marges' & avail' & Hm' & Hav' & Hd).
      { rewrite <- Hfst in *. apply preparateursToShow_known with filteredResources.
        rewrite <- Hfst. apply list_elem_of_fmap.
        by exists (name, renderCell tz (chantiers s) name marges avail <$> slice). }
      assert (marges' = marges) as -> by congruence.
      assert (avail' = avail) as -> by congruence.
      destruct (marges !! weekKey tz w) as [calc|] eqn:Hcalc; [|done].
      by apply Hd.
Qed.

(** [renderAll()] stops at the [TypeError] of [renderGrid()] exactly when
    [nowId] names no week of the calendar, whatever the stores hold. *)
Lemma renderAll_spec tz weeks v g :
  renderAll tz weeks v g
  = match currentIndex tz weeks (v_now v) with Some _ => Returned | None => Threw end.
Proof.
  unfold renderAll.
  pose proof (renderGrid_cells tz weeks (v_now v) (v_selectedWeek v) (v_visibleWeeksCount v)
                (v_filteredResources v) (mkState (g_chantiers g).*2 (g_data g))) as H.
  destruct (currentIndex tz weeks (v_now v)).
  - by destruct H as (rows & -> & _).
  - by rewrite H.
Qed.

Lemma renderAll_Threw tz weeks v g :
  renderAll tz weeks v g = Threw ↔ currentIndex tz weeks (v_now v) = None.
Proof. rewrite renderAll_spec. by destruct (currentIndex tz weeks (v_now v)). Qed.

Lemma renderAll_globals tz weeks v g g' : renderAll tz weeks v g = renderAll tz weeks v g'.
Proof. by rewrite !renderAll_spec. Qed.

(** X18 (rows and cells of the grid).  The grid is drawn exactly when
    [nowId] names a week of the calendar. It then has one row for each
    resource to show, in the order of the availability store, and in each
    row one cell for each week from the selected one, up to the number of
    visible weeks; the cell of a week reports the availability stored for
    the resource and the week, and its bar is drawn to that availability. *)
Theorem renderGrid_rows tz weeks now selectedWeek VISIBLE filteredResources s :
  match currentIndex tz weeks now with
  | None => renderGrid tz weeks now selectedWeek VISIBLE filteredResources s = None
  | Some _ =>
      ∃ rows,
        renderGrid tz weeks now selectedWeek VISIBLE filteredResources s = Some rows ∧
        rows.*1 = preparateursToShow (data s) filteredResources ∧
        ∀ name cells, (name, cells) ∈ rows →
          length cells = Nat.min VISIBLE (length weeks - selectedWeek) ∧
          ∀ j cell, cells !! j = Some cell →
            ∃ w, weeks !! (selectedWeek + j)%nat = Some w ∧
                 cell_dispoH cell
                 = divQ (storedMins (dataGet (data s) name ≫= (.!! weekKey tz w))) 60 ∧
                 cell_barWidth cell = barWidth (cell_dispoH cell)
  end.
Proof.
  pose proof (renderGrid_cells tz weeks now selectedWeek VISIBLE filteredResources s) as H.
  destruct (currentIndex tz weeks now); [|done].
  destruct H as (rows & Hrows & Hnames & Hcells).
  exists rows. split; [done|]. split; [done|].
  intros name cells Hin. destruct (Hcells name cells Hin) as [Hlen Hcell].
  split; [done|]. intros j cell Hj.
  destruct (Hcell j cell Hj) as (w & Hw & Hd & Hb & _). by exists w.
Qed.

(* --------------------------------------------------------------------- *)
(** *** The segments of a cell after a reallocation                       *)

Lemma divQ_60 (a : Z) : (divQ a 60 == inject_Z a / 60)%Q.
Proof. unfold divQ. apply Qred_correct. Qed.

Lemma divQ_60_pos (a : Z) : 0 < a → (0 < divQ a 60)%Q.
Proof.
  intros Ha. rewrite divQ_60. apply Qlt_shift_div_l; [done|].
  rewrite Qmult_0_l. change (inject_Z 0 < inject_Z a)%Q. by rewrite <- Zlt_Qlt.
Qed.

(** [x / dispoH * 100] for [x] and [dispoH] numbers of minutes over 60. *)
Lemma percent_eq (x : Q) (c A : Z) :
  0 < A → (x == inject_Z c / 60)%Q →
  jsTimes100 (jsDiv x (divQ A 60))
  = JSFinite (Qred (Qred (x / divQ A 60) * 100)) ∧
  (Qred (Qred (x / divQ A 60) * 100) == inject_Z (100 * c) / inject_Z A)%Q.
Proof.
  intros HA Hx. split.
  - unfold jsDiv.
    destruct (Qeq_bool (divQ A 60) 0) eqn:E; [|done].
    apply Qeq_bool_eq in E. pose proof (divQ_60_pos A HA) as Hpos.
    rewrite E in Hpos. by apply Qlt_irrefl in Hpos.
  - rewrite !Qred_correct, divQ_60, Hx, inject_Z_mult.
    assert (HA' : ¬ (inject_Z A == 0)%Q).
    { intros H. rewrite (Zlt_Qlt 0 A) in HA. rewrite H in HA. by apply Qlt_irrefl in HA. }
    field. done.
Qed.

Section SegmentFacts.
Context {X : Type}.
Variables (mk : X → Segment) (m : X → Z) (tz : Z) (w : Week) (A : Z).
Hypothesis Hmk : ∀ x, seg_hours (mk x) = divQ (m x) 60.

Lemma drawSegments_fold xs : ∀ drawn cum c,
  (cum == inject_Z c / 60)%Q → 0 ≤ c →
  Forall (λ x, 0 < m x) xs → c + sumZ (m <$> xs) ≤ Z.max 0 A →
  Forall fitsInBar drawn →
  Forall fitsInBar (foldl (drawSegment tz w (divQ A 60)) (drawn, cum) (mk <$> xs)).1.
Proof.
  induction xs as [|x xs IH]; intros drawn cum c Hcum Hc Hpos Hsum Hdrawn; [done|].
  apply Forall_cons in Hpos as [Hx Hpos]. csimpl in Hsum.
  assert (Hxs : 0 ≤ sumZ (m <$> xs)).
  { clear -Hpos. induction Hpos; csimpl; lia. }
  assert (HA : 0 < A) by lia.
  csimpl. apply (IH _ _ (c + m x)).
  - rewrite Qred_correct, Hmk, divQ_60, Hcum, inject_Z_plus. field.
  - lia.
  - done.
  - lia.
  - apply Forall_app. split; [done|]. apply Forall_singleton.
    destruct (percent_eq cum c A HA Hcum) as [Hl Hlq].
    destruct (percent_eq (seg_hours (mk x)) (m x) A HA) as [Hw Hwq].
    { rewrite Hmk. apply divQ_60. }
    eexists _, _. split; [exact Hl|]. split; [exact Hw|].
    assert (HAq : (0 < inject_Z A)%Q).
    { change (inject_Z 0 < inject_Z A)%Q. by rewrite <- Zlt_Qlt. }
    rewrite Hlq, Hwq. split_and!.
    + apply Qle_shift_div_l; [done|]. rewrite Qmult_0_l.
      change (inject_Z 0 <= inject_Z (100 * c))%Q. rewrite <- Zle_Qle. lia.
    + apply Qlt_shift_div_l; [done|]. rewrite Qmult_0_l.
      change (inject_Z 0 < inject_Z (100 * m x))%Q. rewrite <- Zlt_Qlt. lia.
    + assert (Heq : (inject_Z (100 * c) / inject_Z A + inject_Z (100 * m x) / inject_Z A
                     == inject_Z (100 * (c + m x)) / inject_Z A)%Q).
      { rewrite !inject_Z_mult, inject_Z_plus. field.
        intros H. rewrite H in HAq. by apply Qlt_irrefl in HAq. }
      rewrite Heq. apply Qle_shift_div_r; [done|].
      change 100%Q with (inject_Z 100). rewrite <- inject_Z_mult, <- Zle_Qle. lia.
Qed.

Lemma drawSegments_fit xs :
  Forall (λ x, 0 < m x) xs → sumZ (m <$> xs) ≤ Z.max 0 A →
  Forall fitsInBar (drawSegments tz w (divQ A 60) (mk <$> xs)).
Proof.
  intros Hpos Hsum. unfold drawSegments.
  apply (drawSegments_fold xs [] 0%Q 0); [done|done|done|lia|done].
Qed.
End SegmentFacts.

Lemma sumZ_filter_le {X} (f : X → Z) (P S : X → Prop)
    `{∀ x, Decision (P x)} `{∀ x, Decision (S x)} (l : list X) :
  (∀ x, x ∈ l → P x → S x) → (∀ x, x ∈ l → S x → 0 ≤ f x) →
  sumZ (f <$> filter P l) ≤ sumZ (f <$> filter S l).
Proof.
  induction l as [|x l IH]; intros HPS Hnn; [done|].
  assert (IH' : sumZ (f <$> filter P l) ≤ sumZ (f <$> filter S l)).
  { apply IH; intros y Hy; [apply HPS|apply Hnn]; by right. }
  rewrite !filter_cons.
  destruct (decide (P x)) as [HP|HP], (decide (S x)) as [HS|HS]; csimpl.
  - lia.
  - destruct HS. apply HPS; [left|done].
  - pose proof (Hnn x (list_elem_of_here _ _) HS). lia.
  - done.
Qed.

Section PlannedFacts.
Variables (tz : Z) (weeks : list Week) (cur : nat) (data : Data) (st : list Chantier).
Variables (name key : string).
Hypothesis Hname : name ∈ data.*1.
Hypothesis Hfut : isFutureKey tz weeks cur key = true.

(** After the run, a job that is not in progress holds nothing at a week
    from the current one on. *)
Lemma runBody_inactive_future ch' :
  ch' ∈ runBody tz weeks cur data st → isActive ch' = false → getPlan ch' key = 0.
Proof.
  intros [j Hj]%list_elem_of_lookup Hact.
  pose proof (runBody_keepsPast tz weeks cur data st) as HF.
  destruct (Forall2_lookup_r _ _ _ _ _ HF Hj) as (ch & Hch & Hfix & _).
  rewrite <- (isActive_fixed _ _ Hfix) in Hact.
  rewrite (runBody_inactive tz weeks cur data st j ch Hch Hact) in Hj.
  injection Hj as <-. unfold getPlan, planifOf, deprogram. rewrite Hact. simpl.
  destruct (planification ch) as [p|] eqn:Hp; simpl; [|by rewrite Hp].
  rewrite map_lookup_filter. destruct (p !! key); simpl; [|done].
  rewrite option_guard_False; [done|]. simpl. by rewrite Hfut.
Qed.

(** After the run, the jobs that the cell of the resource and the week
    draws hold together no more minutes than the resource has. *)
Lemma planned_within_capacity :
  sumZ ((λ ch, getPlan ch key)
        <$> filter (λ ch, preparateur ch = Some name ∧ is_Some (planification ch)
                          ∧ 0 < getPlan ch key) (runBody tz weeks cur data st))
  ≤ Z.max 0 (availability data name key).
Proof.
  set (st' := runBody tz weeks cur data st).
  destruct (runBody_ok tz weeks cur data name st Hname) as [Hcap Hjobs]. fold st' in Hcap, Hjobs.
  specialize (Hcap key Hfut). rewrite total_chantierList in Hcap.
  rewrite (dispoParSemaine_future tz weeks cur) in Hcap by done.
  etrans; [|exact Hcap]. unfold allocated.
  apply sumZ_filter_le.
  - intros ch Hin (Hprep & _ & Hpos). unfold isSelected.
    rewrite bool_decide_eq_true_2 by done. simpl.
    destruct (isActive ch) eqn:Hact; [done|].
    pose proof (runBody_inactive_future ch Hin Hact). lia.
  - intros ch [j Hj]%list_elem_of_lookup Hsel.
    assert (Hi : j ∈ chantierList tz st' name).
    { apply elem_of_chantierList. unfold selectedAt. by rewrite Hj. }
    destruct (Hjobs j ch Hi Hj) as (Hnn & _). by apply Hnn.
Qed.
End PlannedFacts.

(** The segments that a cell draws, as the jobs they stand for. *)
Lemma planned_jobs (chantiers : list Chantier) name key :
  ∃ jobs,
    jobs ≡ₚ filter (λ ch, preparateur ch = Some name ∧ is_Some (planification ch)
                          ∧ 0 < getPlan ch key) chantiers ∧
    planned chantiers name key
    = (λ ch, mkSegment (ch_id ch) (label ch) (divQ (getPlan ch key) 60) (endDate ch)
                       (newDateOfString (joinDash (reverse (splitSlash (endDate ch))))))
      <$> jobs.
Proof.
  unfold planned.
  set (cmp := λ a b : Segment, _). set (J := filter _ chantiers). set (mk := λ ch : Chantier, _).
  pose proof (stableSort_perm cmp (mk <$> J)) as Hperm.
  apply Permutation_map_inv in Hperm as (jobs & Heq & Hjobs).
  exists jobs. split; [by symmetry|done].
Qed.

(** X19 (segments of a cell).  After a reallocation, the grid draws inside
    its bar every segment of every cell of a week from the current one on:
    the segments start at or after the left end of the bar, follow each
    other, and the last one ends at or before the right end. *)
Theorem grid_segments_fit tz weeks now now' selectedWeek VISIBLE filteredResources s cur :
  currentWeekIdx tz weeks now = Some cur →
  is_Some (currentIndex tz weeks now') →
  ∃ rows,
    renderGrid tz weeks now' selectedWeek VISIBLE filteredResources
               (repartitionAutomatique tz weeks now s).2 = Some rows ∧
    ∀ name cells j cell, (name, cells) ∈ rows → cells !! j = Some cell →
      (cur ≤ selectedWeek + j)%nat → Forall fitsInBar (cell_segments cell).
Proof.
  intros Hcur Hnow. rewrite (run_completed tz weeks now s cur Hcur). cbn [snd].
  set (s' := mkState (runBody tz weeks cur (data s) (chantiers s)) (data s)).
  pose proof (renderGrid_cells tz weeks now' selectedWeek VISIBLE filteredResources s') as H.
  destruct (currentIndex tz weeks now') as [idx|]; [|by destruct Hnow].
  destruct H as (rows & Hrows & Hnames & Hcells).
  exists rows. split; [done|].
  intros name cells j cell Hin Hj Hle.
  destruct (Hcells name cells Hin) as [_ Hcell].
  destruct (Hcell j cell Hj) as (w & Hw & Hd & _ & Hseg).
  rewrite Hseg, Hd. cbn [data chantiers s'].
  assert (Hname : name ∈ (data s).*1).
  { apply preparateursToShow_known with filteredResources.
    change (data s) with (data s'). rewrite <- Hnames.
    apply list_elem_of_fmap. by exists (name, cells). }
  assert (Hfut : isFutureKey tz weeks cur (weekKey tz w) = true).
  { apply isFutureKey_planWeeks. apply list_elem_of_fmap_2.
    apply list_elem_of_lookup. exists (selectedWeek + j - cur)%nat. rewrite lookup_drop.
    by replace (cur + (selectedWeek + j - cur))%nat with (selectedWeek + j)%nat by lia. }
  destruct (planned_jobs (runBody tz weeks cur (data s) (chantiers s)) name (weekKey tz w))
    as (jobs & Hperm & ->).
  apply (drawSegments_fit _ (λ ch, getPlan ch (weekKey tz w))).
  - done.
  - rewrite Hperm. apply Forall_forall. by intros ch [(_ & _ & ?) _]%list_elem_of_filter.
  - rewrite (sumZ_perm _ _ (fmap_Permutation _ _ _ Hperm)).
    apply (planned_within_capacity tz weeks cur (data s) (chantiers s) name (weekKey tz w));
      done.
Qed.

Lemma grid_segments_fit_witness :
  ∃ rows,
    renderGrid hostOffset calendar anchor 61 4 None
               (repartitionAutomatique hostOffset calendar anchor threeJobs).2 = Some rows ∧
    ∀ name cells j cell, (name, cells) ∈ rows → cells !! j = Some cell →
      (61 ≤ 61 + j)%nat → Forall fitsInBar (cell_segments cell).
Proof.
  apply (grid_segments_fit hostOffset calendar anchor anchor 61 4 None threeJobs 61).
  - vm_compute. reflexivity.
  - vm_compute. by eexists.
Defined.

(* ===================================================================== *)
(** ** The resources module                                               *)
(* ===================================================================== *)

Lemma globals_eq (g g' : Globals) :
  g_data g = g_data g' → g_preparateursMeta g = g_preparateursMeta g' →
  g_chantiers g = g_chantiers g' → g = g'.
Proof. destruct g, g'; simpl; by intros -> -> ->. Qed.

(** The two ways in which a call that has written the stores ends. *)
Lemma finish_spec tz weeks v (e : option string) g' :
  match renderAll tz weeks v g' with
  | Returned => Some (g', None, Returned)
  | Threw => Some (g', e, Threw)
  end
  = Some (g', match renderAll tz weeks v g' with Returned => None | Threw => e end,
          renderAll tz weeks v g').
Proof. by destruct (renderAll tz weeks v g'). Qed.

(** X10 (adding a resource).  Adding a resource (the form is not editing
    one). The call never changes the availability record of a resource that
    the store already has, nor the job store. A name that the store neither
    has nor inherits from [Object.prototype] gets an empty record and its
    NNI; the call then stops at the [TypeError] of [renderAll()] exactly
    when [nowId] names no week of the calendar, and [editingPrep] is reset
    only when it does not stop there. An empty field, a name that is taken
    or a name that the store inherits leaves everything as it is, and the
    call returns. *)
Theorem addPreparateur_add tz weeks v prepName prepNNI editingPrep g :
  orNull editingPrep = None →
  ∃ g' e' ending,
    addPreparateur tz weeks v prepName prepNNI editingPrep g = Some (g', e', ending) ∧
    (∀ n a, dataGet (g_data g) n = Some a → dataGet (g_data g') n = Some a) ∧
    g_chantiers g' = g_chantiers g ∧
    (trim prepName ≠ EmptyString → trim prepNNI ≠ EmptyString →
     dataGet (g_data g) (trim prepName) = None → inherited (trim prepName) = false →
     dataGet (g_data g') (trim prepName) = Some ∅ ∧
     objGet (g_preparateursMeta g') (trim prepName) = Some (trim prepNNI) ∧
     (ending = Threw ↔ currentIndex tz weeks (v_now v) = None) ∧
     e' = match ending with Returned => None | Threw => editingPrep end) ∧
    (trim prepName = EmptyString ∨ trim prepNNI = EmptyString
     ∨ is_Some (dataGet (g_data g) (trim prepName)) ∨ inherited (trim prepName) = true →
     g' = g ∧ e' = editingPrep ∧ ending = Returned).
Proof.
  intros Hadd. unfold addPreparateur.
  set (name := trim prepName). set (nni := trim prepNNI).
  case_bool_decide as Hempty.
  { exists g, editingPrep, Returned. split_and!; try done.
    intros ? ? ? ?. by destruct Hempty. }
  assert (Hname : name ≠ EmptyString) by tauto.
  assert (Hnni : nni ≠ EmptyString) by tauto.
  destruct (bool_decide (is_Some (dataGet (g_data g) name)) || inherited name) eqn:Htaken.
  - exists g, editingPrep, Returned.
    split; [by destruct editingPrep as [[|]|]|].
    split_and!; try done.
    intros _ _ Hnone Hinh. rewrite Hinh, orb_false_r in Htaken.
    apply bool_decide_eq_true in Htaken as [a Ha]. congruence.
  - apply orb_false_iff in Htaken as [Hnone%bool_decide_eq_false Hinh].
    set (g' := mkGlobals (objSet name ∅ (g_data g)) (objSet name nni (g_preparateursMeta g))
                         (g_chantiers g)).
    exists g', (match renderAll tz weeks v g' with Returned => None | Threw => editingPrep end),
           (renderAll tz weeks v g').
    split; [rewrite <- finish_spec; by destruct editingPrep as [[|]|]|].
    split_and!.
    + intros n a Hn. unfold g'. simpl. rewrite dataGet_objSet.
      case_decide as Heq; [|done]. subst n. destruct Hnone. by exists a.
    + done.
    + intros _ _ _ _. unfold g' at 1 2. simpl.
      rewrite dataGet_objSet, objGet_objSet, !decide_True by done.
      split_and!; try done. apply renderAll_Threw.
    + intros [?|[?|[?|?]]]; [done|done|done|congruence].
Qed.

(** X11 (renaming a resource).  Renaming a resource, to a name other than
    [__proto__]. The availability record is found under the new name with
    the NNI entered; when the name changes, the stores have nothing of their
    own left under the old name; the other resources and the job store are
    untouched. A resource that already had the new name is replaced without
    a warning. The call stops at the [TypeError] of [renderAll()], the
    stores written, exactly when [nowId] names no week of the calendar;
    [editingPrep] is then still the old name, and it is reset otherwise. *)
Theorem addPreparateur_rename tz weeks v prepName prepNNI old oldData g :
  old ≠ EmptyString → trim prepName ≠ EmptyString → trim prepNNI ≠ EmptyString →
  trim prepName ≠ "__proto__" →
  dataGet (g_data g) old = Some oldData →
  ∃ g' e' ending,
    addPreparateur tz weeks v prepName prepNNI (Some old) g = Some (g', e', ending) ∧
    (ending = Threw ↔ currentIndex tz weeks (v_now v) = None) ∧
    e' = match ending with Returned => None | Threw => Some old end ∧
    dataGet (g_data g') (trim prepName) = Some oldData ∧
    objGet (g_preparateursMeta g') (trim prepName) = Some (trim prepNNI) ∧
    (trim prepName ≠ old →
     dataGet (g_data g') old = None ∧ objGet (g_preparateursMeta g') old = None) ∧
    (∀ n, n ≠ old → n ≠ trim prepName →
          dataGet (g_data g') n = dataGet (g_data g) n ∧
          objGet (g_preparateursMeta g') n = objGet (g_preparateursMeta g) n) ∧
    g_chantiers g' = g_chantiers g.
Proof.
  intros Hold Hname Hnni Hproto Hget. unfold addPreparateur.
  set (name := trim prepName) in *. set (nni := trim prepNNI) in *.
  rewrite bool_decide_eq_false_2 by tauto.
  destruct old as [|c r]; [done|]. rewrite Hget.
  rewrite (bool_decide_eq_false_2 _ Hproto). rewrite finish_spec.
  eexists _, _, _. split; [done|]. simpl. split_and!.
  - apply renderAll_Threw.
  - done.
  - by rewrite dataGet_objSet, decide_True.
  - by rewrite objGet_objSet, decide_True.
  - intros Hne. rewrite dataGet_objSet, objGet_objSet, !decide_False by done.
    by rewrite dataGet_objDelete, objGet_objDelete, !decide_True.
  - intros n Hn1 Hn2.
    rewrite dataGet_objSet, objGet_objSet, !decide_False by done.
    by rewrite dataGet_objDelete, objGet_objDelete, !decide_False.
  - done.
Qed.

(** X12 (adding then removing).  Removing a resource that has just been
    added, under a name that the store neither had nor inherits, gives back
    the availability store and the job store as they were, key order
    included, and the table of the NNIs without an entry for the name: the
    table as it was when the name had no NNI before the addition, and
    otherwise the table without the NNI that the name had. The removal ends
    as the addition did: at the [TypeError] of [renderAll()] when [nowId]
    names no week, with [editingPrep] as it was, and otherwise with
    [editingPrep] reset. *)
Theorem removePreparateur_after_add tz weeks v prepName prepNNI editingPrep g g' e' ending :
  orNull editingPrep = None →
  trim prepName ≠ EmptyString → trim prepNNI ≠ EmptyString →
  dataGet (g_data g) (trim prepName) = None → inherited (trim prepName) = false →
  addPreparateur tz weeks v prepName prepNNI editingPrep g = Some (g', e', ending) →
  removePreparateur tz weeks v (trim prepName) true e' g'
  = (mkGlobals (g_data g) (objDelete (trim prepName) (g_preparateursMeta g)) (g_chantiers g),
     match ending with Returned => None | Threw => editingPrep end,
     ending) ∧
  (ending = Threw ↔ currentIndex tz weeks (v_now v) = None) ∧
  (objGet (g_preparateursMeta g) (trim prepName) = None →
   objDelete (trim prepName) (g_preparateursMeta g) = g_preparateursMeta g).
Proof.
  intros Hadd Hname Hnni Hdata Hinh. unfold addPreparateur.
  rewrite bool_decide_eq_false_2 by tauto.
  rewrite Hdata, Hinh.
  rewrite (bool_decide_eq_false_2 (is_Some None)) by (by intros [? ?]).
  cbn [orb]. rewrite finish_spec.
  set (g1 := mkGlobals (objSet (trim prepName) ∅ (g_data g))
                       (objSet (trim prepName) (trim prepNNI) (g_preparateursMeta g))
                       (g_chantiers g)).
  intros Hres.
  assert (Hres' : Some (g1, match renderAll tz weeks v g1 with
                            | Returned => None | Threw => editingPrep end,
                        renderAll tz weeks v g1) = Some (g', e', ending)).
  { destruct editingPrep as [[|]|]; done. }
  injection Hres' as <- <- <-.
  split_and!.
  - unfold removePreparateur.
    set (g2 := mkGlobals _ _ _).
    assert (Hg2 : g2 = mkGlobals (g_data g) (objDelete (trim prepName) (g_preparateursMeta g))
                                 (g_chantiers g)).
    { apply globals_eq; simpl.
      - apply objDelete_objSet. by rewrite <- dataGet_objGet.
      - apply objDelete_objSet_eq.
      - done. }
    rewrite (renderAll_globals tz weeks v g2 g1), <- Hg2.
    by destruct (renderAll tz weeks v g1).
  - apply renderAll_Threw.
  - apply objDelete_absent.
Qed.

(** X13 (jobs of a renamed resource).  Renaming a resource does not follow
    into the job store: a job of the old name keeps that name, so the next
    reallocation, which finds no resource of that name, leaves the job's
    allocation map as it is; whether the renaming call returned or stopped
    in [renderAll()]. *)
Theorem rename_orphans_jobs tz weeks now v prepName prepNNI old g g' e' ending i key ch :
  old ≠ EmptyString → trim prepName ≠ EmptyString → trim prepNNI ≠ EmptyString →
  trim prepName ≠ old →
  addPreparateur tz weeks v prepName prepNNI (Some old) g = Some (g', e', ending) →
  g_chantiers g !! i = Some (key, ch) →
  preparateur ch = Some old → isActive ch = true →
  ∃ ch', g_chantiers (reallocate tz weeks now g') !! i = Some (key, ch') ∧
    preparateur ch' = Some old ∧ planification ch' = planification ch.
Proof.
  intros Hold Hname Hnni Hne Hadd Hi Hprep Hact. unfold addPreparateur in Hadd.
  case_bool_decide; [tauto|].
  destruct old as [|c r]; [done|]. set (old := String c r) in *.
  destruct (dataGet (g_data g) old) as [oldData|] eqn:Hget; [|done].
  case_bool_decide; [done|].
  rewrite finish_spec in Hadd. injection Hadd as <- _ _.
  set (g' := mkGlobals _ _ _).
  assert (Hi' : g_chantiers g' !! i = Some (key, ch)) by done.
  destruct (reallocate_lookup tz weeks now g' i key ch Hi') as (ch' & Hch' & Hrun).
  exists ch'. split; [done|].
  destruct (run_unowned tz weeks now (mkState (g_chantiers g').*2 (g_data g')) i ch)
    as (ch'' & Hch'' & Hfix & Hplan & _).
  - simpl. by rewrite list_lookup_fmap, Hi.
  - done.
  - intros name Hin. rewrite Hprep. intros [= <-].
    assert (Hnone : dataGet (g_data g') old = None).
    { unfold g'. simpl. rewrite dataGet_objSet, decide_False by done.
      by rewrite dataGet_objDelete, decide_True. }
    rewrite dataGet_objGet in Hnone. by apply objGet_None in Hnone.
  - assert (ch'' = ch') as -> by congruence.
    split; [|done]. destruct Hfix as (_&_&_&_&_&<-). done.
Qed.

(* ===================================================================== *)
(** ** The import of jobs from pasted text                                *)
(* ===================================================================== *)


Section ImportFacts.
Variable raw : list string.
Variable prep : string.




End ImportFacts.


(* ===================================================================== *)
(** ** The creation of a job and its simulation                           *)
(* ===================================================================== *)


Lemma formFields_sameFixed f a b : sameFixed a b → formFields f a → formFields f b.
Proof.
  intros (H1 & H2 & H3 & H4 & H5 & _) (F1 & F2 & F3 & F4 & F5).
  unfold formFields. rewrite <- H1, <- H2, <- H3, <- H4, <- H5. done.
Qed.

Lemma simulating_mono (Q Q' : option string → Prop) f cg :
  (∀ x, Q x → Q' x) → simulating Q f cg → simulating Q' f cg.
Proof.
  intros HQ (Hm & Hp & Hnd & ch & Hch & Hf & Hq).
  split; [done|]. split; [done|]. split; [done|].
  exists ch. split; [done|]. split; [done|].
  destruct (objGet (simulOriginalPrep _) _); by apply HQ.
Qed.

Section SimulationFacts.
Variables (tz : Z) (weeks : list Week) (now : Z) (cur : nat).
Hypothesis Hcur : currentWeekIdx tz weeks now = Some cur.

Lemma othersKept_refl id g : othersKeptKeys tz weeks cur id g g.
Proof.
  split; [done|]. split; [done|]. split; [|done].
  intros k c0 _ Hk. by exists c0.
Qed.

Lemma othersKept_trans id g1 g2 g3 :
  othersKeptKeys tz weeks cur id g1 g2 → othersKeptKeys tz weeks cur id g2 g3 →
  othersKeptKeys tz weeks cur id g1 g3.
Proof.
  intros (Hd & Hm & Hk & Hn) (Hd' & Hm' & Hk' & Hn').
  split; [congruence|]. split; [congruence|]. split.
  - intros k c0 Hne Hc0. destruct (Hk k c0 Hne Hc0) as (c1 & Hc1 & H01).
    destruct (Hk' k c1 Hne Hc1) as (c2 & Hc2 & H12).
    exists c2. split; [done|]. by etrans.
  - intros k Hne Hnone. by apply Hn', Hn.
Qed.

(** [chantiers[id].preparateur = v], then [repartitionAutomatique()]. *)
Lemma assign_reallocate id v g ch :
  NoDup (g_chantiers g).*1 → objGet (g_chantiers g) id = Some ch →
  NoDup (g_chantiers (reallocate tz weeks now (assign id v g))).*1 ∧
  (∃ ch', objGet (g_chantiers (reallocate tz weeks now (assign id v g))) id = Some ch' ∧
          keepsPastKeys tz weeks cur (set_preparateur v ch) ch') ∧
  othersKeptKeys tz weeks cur id g (reallocate tz weeks now (assign id v g)).
Proof.
  intros Hnd Hch. unfold assign. rewrite Hch.
  set (g1 := set_g_chantiers _ g).
  assert (Hnd1 : NoDup (g_chantiers g1).*1) by (by apply objSet_NoDup).
  assert (Hid : objGet (g_chantiers g1) id = Some (set_preparateur v ch)).
  { unfold g1. simpl. rewrite objGet_objSet. by rewrite decide_True. }
  assert (Hother : ∀ k, k ≠ id → objGet (g_chantiers g1) k = objGet (g_chantiers g) k).
  { intros k Hk. unfold g1. simpl. rewrite objGet_objSet. by rewrite decide_False. }
  split; [by apply reallocate_NoDup|]. split.
  - by apply (reallocate_keepsPast tz weeks now cur g1).
  - split; [by rewrite reallocate_data|]. split; [done|]. split.
    + intros k c0 Hk Hc0. rewrite <- (Hother k Hk) in Hc0.
      by apply (reallocate_keepsPast tz weeks now cur g1 k c0 Hcur Hnd1).
    + intros k Hk Hnone. rewrite <- (Hother k Hk) in Hnone.
      by apply reallocate_objGet_None.
Qed.

(** The pointer leaves an element: the job gets back what
    [_simulOriginalPrep] holds, or no resource when the job has no such
    property; the property is deleted. *)
Lemma simulateOut_spec (Q : option string → Prop) f cg :
  f_id f ≠ EmptyString → simulating Q f cg →
  simulating (λ x, x = orNull (default None (objGet (simulOriginalPrep cg.1) (f_id f))))
             f (simulateOut tz weeks now cg.1 cg.2) ∧
  objGet (simulOriginalPrep (simulateOut tz weeks now cg.1 cg.2).1) (f_id f) = None ∧
  othersKeptKeys tz weeks cur (f_id f) cg.2 (simulateOut tz weeks now cg.1 cg.2).2.
Proof.
  intros Hid (Hm & Hp & Hnd & ch & Hch & Hf & Hq).
  destruct cg as [c g]. simpl in *. unfold simulateOut. rewrite Hm, Hp. simpl.
  destruct (f_id f) as [|a r] eqn:Eid; [done|]. rewrite Hch.
  set (original := default None (objGet (simulOriginalPrep c) (String a r))).
  destruct (assign_reallocate (String a r) (orNull original) g ch Hnd Hch)
    as (Hnd' & (ch' & Hch' & Hfix & _) & Hothers).
  simpl. split; [|split; [|done]].
  - split; [done|]. split; [by rewrite Eid|]. split; [done|]. simpl.
    rewrite Eid. exists ch'. split; [done|]. split.
    + apply (formFields_sameFixed f _ _ Hfix).
      destruct Hf as (F1 & F2 & F3 & F4 & F5). by split_and!.
    + rewrite objGet_objDelete, decide_True by done.
      destruct Hfix as (_ & _ & _ & _ & _ & Hprep). by rewrite <- Hprep.
  - by rewrite objGet_objDelete, decide_True.
Qed.

(** Whatever the pointer does, the simulation stays on, with a resource to
    give back that is the one it had to give back, or none. *)
Lemma pointerEvent_inv (Q : option string → Prop) f cg e :
  Q None → (∀ x, Q x → Q (orNull x)) →
  simulating Q f cg →
  simulating Q f (pointerEvent tz weeks now cg e) ∧
  othersKeptKeys tz weeks cur (f_id f) cg.2 (pointerEvent tz weeks now cg e).2.
Proof.
  intros HQ0 HQ Hsim. destruct e as [txt|]; simpl.
  - destruct Hsim as (Hm & Hp & Hnd & ch & Hch & Hf & Hq).
    destruct cg as [c g]. simpl in *. unfold simulateOver. rewrite Hm, Hp. simpl.
    destruct (f_id f) as [|a r] eqn:Eid.
    { split; [|apply othersKept_refl].
      split; [done|]. split; [by rewrite Eid|]. split; [done|].
      rewrite Eid. by exists ch. }
    rewrite Hch.
    destruct (negb (knownNNI (g_preparateursMeta g) txt)).
    { split; [|apply othersKept_refl].
      split; [done|]. split; [by rewrite Eid|]. split; [done|].
      rewrite Eid. by exists ch. }
    destruct (assign_reallocate (String a r) (Some txt) g ch Hnd Hch)
      as (Hnd' & (ch' & Hch' & Hfix & _) & Hothers).
    simpl. split; [|done].
    split; [by destruct (objGet (simulOriginalPrep c) (String a r))|].
    split; [rewrite Eid; by destruct (objGet (simulOriginalPrep c) (String a r))|].
    split; [done|]. simpl. rewrite Eid. exists ch'. split; [done|]. split.
    + apply (formFields_sameFixed f _ _ Hfix).
      destruct Hf as (F1 & F2 & F3 & F4 & F5). by split_and!.
    + destruct (objGet (simulOriginalPrep c) (String a r)) as [o|] eqn:Ho.
      * simpl. rewrite Ho. exact Hq.
      * simpl. rewrite objGet_objSet, decide_True by done. by apply HQ.
  - destruct (decide (f_id f = EmptyString)) as [Hid|Hid].
    + destruct Hsim as (Hm & Hp & Hnd & ch & Hch & Hf & Hq).
      destruct cg as [c g]. simpl in *. unfold simulateOut. rewrite Hm, Hp, Hid. simpl.
      split; [|apply othersKept_refl].
      unfold simulating. simpl. rewrite <- ?Hid.
      split; [done|]. split; [done|]. split; [done|]. by exists ch.
    + destruct (simulateOut_spec Q f cg Hid Hsim) as (Hsim' & _ & Hothers).
      split; [|done]. apply (simulating_mono _ Q _ _ ) in Hsim'; [done|].
      intros x ->.
      destruct Hsim as (_ & _ & _ & ch & _ & _ & Hq).
      destruct (objGet (simulOriginalPrep cg.1) (f_id f)) as [o|]; simpl; [done|].
      done.
Qed.

Lemma pointerEvents_inv (Q : option string → Prop) f events : ∀ cg,
  Q None → (∀ x, Q x → Q (orNull x)) →
  simulating Q f cg →
  simulating Q f (foldl (pointerEvent tz weeks now) cg events) ∧
  othersKeptKeys tz weeks cur (f_id f) cg.2 (foldl (pointerEvent tz weeks now) cg events).2.
Proof.
  induction events as [|e events IH]; intros cg HQ0 HQ Hsim; simpl.
  - split; [done|apply othersKept_refl].
  - destruct (pointerEvent_inv Q f cg e HQ0 HQ Hsim) as [Hsim1 Hk1].
    destruct (IH _ HQ0 HQ Hsim1) as [Hsim2 Hk2].
    split; [done|]. by eapply othersKept_trans.
Qed.

(** The first click on "Simulation". *)
Lemma simulation_start f c g :
  NoDup (g_chantiers g).*1 →
  simulating (λ x, x = orNull (objGet (g_chantiers g) (f_id f) ≫= preparateur)) f
             (btnSimulationClick false f c g) ∧
  othersKeptKeys tz weeks cur (f_id f) g (btnSimulationClick false f c g).2.
Proof.
  intros Hnd. unfold btnSimulationClick. simpl. split.
  - split; [done|]. split; [done|]. split; [by apply objSet_NoDup|]. simpl.
    exists (formJob f (objGet (g_chantiers g) (f_id f))).
    rewrite !objGet_objSet, !decide_True by done.
    split; [done|]. split; [by destruct (objGet (g_chantiers g) (f_id f))|].
    by destruct (objGet (g_chantiers g) (f_id f)).
  - split; [done|]. split; [done|]. simpl. split.
    + intros k c0 Hk Hc0. exists c0. rewrite objGet_objSet, decide_False by done. done.
    + intros k Hk Hnone. by rewrite objGet_objSet, decide_False.
Qed.

(** The second click on "Simulation". *)
Lemma simulation_end (Q : option string → Prop) f cg :
  simulating Q f cg →
  simulationMode (btnSimulationClick true f cg.1 cg.2).1 = false ∧
  chantierEnAttenteAffectation (btnSimulationClick true f cg.1 cg.2).1 = None ∧
  (∃ ch, objGet (g_chantiers (btnSimulationClick true f cg.1 cg.2).2) (f_id f) = Some ch ∧
         formFields f ch ∧ Q (preparateur ch)) ∧
  othersKeptKeys tz weeks cur (f_id f) cg.2 (btnSimulationClick true f cg.1 cg.2).2.
Proof.
  intros (Hm & Hp & Hnd & ch & Hch & Hf & Hq).
  destruct cg as [c g]. simpl in *. unfold btnSimulationClick. simpl. rewrite Hch.
  set (g1 := set_g_chantiers _ g).
  assert (Hid : objGet (g_chantiers g1) (f_id f) = Some (formJob f (Some ch))).
  { unfold g1. simpl. by rewrite objGet_objSet, decide_True. }
  assert (Hother : ∀ k, k ≠ f_id f → objGet (g_chantiers g1) k = objGet (g_chantiers g) k).
  { intros k Hk. unfold g1. simpl. by rewrite objGet_objSet, decide_False. }
  destruct (objGet (simulOriginalPrep c) (f_id f)) as [o|]; simpl.
  - split; [done|]. split; [done|]. unfold assign. rewrite Hid. simpl. split.
    + eexists. rewrite objGet_objSet, decide_True by done. split; [done|]. by split.
    + split; [done|]. split; [done|]. split.
      * intros k c0 Hk Hc0. exists c0. simpl.
        rewrite objGet_objSet, decide_False by done. by rewrite Hother.
      * intros k Hk Hnone. simpl.
        rewrite objGet_objSet, decide_False by done. by rewrite Hother.
  - split; [done|]. split; [done|]. split.
    + eexists. split; [done|]. by split.
    + split; [done|]. split; [done|]. split.
      * intros k c0 Hk Hc0. exists c0. by rewrite Hother.
      * intros k Hk Hnone. by rewrite Hother.
Qed.

End SimulationFacts.



(** X22 (simulation of an assigned job).  A simulation takes its resource
    from a job that had one: once the pointer has left two elements in a
    row, the job that is simulated ends the simulation without a resource,
    whatever else the pointer does. *)
Theorem simulation_unassigns tz weeks now cur f c g events events' :
  currentWeekIdx tz weeks now = Some cur →
  NoDup (g_chantiers g).*1 → f_id f ≠ EmptyString →
  let started := btnSimulationClick false f c g in
  let hovered := foldl (pointerEvent tz weeks now) started
                       (events ++ MouseOut :: MouseOut :: events') in
  let ended := btnSimulationClick true f hovered.1 hovered.2 in
  ∃ ch, objGet (g_chantiers ended.2) (f_id f) = Some ch ∧ preparateur ch = None.
Proof.
  intros Hcur Hnd Hid started hovered ended.
  destruct (simulation_start tz weeks cur f c g Hnd) as [Hs0 _].
  apply (simulating_mono _ (λ _, True)) in Hs0; [|done].
  destruct (pointerEvents_inv tz weeks now cur Hcur (λ _, True) f events _ I
              ltac:(done) Hs0) as [Hs1 _].
  unfold ended, hovered. rewrite foldl_app. simpl.
  set (cg1 := foldl (pointerEvent tz weeks now) started events) in *.
  destruct (simulateOut_spec tz weeks now cur Hcur _ f cg1 Hid Hs1) as (Hs2 & Hnone & _).
  set (cg2 := simulateOut tz weeks now cg1.1 cg1.2) in *.
  destruct (simulateOut_spec tz weeks now cur Hcur _ f cg2 Hid Hs2) as (Hs3 & _ & _).
  rewrite Hnone in Hs3. simpl in Hs3.
  set (cg3 := simulateOut tz weeks now cg2.1 cg2.2) in *.
  destruct (pointerEvents_inv tz weeks now cur Hcur (λ x, x = None) f events' cg3 eq_refl
              ltac:(by intros x ->) Hs3) as [Hs4 _].
  destruct (simulation_end tz weeks cur _ f _ Hs4) as (_ & _ & (ch & Hch & _ & Hprep) & _).
  by exists ch.
Qed.


(* ===================================================================== *)
(** ** The further theorems at the worked planning                        *)
(* ===================================================================== *)

Lemma getWeek_iso_week_witness :
  getWeek hostOffset anchor = (isoWeekOf (JSDate.LocalTime hostOffset anchor)).2.
Proof.
  apply (getWeek_iso_week hostOffset anchor). vm_compute. discriminate.
Defined.

Lemma getISOWeeksInYear_spec_witness : getISOWeeksInYear 60 2026 = isoWeeksOf 2026.
Proof. apply (getISOWeeksInYear_spec 60 2026); lia. Defined.

Lemma getDateOfISOWeek_round_trip_witness :
  JSDate.getUTCDay (getDateOfISOWeek 53 2026) = 1 ∧
  JSDate.TimeWithinDay (getDateOfISOWeek 53 2026) = 0 ∧
  isoWeekOf (getDateOfISOWeek 53 2026) = (2026, 53) ∧
  getWeek 60 (getDateOfISOWeek 53 2026) = 53.
Proof.
  apply (getDateOfISOWeek_round_trip 60 53 2026).
  - lia.
  - lia.
  - vm_compute. split; discriminate.
Defined.

Lemma nowId_current_week_witness :
  ((isoWeekOf (JSDate.LocalTime 60 newYearMonday)).1 = JSDate.getFullYear 60 newYearMonday →
   ∃ i wk, currentIndex 60 (weeks 60) newYearMonday = Some i ∧ weeks 60 !! i = Some wk ∧
           w_start wk ≤ JSDate.Day (JSDate.LocalTime 60 newYearMonday) * JSDate.msPerDay
           ≤ w_end wk) ∧
  ((isoWeekOf (JSDate.LocalTime 60 newYearMonday)).1 ≠ JSDate.getFullYear 60 newYearMonday →
   ∀ i wk, currentIndex 60 (weeks 60) newYearMonday = Some i → weeks 60 !! i = Some wk →
           ¬ (w_start wk ≤ JSDate.Day (JSDate.LocalTime 60 newYearMonday) * JSDate.msPerDay
              ≤ w_end wk)).
Proof.
  apply (nowId_current_week 60 newYearMonday).
  - lia.
  - vm_compute. split; discriminate.
Defined.


Lemma reallocation_skips_unowned_witness :
  ∃ ch', chantiers (repartitionAutomatique hostOffset calendar anchor
                      (mkState [orphanJob] availabilityA)).2 !! 0%nat = Some ch' ∧
    sameFixed orphanJob ch' ∧ planification ch' = planification orphanJob ∧
    ChargeRestante ch' = ChargeRestante orphanJob.
Proof.
  apply (reallocation_skips_unowned hostOffset calendar anchor
           (mkState [orphanJob] availabilityA) 0 orphanJob).
  - reflexivity.
  - vm_compute. reflexivity.
  - intros name Hname. apply list_elem_of_singleton in Hname. subst name. discriminate.
Defined.



Lemma addPreparateur_add_witness :
  ∃ g' e' ending,
    addPreparateur hostOffset calendar pageView " B " "H67890" None workedGlobals
    = Some (g', e', ending) ∧
    (∀ n a, dataGet (g_data workedGlobals) n = Some a → dataGet (g_data g') n = Some a) ∧
    g_chantiers g' = g_chantiers workedGlobals ∧
    (trim " B " ≠ EmptyString → trim "H67890" ≠ EmptyString →
     dataGet (g_data workedGlobals) (trim " B ") = None → inherited (trim " B ") = false →
     dataGet (g_data g') (trim " B ") = Some ∅ ∧
     objGet (g_preparateursMeta g') (trim " B ") = Some (trim "H67890") ∧
     (ending = Threw ↔ currentIndex hostOffset calendar (v_now pageView) = None) ∧
     e' = match ending with Returned => None | Threw => None end) ∧
    (trim " B " = EmptyString ∨ trim "H67890" = EmptyString
     ∨ is_Some (dataGet (g_data workedGlobals) (trim " B "))
     ∨ inherited (trim " B ") = true →
     g' = workedGlobals ∧ e' = None ∧ ending = Returned).
Proof.
  apply (addPreparateur_add hostOffset calendar pageView " B " "H67890" None workedGlobals).
  reflexivity.
Defined.

Lemma addPreparateur_rename_witness :
  ∃ g' e' ending,
    addPreparateur hostOffset calendar pageView "B" "H67890" (Some "A") workedGlobals
    = Some (g', e', ending) ∧
    (ending = Threw ↔ currentIndex hostOffset calendar (v_now pageView) = None) ∧
    e' = match ending with Returned => None | Threw => Some "A" end ∧
    dataGet (g_data g') (trim "B") = dataGet availabilityA "A" ∧
    objGet (g_preparateursMeta g') (trim "B") = Some (trim "H67890") ∧
    (trim "B" ≠ "A" →
     dataGet (g_data g') "A" = None ∧ objGet (g_preparateursMeta g') "A" = None) ∧
    (∀ n, n ≠ "A" → n ≠ trim "B" →
          dataGet (g_data g') n = dataGet (g_data workedGlobals) n ∧
          objGet (g_preparateursMeta g') n = objGet (g_preparateursMeta workedGlobals) n) ∧
    g_chantiers g' = g_chantiers workedGlobals.
Proof.
  apply (addPreparateur_rename hostOffset calendar pageView "B" "H67890" "A" _ workedGlobals).
  - discriminate.
  - vm_compute. discriminate.
  - vm_compute. discriminate.
  - vm_compute. discriminate.
  - reflexivity.
Defined.

Lemma removePreparateur_after_add_witness :
  removePreparateur hostOffset calendar newYearView (trim "B") true None
    (mkGlobals (objSet "B" ∅ (g_data workedGlobals))
               (objSet "B" "H67890" (g_preparateursMeta workedGlobals))
               (g_chantiers workedGlobals))
  = (mkGlobals (g_data workedGlobals)
               (objDelete (trim "B") (g_preparateursMeta workedGlobals))
               (g_chantiers workedGlobals),
     None, Threw) ∧
  (Threw = Threw ↔ currentIndex hostOffset calendar (v_now newYearView) = None) ∧
  (objGet (g_preparateursMeta workedGlobals) (trim "B") = None →
   objDelete (trim "B") (g_preparateursMeta workedGlobals)
   = g_preparateursMeta workedGlobals).
Proof.
  apply (removePreparateur_after_add hostOffset calendar newYearView "B" "H67890" None
           workedGlobals _ None Threw).
  - reflexivity.
  - vm_compute. discriminate.
  - vm_compute. discriminate.
  - reflexivity.
  - reflexivity.
  - vm_compute. reflexivity.
Defined.

Lemma rename_orphans_jobs_witness :
  ∃ ch', g_chantiers
           (reallocate hostOffset calendar anchor
              (mkGlobals (objSet "B" (default ∅ (dataGet availabilityA "A"))
                            (objDelete "A" (g_data workedGlobals)))
                         (objSet "B" "H67890" (objDelete "A" (g_preparateursMeta workedGlobals)))
                         (g_chantiers workedGlobals))) !! 1%nat
         = Some ("CH-2", ch') ∧
    preparateur ch' = Some "A" ∧ planification ch' = planification smallJob.
Proof.
  apply (rename_orphans_jobs hostOffset calendar anchor pageView "B" "H67890" "A"
           workedGlobals _ None Returned 1 "CH-2" smallJob).
  - discriminate.
  - vm_compute. discriminate.
  - vm_compute. discriminate.
  - vm_compute. discriminate.
  - vm_compute. reflexivity.
  - reflexivity.
  - reflexivity.
  - vm_compute. reflexivity.
Defined.

Lemma renderNav_shows_selected_witness :
  length (renderNav calendar 61) = Nat.min 10 (length calendar) ∧
  ∃ p, renderNav calendar 61 !! p
       = Some (mkNavButton (navText (w_id (makeWeek 2025 10))) true (makeWeek 2025 10)) ∧
       ∀ q b, renderNav calendar 61 !! q = Some b → nb_active b = true → q = p.
Proof.
  apply (renderNav_shows_selected calendar 61 (makeWeek 2025 10)).
  vm_compute. reflexivity.
Defined.



Lemma simulation_unassigns_witness :
  let started := btnSimulationClick false knownJobForm creationIdle workedGlobals in
  let hovered := foldl (pointerEvent hostOffset calendar anchor) started
                       ([MouseOver "A"] ++ MouseOut :: MouseOut :: []) in
  let ended := btnSimulationClick true knownJobForm hovered.1 hovered.2 in
  ∃ ch, objGet (g_chantiers ended.2) (f_id knownJobForm) = Some ch ∧ preparateur ch = None.
Proof.
  apply (simulation_unassigns hostOffset calendar anchor 61 knownJobForm creationIdle
           workedGlobals [MouseOver "A"] []).
  - vm_compute. reflexivity.
  - apply (bool_decide_unpack _). vm_compute. exact I.
  - discriminate.
Defined.

